(** * wobble: the Model / Component optimisation engine

    A shallow embedding of [wobble/model.py].

    Numbers.  The engine computes in float64; the embedding computes in
    exact rational arithmetic ([Q]), so rounding, NaN and infinities are
    outside the model.  Equations between computed scalars are stated with
    [==] ([Qeq]); where the code merely moves a value around, Leibniz
    equality is used.

    Arrays.  A one-dimensional ndarray is a [list Q], a two-dimensional one
    a list of rows.  The arrays of the [Data] provider, and every array the
    engine copies with [np.copy] and then updates in place, live in a store
    indexed by references, so that aliasing is visible.  Arrays that are
    local to one call are plain values.

    Exceptions.  A Python exception is a [Raise] result; what was written to
    the store or printed before it was raised stays.

    Collaborators.  [doppler], [bin_data], [interp], numpy's [log], [interp]
    and [svd], TensorFlow's optimisers and gradients and the [Results] and
    [History] objects are not part of [model.py]; they are the fields of the
    classes [Numerics] and [Runtime]. *)

From Stdlib Require Import QArith Qabs Qround Qminmax Lqa Lia.
From stdpp Require Import base gmap list strings.

#[local] Open Scope Q_scope.

Abbreviation vec := (list Q).
Abbreviation mat := (list (list Q)).
Abbreviation loc := nat.

(** ** Exceptions, the store and the monad of engine calls *)

Inductive exn : Set :=
| IndexError
| ValueError
| AttributeError
| DanglingReference. (* never raised by Python: a reference outside the store *)

Inductive result (A : Type) : Type :=
| Ok (a : A)
| Raise (e : exn).
Arguments Ok {A} a.
Arguments Raise {A} e.

(** What the engine prints. *)
Inductive msg : Set :=
| MsgDuplicateName (name : string)
| MsgRegFileNotRecognized (name : string)
| MsgOptimizeIterating (niter : nat)
| MsgUncertainties.

Record World : Type := mkWorld {
  heap : gmap nat mat;
  stdout : list msg
}.

Definition M (A : Type) : Type := World -> result A * World.

#[global] Instance M_ret : MRet M := fun A a w => (Ok a, w).
#[global] Instance M_bind : MBind M := fun A B f m w =>
  match m w with
  | (Ok a, w') => f a w'
  | (Raise e, w') => (Raise e, w')
  end.

Definition lift {A} (x : result A) : M A := fun w => (x, w).
Definition raise {A} (e : exn) : M A := lift (Raise e).
Definition print (s : msg) : M unit :=
  fun w => (Ok tt, mkWorld (heap w) (stdout w ++ [s])).

#[global] Instance result_ret : MRet result := fun A a => Ok a.
#[global] Instance result_bind : MBind result := fun A B f x =>
  match x with
  | Ok a => f a
  | Raise e => Raise e
  end.

Fixpoint mapR {A B} (f : A -> result B) (l : list A) : result (list B) :=
  match l with
  | [] => Ok []
  | a :: l' =>
      match f a with
      | Ok b => match mapR f l' with
                | Ok bs => Ok (b :: bs)
                | Raise e => Raise e
                end
      | Raise e => Raise e
      end
  end.

(** [for x in l: body x] *)
Fixpoint for_each {A} (l : list A) (body : A -> M unit) : M unit :=
  match l with
  | [] => mret tt
  | a :: l' => _ ← body a; for_each l' body
  end.

(** [for x in l: acc = body acc x] *)
Fixpoint for_fold {A S} (l : list A) (body : S -> A -> M S) (acc : S) : M S :=
  match l with
  | [] => mret acc
  | a :: l' => acc' ← body acc a; for_fold l' body acc'
  end.

(** Whether a run returned, and what it returned ([d] if it raised). *)
Definition succeeds {A} (x : result A * World) : bool :=
  match x.1 with
  | Ok _ => true
  | Raise _ => false
  end.

Definition returned {A} (d : A) (x : result A * World) : A :=
  match x.1 with
  | Ok a => a
  | Raise _ => d
  end.

(** ** numpy on lists *)

Module np.

(** [a[n]] *)
Definition index {A} (a : list A) (n : nat) : result A :=
  match a !! n with
  | Some x => Ok x
  | None => Raise IndexError
  end.

(** Two axis lengths broadcast together when they agree or one of them
    is 1. *)
Definition compatible (n m : nat) : bool :=
  (n =? m)%nat || (n =? 1)%nat || (m =? 1)%nat.

(** Broadcasting along one axis; on lengths that are not [compatible] it
    truncates, which numpy never gets to see. *)
Definition bcast {A B C} (f : A -> B -> C) (a : list A) (b : list B) : list C :=
  match a, b with
  | [x], _ => f x <$> b
  | _, [y] => (fun x => f x y) <$> a
  | _, _ => zip_with f a b
  end.

(** [a op b] on one-dimensional arrays. *)
Definition binop (f : Q -> Q -> Q) (a b : vec) : result vec :=
  if compatible (length a) (length b) then Ok (bcast f a b)
  else Raise ValueError.

(** [a op b] on two-dimensional arrays. *)
Definition binop2 (f : Q -> Q -> Q) (a b : mat) : result mat :=
  if compatible (length a) (length b) then mapR id (bcast (binop f) a b)
  else Raise ValueError.

(** [a op= b]: the right operand must broadcast to the shape of the left. *)
Definition iop (f : Q -> Q -> Q) (a b : vec) : result vec :=
  if (length b =? length a)%nat || (length b =? 1)%nat then Ok (bcast f a b)
  else Raise ValueError.

Definition iop2 (f : Q -> Q -> Q) (a b : mat) : result mat :=
  if (length b =? length a)%nat || (length b =? 1)%nat
  then mapR id (bcast (iop f) a b)
  else Raise ValueError.

(** [a[n] = v] for a row of length [m]. *)
Definition assign_row (m : nat) (v : vec) : result vec :=
  if (length v =? m)%nat then Ok v
  else match v with
       | [x] => Ok (replicate m x)
       | _ => Raise ValueError
       end.

(** [v[:, None]] *)
Definition column (v : vec) : mat := (fun x => [x]) <$> v.

(** [np.min] and [np.max] of all entries. *)
Definition min (a : mat) : result Q :=
  match concat a with
  | [] => Raise ValueError
  | x :: l => Ok (fold_left Qmin l x)
  end.

Definition max (a : mat) : result Q :=
  match concat a with
  | [] => Raise ValueError
  | x :: l => Ok (fold_left Qmax l x)
  end.

(** [np.arange(start, stop, step)]: the points [start + i*step] for
    [0 <= i < ceil((stop - start)/step)]. *)
Definition arange (start stop step : Q) : vec :=
  (fun i => start + inject_Z (Z.of_nat i) * step)
    <$> seq 0 (Z.to_nat (Qceiling ((stop - start) / step))).

(** [np.linspace(start, stop, num)] *)
Definition linspace (start stop : Q) (num : nat) : vec :=
  (fun i => start + inject_Z (Z.of_nat i)
                    * ((stop - start) / inject_Z (Z.of_nat (num - 1))))
    <$> seq 0 num.

(** [np.tile(v, (n, 1))] *)
Definition tile (v : vec) (n : nat) : mat := replicate n v.

Definition zeros (n : nat) : vec := replicate n 0.
Definition zeros2 (n m : nat) : mat := replicate n (zeros m).

Definition sum (v : vec) : Q := fold_right Qplus 0 v.
Definition sum2 (a : mat) : Q := sum (sum <$> a).

(** [np.dot] of two one-dimensional arrays. *)
Definition dot (a b : vec) : Q := sum (zip_with Qmult a b).

Definition ncols (a : mat) : nat := length (default [] (head a)).
Definition col (a : mat) (m : nat) : vec := (fun row => nth m row 0) <$> a.

(** The matrix product, entry [(n, m)] being the dot product of row [n]
    of [a] with column [m] of [b]. *)
Definition matmul (a b : mat) : mat :=
  (fun row => (fun m => dot row (col b m)) <$> seq 0 (ncols b)) <$> a.

(** [np.dot] of two two-dimensional arrays. *)
Definition dot2 (a b : mat) : result mat :=
  if forallb (fun row => (length row =? length b)%nat) a
  then Ok (matmul a b) else Raise ValueError.

(** The store. [deref] reads the array a reference points to, [copy] is
    [np.copy], [store] overwrites the array in place. *)
Definition deref (l : loc) : M mat := fun w =>
  match heap w !! l with
  | Some a => (Ok a, w)
  | None => (Raise DanglingReference, w)
  end.

Definition alloc (a : mat) : M loc := fun w =>
  let l := fresh (dom (heap w)) in
  (Ok l, mkWorld (<[l := a]> (heap w)) (stdout w)).

Definition copy (l : loc) : M loc := a ← deref l; alloc a.

Definition store (l : loc) (a : mat) : M unit := fun w =>
  match heap w !! l with
  | Some _ => (Ok tt, mkWorld (<[l := a]> (heap w)) (stdout w))
  | None => (Raise DanglingReference, w)
  end.

(** [a[n] -= v] on the array behind [l]. *)
Definition isub_row (l : loc) (n : nat) (v : vec) : M unit :=
  a ← deref l;
  row ← lift (index a n);
  row' ← lift (iop Qminus row v);
  store l (<[n := row']> a).

End np.

(** ** Numeric collaborators *)

Class Numerics : Type := mkNumerics {
  (** [wobble.utils.doppler], the Doppler factor of a velocity *)
  doppler : Q -> Q;
  (** [np.log] and [tf.log] *)
  log : Q -> Q;
  (** [wobble.utils.bin_data xs ys ivars template_xs] *)
  bin_data : mat -> mat -> mat -> vec -> vec * vec;
  (** [np.interp x xp fp] on well-formed arguments *)
  np_interp : vec -> vec -> vec -> vec;
  (** the one-dimensional kernel of [wobble.interp.interp] *)
  interp_kernel : vec -> vec -> vec -> vec;
  (** [np.linalg.svd(a, compute_uv=True, full_matrices=False)] *)
  svd : mat -> mat * vec * mat
}.

(** ** The Data provider *)

Module Data.
Record t : Type := mk {
  orders : list nat;
  N : nat;
  xs : list nat;     (* per order, a reference to an N x M array *)
  ys : list nat;
  ivars : list nat;
  bervs : vec;
  airms : vec
}.
End Data.

(** ** Component *)

(** The keyword arguments of [Component.__init__]; [None] is a keyword
    that was not passed. *)
Module Kwargs.
Record t : Type := mk {
  (* the file name and, when h5py can open it, its datasets (one value
     per order) *)
  regularization_par_file : option (string * option (gmap string vec));
  L1_template : option Q;
  L2_template : option Q;
  L1_basis_vectors : option Q;
  L2_basis_vectors : option Q;
  L2_basis_weights : option Q;
  learning_rate_rvs : option Q;
  learning_rate_template : option Q;
  learning_rate_basis : option Q;
  rvs_fixed : option bool;
  variable_bases : option nat;
  scale_by_airmass : option bool;
  template_xs : option vec
}.

Definition empty : t :=
  mk None None None None None None None None None None None None None.
End Kwargs.

(** The values of the TensorFlow variables of one component. The two basis
    variables exist only when [K > 0]; they read [[]] otherwise and are
    never used. *)
Module Vars.
Record t : Type := mk {
  rvs : vec;
  template_ys : vec;
  basis_vectors : mat;
  basis_weights : mat
}.
End Vars.

Module Component.

Record t : Type := mk {
  name : string;
  r : nat;
  K : nat;
  N : nat;
  rvs_fixed : bool;
  scale_by_airmass : bool;
  learning_rate_rvs : Q;
  learning_rate_template : Q;
  learning_rate_basis : Q;
  regularization_par : list string;
  (* the attributes written with [setattr] under the names of
     [regularization_par] *)
  attrs : gmap string Q;
  starting_rvs : vec;
  template_xs : option vec;
  (* attributes that exist only once [initialize_template] has run *)
  template_ys : option vec;
  basis_vectors : option mat;
  basis_weights : option mat;
  (* set by [Model.estimate_uncertainties] *)
  ivars_rvs : option vec;
  (* the tensors built by [setup], as functions of the variables *)
  synth : option (Vars.t -> mat);
  nll : option (Vars.t -> Q)
}.

Definition setattr (par : string) (v : Q) (c : t) : t :=
  let 'mk a b d e f g h i j k at_ l m n o p q s u := c in
  mk a b d e f g h i j k (<[par := v]> at_) l m n o p q s u.

Definition set_template (txs tys : vec) (c : t) : t :=
  let 'mk a b d e f g h i j k at_ l _ _ o p q s u := c in
  mk a b d e f g h i j k at_ l (Some txs) (Some tys) o p q s u.

Definition set_basis (bv bw : mat) (c : t) : t :=
  let 'mk a b d e f g h i j k at_ l m n _ _ q s u := c in
  mk a b d e f g h i j k at_ l m n (Some bv) (Some bw) q s u.

Definition set_ivars_rvs (iv : vec) (c : t) : t :=
  let 'mk a b d e f g h i j k at_ l m n o p _ s u := c in
  mk a b d e f g h i j k at_ l m n o p (Some iv) s u.

Definition set_graph (sy : Vars.t -> mat) (nl : Vars.t -> Q) (c : t) : t :=
  let 'mk a b d e f g h i j k at_ l m n o p q _ _ := c in
  mk a b d e f g h i j k at_ l m n o p q (Some sy) (Some nl).

Definition getattr (c : t) (par : string) : result Q :=
  match attrs c !! par with
  | Some v => Ok v
  | None => Raise AttributeError
  end.

(** [eval(par)] in [__init__]: the keyword argument of that name, or its
    default. *)
Definition eval (kw : Kwargs.t) (par : string) : Q :=
  if String.eqb par "L1_template" then default 0 (Kwargs.L1_template kw)
  else if String.eqb par "L2_template" then default 0 (Kwargs.L2_template kw)
  else if String.eqb par "L1_basis_vectors"
       then default 0 (Kwargs.L1_basis_vectors kw)
  else if String.eqb par "L2_basis_vectors"
       then default 0 (Kwargs.L2_basis_vectors kw)
  else default 1 (Kwargs.L2_basis_weights kw).

(** The body of the [try] block: overwrite each parameter with the value
    the file has for order [r]; the first failure leaves the loop ([false])
    and keeps what was already overwritten. *)
Fixpoint load_regularization (f : gmap string vec) (r : nat)
    (pars : list string) (c : t) : t * bool :=
  match pars with
  | [] => (c, true)
  | par :: pars' =>
      match f !! par with
      | Some ds =>
          match ds !! r with
          | Some v => load_regularization f r pars' (setattr par v c)
          | None => (c, false)
          end
      | None => (c, false)
      end
  end.

(** [Component.__init__] *)
Definition init (name : string) (r : nat) (starting_rvs : vec)
    (kw : Kwargs.t) : M t :=
  let K := default 0%nat (Kwargs.variable_bases kw) in
  let regularization_par :=
    if (0 <? K)%nat
    then ["L1_template"; "L2_template"]
           ++ ["L1_basis_vectors"; "L2_basis_vectors"; "L2_basis_weights"]
    else ["L1_template"; "L2_template"] in
  let c :=
    mk name r K (length starting_rvs)
       (default false (Kwargs.rvs_fixed kw))
       (default false (Kwargs.scale_by_airmass kw))
       (default 10 (Kwargs.learning_rate_rvs kw))
       (default (1 # 100) (Kwargs.learning_rate_template kw))
       (default (1 # 100) (Kwargs.learning_rate_basis kw))
       regularization_par ∅ starting_rvs (Kwargs.template_xs kw)
       None None None None None None in
  let c := foldl (fun c par => setattr par (eval kw par) c) c
                 regularization_par in
  match Kwargs.regularization_par_file kw with
  | None => mret c
  | Some (file, Some f) =>
      match load_regularization f r regularization_par c with
      | (c', true) => mret c'
      | (c', false) => _ ← print (MsgRegFileNotRecognized file); mret c'
      end
  | Some (file, None) => _ ← print (MsgRegFileNotRecognized file); mret c
  end.

Section WithNumerics.
Context `{Numerics}.

(** [data_xs + log(doppler(rvs[:, None]))] *)
Definition log_doppler (rvs : vec) : mat :=
  np.column ((fun v => log (doppler v)) <$> rvs).

(** Modelled from the spec: [wobble.interp.interp] is not in [model.py];
    it interpolates per epoch, row [n] of the result being the kernel
    applied to row [n] of its three arguments. *)
Definition interp (t x y : mat) : mat :=
  zip_with (fun tn xy => interp_kernel tn xy.1 xy.2) t (zip x y).

(** [x + inner_zeros[..., None]]: [x] repeated along the epoch axis. *)
Definition expand_inner (rows : nat) (x : vec) : mat := replicate rows x.

(** The tensor [self.nll] of [Component.setup]. A regularisation tensor is
    the constant read with [getattr] when the graph is built. *)
Definition nll_tensor (K : nat) (L1_template L2_template L1_basis_vectors
    L2_basis_vectors L2_basis_weights : Q) (v : Vars.t) : Q :=
  let nll := L1_template * np.sum (Qabs <$> Vars.template_ys v) in
  let nll := nll + L2_template
                   * np.sum ((fun y => y ^ 2) <$> Vars.template_ys v) in
  if (0 <? K)%nat then
    let nll := nll + L1_basis_vectors
                     * np.sum2 ((fun row : vec => Qabs <$> row) <$> Vars.basis_vectors v) in
    let nll := nll + L2_basis_vectors
                     * np.sum2 ((fun row : vec => (fun y => y ^ 2) <$> row)
                                  <$> Vars.basis_vectors v) in
    nll + L2_basis_weights
          * np.sum2 ((fun row : vec => (fun y => y ^ 2) <$> row)
                       <$> Vars.basis_weights v)
  else nll.

(** The tensor [self.synth] of [Component.setup]. *)
Definition synth_tensor (K : nat) (scale_by_airmass : bool)
    (data_xs : mat) (airms : vec) (template_xs : vec) (v : Vars.t) : mat :=
  let shifted_xs :=
    np.bcast (np.bcast Qplus) data_xs (log_doppler (Vars.rvs v)) in
  let rows := length shifted_xs in
  let synth :=
    if (K =? 0)%nat then
      interp shifted_xs (expand_inner rows template_xs)
             (expand_inner rows (Vars.template_ys v))
    else
      let full_template :=
        np.bcast (np.bcast Qplus) [Vars.template_ys v]
                 (np.matmul (Vars.basis_weights v) (Vars.basis_vectors v)) in
      interp shifted_xs (expand_inner rows template_xs) full_template in
  if scale_by_airmass
  then zip_with (fun a (row : vec) => Qmult a <$> row) airms synth
  else synth.

Definition attr {A} (a : option A) : result A :=
  match a with
  | Some x => Ok x
  | None => Raise AttributeError
  end.

(** The initial values of the variables [setup] creates. *)
Definition initial_vars (c : t) : result Vars.t :=
  tys ← attr (template_ys c);
  if (0 <? K c)%nat then
    bv ← attr (basis_vectors c);
    bw ← attr (basis_weights c);
    Ok (Vars.mk (starting_rvs c) tys bv bw)
  else Ok (Vars.mk (starting_rvs c) tys [] []).

(** [Component.setup]. TensorFlow checks shapes while the graph is built;
    the tensors here are total functions, which agree with TensorFlow's on
    the shapes it accepts. *)
Definition setup (c : t) (data : Data.t) (r : nat) : M t :=
  _ ← lift (initial_vars c);
  template_xs ← lift (attr (template_xs c));
  lx ← lift (np.index (Data.xs data) r);
  data_xs ← np.deref lx;
  L1_template ← lift (getattr c "L1_template");
  L2_template ← lift (getattr c "L2_template");
  regs ← lift (if (0 <? K c)%nat then
                 a ← getattr c "L1_basis_vectors";
                 b ← getattr c "L2_basis_vectors";
                 d ← getattr c "L2_basis_weights";
                 Ok (a, b, d)
               else Ok (0, 0, 0));
  let '(L1_basis_vectors, L2_basis_vectors, L2_basis_weights) := regs in
  mret (set_graph
          (synth_tensor (K c) (scale_by_airmass c) data_xs (Data.airms data)
                        template_xs)
          (nll_tensor (K c) L1_template L2_template L1_basis_vectors
                      L2_basis_vectors L2_basis_weights)
          c).

(** [np.interp(x, xp, fp)]: numpy refuses an empty [xp] and an [fp] of
    another length. *)
Definition np_interp_checked (x xp fp : vec) : result vec :=
  if (length xp =? length fp)%nat && negb (length xp =? 0)%nat
  then Ok (np_interp x xp fp)
  else Raise ValueError.

Definition dx : Q := 2 * (log (600001 # 100) - log 6000).
Definition tiny : Q := 10.

(** The grid [initialize_template] builds when [template_xs] is [None]. *)
Definition default_template_xs (shifted_xs : mat) : result vec :=
  lo ← np.min shifted_xs;
  hi ← np.max shifted_xs;
  Ok (np.arange (lo - tiny * dx) (hi + tiny * dx) dx).

(** The rows of [resids] in [initialize_template]. *)
Definition resids_row (template_xs template_ys : vec) (shifted_xs data_ys : mat)
    (n : nat) : result vec :=
  sx ← np.index shifted_xs n;
  dy ← np.index data_ys n;
  i ← np_interp_checked template_xs sx dy;
  d ← np.binop Qminus i template_ys;
  np.assign_row (length template_ys) d.

(** [Component.initialize_template]; returns the component with its new
    attributes and the reference to [data_resids]. *)
Definition initialize_template (c : t) (data_xs data_ys data_ivars : loc)
    : M (t * loc) :=
  xs ← np.deref data_xs;
  ys ← np.deref data_ys;
  ivars ← np.deref data_ivars;
  shifted_xs ← lift (np.binop2 Qplus xs (log_doppler (starting_rvs c)));
  grid ← lift (match template_xs c with
               | None => default_template_xs shifted_xs
               | Some g => Ok g
               end);
  let '(template_xs, template_ys) := bin_data shifted_xs ys ivars grid in
  let c := set_template template_xs template_ys c in
  let rows := length (starting_rvs c) in
  let full_template := replicate rows template_ys in
  cf ← lift (if (0 <? K c)%nat then
               resids ← mapR (resids_row template_xs template_ys shifted_xs ys)
                             (seq 0 rows);
               let '(u, s, v) := svd resids in
               let basis_vectors := take (K c) v in
               basis_weights ← np.binop2 Qmult (take (K c) <$> u)
                                               [take (K c) s];
               prod ← np.dot2 basis_weights basis_vectors;
               full_template ← np.iop2 Qplus full_template prod;
               Ok (set_basis basis_vectors basis_weights c, full_template)
             else Ok (c, full_template));
  let '(c, full_template) := cf in
  data_resids ← np.copy data_ys;
  _ ← for_each (seq 0 rows) (fun n =>
        sx ← lift (np.index shifted_xs n);
        ft ← lift (np.index full_template n);
        v ← lift (np_interp_checked sx template_xs ft);
        np.isub_row data_resids n v);
  mret (c, data_resids).

End WithNumerics.
End Component.

(** ** TensorFlow, Results and History *)

(** The variable a [minimize] operation updates. *)
Inductive block : Set := Template | Rvs | BasisVectors | BasisWeights.

(** [tf.train.AdamOptimizer(learning_rate).minimize(self.nll, var_list=[v])]
    for the variable [v] of block [op_block] of component [op_component]. *)
Record minimize_op : Type := mkOp {
  op_learning_rate : Q;
  op_component : nat;
  op_block : block
}.

Class Runtime : Type := mkRuntime {
  (** the Results aggregator *)
  Results : Type;
  results_component_names : Results -> list string;
  results_add_component : Component.t -> Results -> Results;
  (** [results.update(c)]; it reads the variables of [c] in the session *)
  results_update : Component.t -> list Vars.t -> Results -> Results;
  (** the slots of one Adam optimiser, and their value after
      [tf.global_variables_initializer()] *)
  Slots : Type;
  slots_init : Slots;
  (** the [feed_dict] argument of [optimize] *)
  Feed : Type;
  (** one run of a [minimize] operation: the proposed values of the
      variables of the component it belongs to, of which the session
      overwrites the block in [var_list], and the optimiser's new slots *)
  adam : Q -> (list Vars.t -> Q) -> nat -> block -> option Feed -> Slots ->
         list Vars.t -> Vars.t * Slots;
  (** [tf.gradients(loss, c.rvs)[0]] for component number [i], evaluated
      at the given values of the variables *)
  gradients : (list Vars.t -> Q) -> nat -> list Vars.t -> vec
}.

(** ** Model *)

Module Model.
Section WithCollaborators.
Context `{Numerics} `{Runtime}.

Record t : Type := mk {
  components : list Component.t;
  component_names : list string;
  data : Data.t;
  results : Results;
  r : nat;
  order : nat;
  (* what [setup] builds *)
  synth : option (list Vars.t -> mat);
  nll : option (list Vars.t -> Q);
  updates : option (list minimize_op);
  (* the session: the values of the variables, component by component,
     and the slots of the optimisers, operation by operation *)
  session : list Vars.t;
  slots : list Slots
}.

Definition set_components (cs : list Component.t) (m : t) : t :=
  let 'mk _ a b d e f g h i j k := m in mk cs a b d e f g h i j k.

(** [Model.__init__] *)
Definition init (data : Data.t) (results : Results) (r : nat) : result t :=
  order ← np.index (Data.orders data) r;
  Ok (mk [] [] data results r order None None None [] []).

(** [np.isin(name, names)] *)
Definition isin (name : string) (names : list string) : bool :=
  existsb (String.eqb name) names.

(** [Model.add_component] *)
Definition add_component (m : t) (name : string) (starting_rvs : vec)
    (kw : Kwargs.t) : M t :=
  if isin name (component_names m) then
    _ ← print (MsgDuplicateName name);
    mret m
  else
    c ← Component.init name (r m) starting_rvs kw;
    let 'mk cs names d res r o sy nl up se sl := m in
    let cs := cs ++ [c] in
    let names := names ++ [name] in
    let res := if negb (isin name (results_component_names res))
               then results_add_component c res else res in
    mret (mk cs names d res r o sy nl up se sl).

(** [np.mean] *)
Definition mean (v : vec) : Q := np.sum v / inject_Z (Z.of_nat (length v)).

(** [Model.add_star] *)
Definition add_star (m : t) (name : string) (starting_rvs : option vec)
    (kw : Kwargs.t) : M t :=
  let starting_rvs :=
    match starting_rvs with
    | None =>
        let bervs := Data.bervs (data m) in
        (fun b => -1 * b + mean bervs) <$> bervs
    | Some v => v
    end in
  add_component m name starting_rvs kw.

(** [Model.add_telluric] *)
Definition add_telluric (m : t) (name : string) (starting_rvs : option vec)
    (kw : Kwargs.t) : M t :=
  let starting_rvs :=
    match starting_rvs with
    | None => np.zeros (Data.N (data m))
    | Some v => v
    end in
  let 'Kwargs.mk f a b d e g lr lt lb fixed vb airmass txs := kw in
  let kw := Kwargs.mk f a b d e g lr
              (Some (default (1 # 10) lt)) lb
              (Some (default true fixed)) vb
              (Some (default true airmass)) txs in
  add_component m name starting_rvs kw.

(** The loop of [initialize_templates]:
    [for c in components: data_ys = c.initialize_template(...)]. *)
Fixpoint init_loop (cs : list Component.t) (data_xs data_ys data_ivars : loc)
    : M (list Component.t * loc) :=
  match cs with
  | [] => mret ([], data_ys)
  | c :: cs' =>
      cl ← Component.initialize_template c data_xs data_ys data_ivars;
      rest ← init_loop cs' data_xs cl.2 data_ivars;
      mret (cl.1 :: rest.1, rest.2)
  end.

(** [Model.initialize_templates] *)
Definition initialize_templates (m : t) : M t :=
  data_xs ← lift (np.index (Data.xs (data m)) (r m));
  ly ← lift (np.index (Data.ys (data m)) (r m));
  data_ys ← np.copy ly;
  data_ivars ← lift (np.index (Data.ivars (data m)) (r m));
  cl ← init_loop (components m) data_xs data_ys data_ivars;
  mret (set_components cl.1 m).

(** [for c in components: c.setup(data, r)] *)
Fixpoint setup_loop (cs : list Component.t) (data : Data.t) (r : nat)
    : M (list Component.t) :=
  match cs with
  | [] => mret []
  | c :: cs' =>
      c' ← Component.setup c data r;
      rest ← setup_loop cs' data r;
      mret (c' :: rest)
  end.

(** The tensor additions of [setup]: [self.synth += c.synth] and
    [self.nll += c.nll], each component's tensor reading its own
    variables. *)
Definition add_synths (tensors : list (Vars.t -> mat)) (zero : mat)
    (vars : list Vars.t) : mat :=
  foldl (fun acc sv => np.bcast (np.bcast Qplus) acc (sv.1 sv.2)) zero
        (zip tensors vars).

Definition add_nlls (tensors : list (Vars.t -> Q)) (misfit : Q)
    (vars : list Vars.t) : Q :=
  foldl (fun acc sv => acc + sv.1 sv.2) misfit (zip tensors vars).

(** [0.5 * tf.reduce_sum(tf.square(ys - synth) * ivars)] *)
Definition misfit (ys ivars synth : mat) : Q :=
  (1 # 2) * np.sum2
    (np.bcast (np.bcast Qmult)
       ((fun row : vec => (fun d => d ^ 2) <$> row)
          <$> np.bcast (np.bcast Qminus) ys synth)
       ivars).

(** The optimisers [setup] creates for component number [i]. *)
Definition optimizers (i : nat) (c : Component.t) : list minimize_op :=
  [mkOp (Component.learning_rate_template c) i Template]
  ++ (if negb (Component.rvs_fixed c)
      then [mkOp (Component.learning_rate_rvs c) i Rvs] else [])
  ++ (if (0 <? Component.K c)%nat
      then [mkOp (Component.learning_rate_basis c) i BasisVectors;
            mkOp (Component.learning_rate_basis c) i BasisWeights]
      else []).

(** [Model.setup] *)
Definition setup (m : t) : M t :=
  m ← initialize_templates m;
  lx ← lift (np.index (Data.xs (data m)) (r m));
  data_xs ← np.deref lx;
  let zero := np.zeros2 (length data_xs) (np.ncols data_xs) in
  cs ← setup_loop (components m) (data m) (r m);
  synths ← lift (mapR (fun c => Component.attr (Component.synth c)) cs);
  let synth := add_synths synths zero in
  ly ← lift (np.index (Data.ys (data m)) (r m));
  data_ys ← np.deref ly;
  li ← lift (np.index (Data.ivars (data m)) (r m));
  data_ivars ← np.deref li;
  nlls ← lift (mapR (fun c => Component.attr (Component.nll c)) cs);
  let nll := fun vars =>
    add_nlls nlls (misfit data_ys data_ivars (synth vars)) vars in
  let updates := concat (imap optimizers cs) in
  vars ← lift (mapR Component.initial_vars cs);
  let 'mk _ names d res r o _ _ _ _ _ := m in
  mret (mk cs names d res r o (Some synth) (Some nll) (Some updates)
           vars (replicate (length updates) slots_init)).

(** The assignment a [minimize] operation makes: only the variable in its
    [var_list] changes. *)
Definition write_block (b : block) (new old : Vars.t) : Vars.t :=
  match b with
  | Template =>
      Vars.mk (Vars.rvs old) (Vars.template_ys new)
              (Vars.basis_vectors old) (Vars.basis_weights old)
  | Rvs =>
      Vars.mk (Vars.rvs new) (Vars.template_ys old)
              (Vars.basis_vectors old) (Vars.basis_weights old)
  | BasisVectors =>
      Vars.mk (Vars.rvs old) (Vars.template_ys old)
              (Vars.basis_vectors new) (Vars.basis_weights old)
  | BasisWeights =>
      Vars.mk (Vars.rvs old) (Vars.template_ys old)
              (Vars.basis_vectors old) (Vars.basis_weights new)
  end.

(** [session.run(self.updates, feed_dict=feed_dict)]: every operation
    runs once, here in the order of the list. *)
Definition run_op (loss : list Vars.t -> Q) (feed : option Feed)
    (vars : list Vars.t) (os : minimize_op * Slots)
    : list Vars.t * Slots :=
  let '(op, s) := os in
  let '(new, s') := adam (op_learning_rate op) loss (op_component op)
                         (op_block op) feed s vars in
  (alter (write_block (op_block op) new) (op_component op) vars, s').

Fixpoint run_updates (loss : list Vars.t -> Q) (feed : option Feed)
    (ops : list (minimize_op * Slots)) (vars : list Vars.t)
    : list Vars.t * list Slots :=
  match ops with
  | [] => (vars, [])
  | os :: ops' =>
      let '(vars', s') := run_op loss feed vars os in
      let '(vars'', ss) := run_updates loss feed ops' vars' in
      (vars'', s' :: ss)
  end.

(** [for i in range(niter): session.run(self.updates, ...)] *)
Fixpoint iterations (niter : nat) (loss : list Vars.t -> Q)
    (feed : option Feed) (ops : list minimize_op)
    (st : list Vars.t * list Slots) : list Vars.t * list Slots :=
  match niter with
  | O => st
  | S k => iterations k loss feed ops
             (run_updates loss feed (zip ops st.2) st.1)
  end.

(** [feed_dict={c.rvs: v}] for component number [i]. *)
Definition feed_rvs (i : nat) (v : vec) (vars : list Vars.t) : list Vars.t :=
  alter (fun old => Vars.mk v (Vars.template_ys old)
                            (Vars.basis_vectors old) (Vars.basis_weights old))
        i vars.

Definition N_grid : nat := 20.

(** [rvs_grid = np.tile(best_rvs, (N_grid,1))] followed by
    [rvs_grid[:,n] += np.linspace(-50., 50., N_grid)]. *)
Definition rvs_grid (best_rvs : vec) (n : nat) : result mat :=
  mapR (fun rd : vec * Q =>
          x ← np.index rd.1 n;
          Ok (<[n := x + rd.2]> rd.1))
       (zip (np.tile best_rvs N_grid) (np.linspace (-50) 50 N_grid)).

(** One pass of the loop over epochs in [estimate_uncertainties], up to
    the value stored in [c.ivars_rvs[n]]. *)
Definition ivar_rv (loss : list Vars.t -> Q) (i : nat) (vars : list Vars.t)
    (best_rvs : vec) (n : nat) : result Q :=
  grid ← rvs_grid best_rvs n;
  dnll_dv_grid ← mapR (fun v => np.index (gradients loss i (feed_rvs i v vars)) n)
                      grid;
  column ← mapR (fun v : vec => np.index v n) grid;
  best ← np.index best_rvs n;
  let A := (fun x => x - best) <$> column in
  let ATA := np.dot A A in
  let ATy := np.dot A dnll_dv_grid in
  Ok (ATy / ATA).

(** [for n in range(N): ... c.ivars_rvs[n] = ATy / ATA] *)
Fixpoint epochs_loop (loss : list Vars.t -> Q) (i : nat) (vars : list Vars.t)
    (best_rvs : vec) (epochs : list nat) (ivars_rvs : vec) : result vec :=
  match epochs with
  | [] => Ok ivars_rvs
  | n :: epochs' =>
      x ← ivar_rv loss i vars best_rvs n;
      _ ← np.index ivars_rvs n;
      epochs_loop loss i vars best_rvs epochs' (<[n := x]> ivars_rvs)
  end.

(** The body of the loop over components in [estimate_uncertainties];
    [session.run(c.rvs)] needs the variable [setup] creates, and
    [c.dnll_dv] the gradient tensor [setup] builds from [self.nll]. *)
Definition estimate_component (nll : option (list Vars.t -> Q))
    (vars : list Vars.t) (N : nat) (verbose : bool) (i : nat)
    (c : Component.t) : M Component.t :=
  v ← lift (Component.attr (vars !! i));
  let best_rvs := Vars.rvs v in
  let c := Component.set_ivars_rvs (np.zeros (length best_rvs)) c in
  if negb (Component.rvs_fixed c) then
    _ ← (if verbose then print MsgUncertainties else mret tt);
    ivars_rvs ← lift (match N with
                      | O => Ok (np.zeros (length best_rvs))
                      | S _ =>
                          loss ← Component.attr nll;
                          epochs_loop loss i vars best_rvs (seq 0 N)
                                      (np.zeros (length best_rvs))
                      end);
    mret (Component.set_ivars_rvs ivars_rvs c)
  else mret c.

Fixpoint estimate_loop (nll : option (list Vars.t -> Q)) (vars : list Vars.t)
    (N : nat) (verbose : bool) (i : nat) (cs : list Component.t)
    : M (list Component.t) :=
  match cs with
  | [] => mret []
  | c :: cs' =>
      c' ← estimate_component nll vars N verbose i c;
      rest ← estimate_loop nll vars N verbose (S i) cs';
      mret (c' :: rest)
  end.

(** [Model.estimate_uncertainties] *)
Definition estimate_uncertainties (m : t) (verbose : bool) : M t :=
  cs ← estimate_loop (nll m) (session m) (Data.N (data m)) verbose 0
                     (components m);
  mret (set_components cs m).

(** [Model.optimize]. The History object of [save_history=True] is written
    to and plotted from, and read by nothing else; tqdm draws on stderr:
    neither is part of the state. *)
Definition optimize (m : t) (niter : nat) (save_history : bool)
    (basename : string) (feed_dict : option Feed) (verbose : bool) : M t :=
  _ ← (if verbose then print (MsgOptimizeIterating niter) else mret tt);
  st ← lift (match niter with
             | O => Ok (session m, slots m)
             | S _ =>
                 ops ← Component.attr (updates m);
                 loss ← Component.attr (nll m);
                 Ok (iterations niter loss feed_dict ops (session m, slots m))
             end);
  let 'mk cs names d res r o sy nl up _ _ := m in
  m ← estimate_uncertainties (mk cs names d res r o sy nl up st.1 st.2) verbose;
  let 'mk cs names d res r o sy nl up se sl := m in
  let res := foldl (fun res c => results_update c se res) res cs in
  mret (mk cs names d res r o sy nl up se sl).

End WithCollaborators.
End Model.

(** ** Notions used in the statements *)

Section Notions.
Context `{Numerics} `{Runtime}.

(** What [setattr] on a regularisation parameter leaves alone. *)
Definition identity_of (c : Component.t) : string * nat * nat * vec :=
  (Component.name c, Component.r c, Component.N c, Component.starting_rvs c).

(** The arguments of one call of [optimize]. *)
Record call : Type := mkCall {
  niter : nat;
  save_history : bool;
  basename : string;
  feed_dict : option Feed;
  verbose : bool
}.

(** One call of [optimize] after the other on the same model. *)
Definition optimize_calls (calls : list call) (m : Model.t) : M Model.t :=
  for_fold calls
    (fun m k => Model.optimize m (niter k) (save_history k) (basename k)
                               (feed_dict k) (verbose k))
    m.

(** Between calls, the RVs variable of a component with fixed RVs holds
    the starting RVs, and no operation of [updates] assigns to it. *)
Definition fixed_rvs_kept (m : Model.t) : Prop :=
  forall i c,
    Model.components m !! i = Some c -> Component.rvs_fixed c = true ->
    (exists v, Model.session m !! i = Some v
               /\ Vars.rvs v = Component.starting_rvs c)
    /\ forall ops op,
         Model.updates m = Some ops -> In op ops ->
         op_component op = i -> op_block op <> Rvs.

(** The perturbations of one RV: 20 values from -50 to 50. *)
Definition window : vec := np.linspace (-50) 50 20.

(** The slope of the least-squares line through the origin for the points
    [(A_g, y_g)]. *)
Definition slope_through_origin (A y : vec) : Q := np.dot A y / np.dot A A.

(** A run of [x] leaves the arrays behind the references in [P] as they
    were, whether it returns or raises. *)
Definition keeps {A} (P : nat -> Prop) (x : M A) : Prop :=
  forall w l a, P l -> heap w !! l = Some a -> heap (x w).2 !! l = Some a.

(** The full template of an initialised component, from its attributes:
    the base template for every epoch, plus the basis correction
    [basis_weights . basis_vectors] when [K > 0]. *)
Definition full_template (c : Component.t) : result mat :=
  tys ← Component.attr (Component.template_ys c);
  let base := replicate (length (Component.starting_rvs c)) tys in
  if (0 <? Component.K c)%nat then
    bv ← Component.attr (Component.basis_vectors c);
    bw ← Component.attr (Component.basis_weights c);
    prod ← np.dot2 bw bv;
    np.iop2 Qplus base prod
  else Ok base.

(** The data coordinates of each epoch in the rest frame of [c]. *)
Definition shifted_xs (c : Component.t) (data_xs : mat) : result mat :=
  np.binop2 Qplus data_xs (Component.log_doppler (Component.starting_rvs c)).

(** [d'] is [d] minus the full template of [c], interpolated for each
    epoch onto the coordinates of that epoch. *)
Definition is_residual (c : Component.t) (data_xs d d' : mat) : Prop :=
  exists txs shifted ft,
    Component.template_xs c = Some txs
    /\ shifted_xs c data_xs = Ok shifted
    /\ full_template c = Ok ft
    /\ length d' = length d
    /\ forall n row, d !! n = Some row ->
         exists sx ftn,
           shifted !! n = Some sx /\ ft !! n = Some ftn
           /\ d' !! n = Some (np.bcast Qminus row (np_interp sx txs ftn)).

(** [c'] is what [initialize_template] makes of [c] when it is handed the
    data [d] (with the wavelengths [data_xs]), and [d'] is the array it
    returns. *)
Definition initialises (c : Component.t) (data_xs d : mat)
    (c' : Component.t) (d' : mat) : Prop :=
  exists lx ly li w l' w',
    heap w !! lx = Some data_xs /\ heap w !! ly = Some d
    /\ Component.initialize_template c lx ly li w = (Ok (c', l'), w')
    /\ heap w' !! l' = Some d'.

(** The grid has a uniform spacing [step], starts at [first] and ends at
    [last_]. *)
Definition uniform_grid (g : vec) (step first last_ : Q) : Prop :=
  head g = Some first /\ last g = Some last_
  /\ (forall i x y, g !! i = Some x -> g !! S i = Some y -> y - x == step)
  /\ Forall (fun x => first <= x /\ x <= last_) g.

(** The coordinates of one epoch, shifted by the logarithm of the Doppler
    factor of that epoch's RV. *)
Definition shifted_row (xrow : vec) (rv : Q) : vec :=
  (fun x => x + log (doppler rv)) <$> xrow.

(** The template of epoch [n]: [template_ys] when [K = 0], and
    [template_ys + (basis_weights . basis_vectors)[n]] otherwise. *)
Definition epoch_template (K : nat) (v : Vars.t) (n : nat) : option vec :=
  if (K =? 0)%nat then Some (Vars.template_ys v)
  else np.bcast Qplus (Vars.template_ys v)
         <$> np.matmul (Vars.basis_weights v) (Vars.basis_vectors v) !! n.

(** Entry [(n, j)] of a two-dimensional array. *)
Definition entry (a : mat) (n j : nat) : Q := nth j (nth n a []) 0.

(** The sum of [f i] over [0 <= i < k]. *)
Definition Sum (k : nat) (f : nat -> Q) : Q := np.sum (f <$> seq 0 k).

(** [a] has [N] rows of [M] entries. *)
Definition has_shape (N M : nat) (a : mat) : Prop :=
  length a = N /\ Forall (fun row => length row = M) a.

(** The regularisation term of a component at the values [v] of its
    variables, with the weights the component holds as attributes. *)
Definition regularization (c : Component.t) (v : Vars.t) : Q :=
  let par := fun name => default 0 (Component.attrs c !! name) in
  let abs2 := fun a : mat => np.sum2 ((fun row : vec => Qabs <$> row) <$> a) in
  let sq2 := fun a : mat =>
    np.sum2 ((fun row : vec => (fun y => y ^ 2) <$> row) <$> a) in
  par "L1_template" * np.sum (Qabs <$> Vars.template_ys v)
  + par "L2_template" * np.sum ((fun y => y ^ 2) <$> Vars.template_ys v)
  + (if (0 <? Component.K c)%nat then
       par "L1_basis_vectors" * abs2 (Vars.basis_vectors v)
       + par "L2_basis_vectors" * sq2 (Vars.basis_vectors v)
       + par "L2_basis_weights" * sq2 (Vars.basis_weights v)
     else 0).


(** The attributes [__init__] takes from the keywords other than the
    regularisation parameters. *)
Definition config_of (c : Component.t)
    : nat * bool * bool * (Q * Q * Q) * option vec * list string :=
  (Component.K c, Component.rvs_fixed c, Component.scale_by_airmass c,
   (Component.learning_rate_rvs c, Component.learning_rate_template c,
    Component.learning_rate_basis c),
   Component.template_xs c, Component.regularization_par c).

(** The names of the regularisation parameters of a component with [K]
    basis vectors. *)
Definition parameter_names (K : nat) : list string :=
  if (0 <? K)%nat
  then ["L1_template"; "L2_template"; "L1_basis_vectors"; "L2_basis_vectors";
        "L2_basis_weights"]
  else ["L1_template"; "L2_template"].

(** The component [__init__] builds from the keywords, before it looks at
    the regularisation file. *)
Definition from_keywords (name : string) (r : nat) (starting_rvs : vec)
    (kw : Kwargs.t) : Component.t :=
  let K := default 0%nat (Kwargs.variable_bases kw) in
  foldl (fun c par => Component.setattr par (Component.eval kw par) c)
    (Component.mk name r K (length starting_rvs)
       (default false (Kwargs.rvs_fixed kw))
       (default false (Kwargs.scale_by_airmass kw))
       (default 10 (Kwargs.learning_rate_rvs kw))
       (default (1 # 100) (Kwargs.learning_rate_template kw))
       (default (1 # 100) (Kwargs.learning_rate_basis kw))
       (parameter_names K) ∅ starting_rvs (Kwargs.template_xs kw)
       None None None None None None)
    (parameter_names K).

(** The names of the model are those of its components, in order. *)
Definition names_in_sync (m : Model.t) : Prop :=
  Model.component_names m = Component.name <$> Model.components m.

(** Whether [setup] creates an optimiser for a block of a component. *)
Definition has_optimizer (c : Component.t) (b : block) : Prop :=
  match b with
  | Template => True
  | Rvs => Component.rvs_fixed c = false
  | BasisVectors | BasisWeights => (0 < Component.K c)%nat
  end.

(** The arguments of one call of [add_component]. *)
Record addition : Type := mkAddition {
  add_name : string;
  add_rvs : vec;
  add_kw : Kwargs.t
}.

(** One call of [add_component] after the other. *)
Definition add_components (adds : list addition) (m : Model.t) : M Model.t :=
  for_fold adds
    (fun m a => Model.add_component m (add_name a) (add_rvs a) (add_kw a)) m.

(** A run of [x] leaves the store as it was, whether it returns or
    raises. *)
Definition store_untouched {A} (x : M A) : Prop :=
  forall w, heap (x w).2 = heap w.

(** Every entry of a two-dimensional array is non-negative. *)
Definition nonnegative (a : mat) : Prop :=
  Forall (Forall (fun x => 0 <= x)) a.

(** Every regularisation amplitude the component holds is non-negative. *)
Definition amplitudes_nonnegative (c : Component.t) : Prop :=
  forall par x, Component.attrs c !! par = Some x -> 0 <= x.

End Notions.

(** ** A small executable instance of the collaborators

    Rational stand-ins on which the engine can be run: an increasing
    affine function for the logarithm, an affine Doppler factor,
    piecewise-linear interpolation, a binning that returns the mean flux on
    the grid it is given, a rank-one factorisation in the shape of a thin
    SVD, a fixed-step optimiser and central differences for gradients.
    Their results are reduced fractions, which keeps evaluation fast. *)

Module Toy.

Definition log (x : Q) : Q := Qred (100 * (x - 6000)).
Definition doppler (v : Q) : Q := Qred (6000 + v / 100).

(** Linear interpolation of [(xp, fp)] at [x], constant outside the
    range of [xp]. *)
Fixpoint interp_at (x : Q) (xp fp : vec) : Q :=
  match xp, fp with
  | x0 :: xp', f0 :: fp' =>
      match xp', fp' with
      | x1 :: _, f1 :: _ =>
          if Qle_bool x x0 then f0
          else if Qle_bool x x1
               then f0 + (x - x0) * (f1 - f0) / (x1 - x0)
               else interp_at x xp' fp'
      | _, _ => f0
      end
  | _, _ => 0
  end.

Definition interp (x xp fp : vec) : vec :=
  (fun t => Qred (interp_at t xp fp)) <$> x.

Definition bin_data (xs ys ivars : mat) (grid : vec) : vec * vec :=
  let n := length (concat ys) in
  (grid, replicate (length grid)
                   (Qred (np.sum (concat ys) / inject_Z (Z.of_nat n)))).

Definition svd (a : mat) : mat * vec * mat :=
  ((fun _ => [1]) <$> a, [1], [default [] (head a)]).

#[export] Instance numerics : Numerics :=
  mkNumerics doppler log bin_data interp interp svd.

(** A fixed step of size [lr] on every entry. *)
Definition adam (lr : Q) (loss : list Vars.t -> Q) (i : nat) (b : block)
    (feed : option unit) (s : nat) (vars : list Vars.t) : Vars.t * nat :=
  let step := fun x => Qred (x - lr) in
  let v := default (Vars.mk [] [] [] []) (vars !! i) in
  (Vars.mk (step <$> Vars.rvs v) (step <$> Vars.template_ys v)
           ((fun row : vec => step <$> row) <$> Vars.basis_vectors v)
           ((fun row : vec => step <$> row) <$> Vars.basis_weights v),
   S s).

Definition shift_rv (i n : nat) (d : Q) (vars : list Vars.t) : list Vars.t :=
  alter (fun v => Vars.mk (alter (fun x => Qred (x + d)) n (Vars.rvs v))
                          (Vars.template_ys v)
                          (Vars.basis_vectors v) (Vars.basis_weights v))
        i vars.

Definition gradients (loss : list Vars.t -> Q) (i : nat)
    (vars : list Vars.t) : vec :=
  let v := default (Vars.mk [] [] [] []) (vars !! i) in
  (fun n => Qred ((loss (shift_rv i n 1 vars)
                   - loss (shift_rv i n (-1) vars)) / 2))
    <$> seq 0 (length (Vars.rvs v)).

(** Results that remember the names they were given and the last values
    pushed for each. *)
Definition results : Type := list string * list (string * list Vars.t).

#[export] Instance runtime : Runtime :=
  mkRuntime results fst
    (fun c res => (res.1 ++ [Component.name c], res.2))
    (fun c vars res => (res.1, (Component.name c, vars) :: res.2))
    nat 0%nat unit adam gradients.

(** Two epochs of three pixels, one order. *)
Definition data_xs : mat := [[0; 2; 4]; [0; 2; 4]].
Definition data_ys : mat := [[1; 2; 3]; [3; 2; 1]].
Definition data_ivars : mat := [[1; 1; 1]; [1; 1; 2]].

Definition world : World :=
  mkWorld (<[0%nat := data_xs]> (<[1%nat := data_ys]> (<[2%nat := data_ivars]> ∅)))
          [].

Definition data : Data.t :=
  Data.mk [7%nat] 2 [0%nat] [1%nat] [2%nat] [10; -10] [2; 3].

Definition model : Model.t := Model.mk [] [] data ([], []) 0 7 None None None [] [].

Definition blank : Component.t :=
  Component.mk "" 0 0 0 false false 0 0 0 [] ∅ [] None None None None None
               None None.

(** The model with a star and a telluric component added. *)
Definition added : Model.t * World := Eval vm_compute in
  match (m ← Model.add_component model "star" [10; -10] Kwargs.empty;
         Model.add_telluric m "tellurics" None Kwargs.empty) world with
  | (Ok m, w) => (m, w)
  | (Raise _, w) => (model, w)
  end.

Definition star : Component.t := Eval vm_compute in
  default blank (Model.components added.1 !! 0%nat).

Definition initialised : Model.t * World := Eval vm_compute in
  match Model.initialize_templates added.1 added.2 with
  | (Ok m, w) => (m, w)
  | (Raise _, w) => (added.1, w)
  end.

Definition star_run : result (Component.t * nat) * World :=
  Component.initialize_template star 0%nat 1%nat 2%nat added.2.

(** The same model once [setup] has run, after [optimize(0)] and after
    [optimize(1)] followed by [optimize(0)]. *)
Definition ready : Model.t * World :=
  let x := Model.setup added.1 added.2 in (returned added.1 x, x.2).

Definition zero_iterations : result Model.t * World :=
  Model.optimize ready.1 0 false "wobble" None true ready.2.

Definition two_calls : list call :=
  [mkCall 1 false "wobble" None false; mkCall 0 false "wobble" None false].

Definition optimized : result Model.t * World :=
  optimize_calls two_calls ready.1 ready.2.

(** A model with a telluric component only, added and initialised. *)
Definition sky_start : Model.t * World := Eval vm_compute in
  match Model.add_telluric model "tellurics" None Kwargs.empty world with
  | (Ok m, w) => (m, w)
  | (Raise _, w) => (model, w)
  end.

Definition sky_telluric0 : Component.t := Eval vm_compute in
  default blank (Model.components sky_start.1 !! 0%nat).

Definition sky : Model.t * World := Eval vm_compute in
  match Model.initialize_templates sky_start.1 sky_start.2 with
  | (Ok m, w) => (m, w)
  | (Raise _, w) => (model, w)
  end.

Definition sky_telluric : Component.t := Eval vm_compute in
  default blank (Model.components sky.1 !! 0%nat).

Definition sky_setup : result Component.t * World :=
  Component.setup sky_telluric data 0 sky.2.

Definition sky_vars : Vars.t := Eval vm_compute in
  returned (Vars.mk [] [] [] []) (Component.initial_vars sky_telluric, sky.2).

(** A regularisation file with both template parameters for order 0, and
    one that lacks [L2_template]. *)
Definition reg_file : gmap string vec :=
  <["L1_template" := [3]]> (<["L2_template" := [4]]> ∅).

Definition reg_file_short : gmap string vec := <["L1_template" := [3]]> ∅.

Definition from_file (f : gmap string vec) : Kwargs.t :=
  Kwargs.mk (Some ("reg.hdf5", Some f)) None None None None None None None
            None None None None None.

Definition one_star : list addition :=
  [mkAddition "star" [10; -10] Kwargs.empty].

(** A star with a single RV for the two epochs, added and set up. *)
Definition lone_added : Model.t * World := Eval vm_compute in
  match Model.add_component model "star" [0] Kwargs.empty world with
  | (Ok m, w) => (m, w)
  | (Raise _, w) => (model, w)
  end.

Definition lone : Model.t * World :=
  let x := Model.setup lone_added.1 lone_added.2 in
  (returned lone_added.1 x, x.2).

(** A component with three RVs. *)
Definition crowded : Component.t := Eval vm_compute in
  returned blank (Component.init "star" 0 [0; 0; 0] Kwargs.empty world).

(** A model whose objective is a parabola in the RV of epoch 0 of its
    only component, with its minimum at 1. *)
Definition parabola (vars : list Vars.t) : Q :=
  let v := default (Vars.mk [] [] [] []) (vars !! 0%nat) in
  Qred ((nth 0 (Vars.rvs v) 0 - 1) ^ 2).

Definition bowl : Model.t :=
  Model.mk [star] ["star"] data ([], []) 0 7 None (Some parabola) (Some [])
           [Vars.mk [0; 0] [] [] []] [].

Definition bowl_run : result Model.t * World :=
  Model.optimize bowl 0 false "wobble" None false world.

End Toy.

(** * Properties *)

(** ** Running the monad *)

Lemma bind_ok {A B} (x : M A) (f : A -> M B) w b w' :
  (x ≫= f) w = (Ok b, w') ->
  exists a w1, x w = (Ok a, w1) /\ f a w1 = (Ok b, w').
Proof.
  unfold mbind, M_bind. destruct (x w) as [[a|e] w1]; [eauto | discriminate].
Qed.

Lemma bindR_ok {A B} (x : result A) (f : A -> result B) b :
  x ≫= f = Ok b -> exists a, x = Ok a /\ f a = Ok b.
Proof. destruct x; simpl; [eauto | discriminate]. Qed.

Lemma lift_ok {A} (x : result A) w a w' :
  lift x w = (Ok a, w') -> x = Ok a /\ w' = w.
Proof. unfold lift. intros [= -> ->]. auto. Qed.

Lemma ret_ok {A} (a b : A) w w' :
  (mret a : M A) w = (Ok b, w') -> b = a /\ w' = w.
Proof. unfold mret, M_ret. intros [= -> ->]. auto. Qed.

Lemma succeeds_returned {A} (d : A) (x : result A * World) :
  succeeds x = true -> x = (Ok (returned d x), x.2).
Proof. destruct x as [[a|e] w]; [reflexivity | discriminate]. Qed.

Lemma lookup_default {A} (d : A) (l : list A) i :
  (i < length l)%nat -> l !! i = Some (default d (l !! i)).
Proof.
  intros Hi. destruct (lookup_lt_is_Some_2 l i Hi) as [x ->]. reflexivity.
Qed.

Lemma attr_ok {A} (o : option A) a : Component.attr o = Ok a -> o = Some a.
Proof. destruct o; simpl; congruence. Qed.

Lemma index_ok {A} (l : list A) n a : np.index l n = Ok a -> l !! n = Some a.
Proof. unfold np.index. destruct (l !! n); congruence. Qed.

Lemma mapR_ok {A B} (f : A -> result B) l bs :
  mapR f l = Ok bs -> Forall2 (fun a b => f a = Ok b) l bs.
Proof.
  revert bs. induction l as [|a l IH]; simpl; intros bs E.
  - injection E as <-. constructor.
  - destruct (f a) as [b|] eqn:Ea; [|discriminate].
    destruct (mapR f l) as [bs'|]; [|discriminate].
    injection E as <-. constructor; auto.
Qed.

(** Take a successful run apart, one bind at a time. *)
Ltac run_inv H :=
  lazymatch type of H with
  | (_ ≫= _) _ = (Ok _, _) =>
      let a := fresh "a" in let w := fresh "w" in
      let H1 := fresh "Hrun" in
      apply bind_ok in H as (a & w & H1 & H); cbv beta in H;
      run_inv H1; run_inv H
  | lift _ _ = (Ok _, _) =>
      let E := fresh "E" in apply lift_ok in H as [H E]; subst
  | mret _ _ = (Ok _, _) =>
      let E := fresh "E" in apply ret_ok in H as [H E]; subst
  | _ => idtac
  end.

(** ** Adding components *)

Lemma setattr_identity par v c :
  identity_of (Component.setattr par v c) = identity_of c.
Proof. destruct c. reflexivity. Qed.

Lemma foldl_setattr_identity (f : string -> Q) pars c :
  identity_of (foldl (fun c par => Component.setattr par (f par) c) c pars)
  = identity_of c.
Proof.
  revert c. induction pars as [|p pars IH]; intros c; simpl; [reflexivity|].
  rewrite IH. apply setattr_identity.
Qed.

Lemma load_regularization_identity f r pars c :
  identity_of (Component.load_regularization f r pars c).1 = identity_of c.
Proof.
  revert c. induction pars as [|p pars IH]; intros c; simpl; [reflexivity|].
  destruct (f !! p) as [ds|]; [|reflexivity].
  destruct (ds !! r); [|reflexivity].
  rewrite IH. apply setattr_identity.
Qed.

Lemma init_returns name r rvs kw w :
  exists c w',
    Component.init name r rvs kw w = (Ok c, w')
    /\ heap w' = heap w
    /\ identity_of c = (name, r, length rvs, rvs).
Proof.
  unfold Component.init.
  set (pars := if (0 <? _)%nat then _ else _).
  set (c0 := foldl _ _ pars).
  assert (E0 : identity_of c0 = (name, r, length rvs, rvs)).
  { unfold c0. rewrite foldl_setattr_identity. reflexivity. }
  destruct (Kwargs.regularization_par_file kw) as [[file [f|]]|].
  - pose proof (load_regularization_identity f r pars c0) as E.
    destruct (Component.load_regularization f r pars c0) as [c' []];
      simpl in E; rewrite E0 in E; eauto.
  - eauto.
  - eauto.
Qed.

Section Adding.
Context `{Numerics} `{Runtime}.

Lemma isin_In name names : Model.isin name names = true <-> In name names.
Proof.
  unfold Model.isin. rewrite existsb_exists. split.
  - intros (x & Hx & E). apply String.eqb_eq in E. congruence.
  - intros Hin. exists name. split; [assumption | apply String.eqb_refl].
Qed.

(** C7. Adding a component under a name the model already has changes
    nothing: the call returns normally with the model as it was (its
    components, its component names and its Results), having printed the
    warning and left the store alone. *)
Theorem add_component_duplicate_is_noop (m : Model.t) name starting_rvs kw w :
  In name (Model.component_names m) ->
  Model.add_component m name starting_rvs kw w
  = (Ok m, mkWorld (heap w) (stdout w ++ [MsgDuplicateName name])).
Proof.
  intros Hin. unfold Model.add_component.
  apply isin_In in Hin. rewrite Hin. reflexivity.
Qed.

(** C4, as the code has it. [add_component] never compares the length of
    [starting_rvs] with the epoch count of the Data: for every
    [starting_rvs], of whatever length, the call returns normally, and
    under a new name it appends a component whose [N] is the length of
    [starting_rvs]. *)
Theorem add_component_accepts_any_length (m : Model.t) name starting_rvs kw w :
  exists m' w',
    Model.add_component m name starting_rvs kw w = (Ok m', w')
    /\ (Model.isin name (Model.component_names m) = false ->
        exists c,
          Model.components m' = Model.components m ++ [c]
          /\ Model.component_names m' = Model.component_names m ++ [name]
          /\ Component.N c = length starting_rvs
          /\ Component.starting_rvs c = starting_rvs).
Proof.
  unfold Model.add_component.
  destruct (Model.isin name (Model.component_names m)) eqn:E.
  - do 2 eexists. split; [reflexivity | discriminate].
  - destruct (init_returns name (Model.r m) starting_rvs kw w)
      as (c & w' & Hc & _ & Hid).
    unfold mbind, M_bind. rewrite Hc. destruct m. simpl.
    do 2 eexists. split; [reflexivity|]. intros _. exists c.
    unfold identity_of in Hid. injection Hid as _ _ HN Hrvs. auto.
Qed.

End Adding.

(** ** Setting up *)

Lemma deref_ok l w a w' :
  np.deref l w = (Ok a, w') -> heap w !! l = Some a /\ w' = w.
Proof.
  unfold np.deref. destruct (heap w !! l); intros [= <- <-]; auto.
Qed.

Section SettingUp.
Context `{Numerics} `{Runtime}.

Lemma set_graph_read sy nl c :
  Component.synth (Component.set_graph sy nl c) = Some sy
  /\ Component.nll (Component.set_graph sy nl c) = Some nl.
Proof. destruct c. split; reflexivity. Qed.

(** A successful [Component.setup], taken apart. *)
Lemma component_setup_ok c data r w c' w' :
  Component.setup c data r w = (Ok c', w') ->
  w' = w
  /\ exists v txs lx xs L1 L2 regs,
       Component.initial_vars c = Ok v
       /\ Component.template_xs c = Some txs
       /\ Data.xs data !! r = Some lx /\ heap w !! lx = Some xs
       /\ Component.getattr c "L1_template" = Ok L1
       /\ Component.getattr c "L2_template" = Ok L2
       /\ (if (0 <? Component.K c)%nat then
             Component.getattr c "L1_basis_vectors" = Ok regs.1.1
             /\ Component.getattr c "L2_basis_vectors" = Ok regs.1.2
             /\ Component.getattr c "L2_basis_weights" = Ok regs.2
           else True)
       /\ c' = Component.set_graph
                 (Component.synth_tensor (Component.K c)
                    (Component.scale_by_airmass c) xs (Data.airms data) txs)
                 (Component.nll_tensor (Component.K c) L1 L2
                    regs.1.1 regs.1.2 regs.2)
                 c.
Proof.
  unfold Component.setup. intros Hrun.
  apply bind_ok in Hrun as (v & w1 & Hv & Hrun).
  apply lift_ok in Hv as [Hv ->].
  apply bind_ok in Hrun as (txs & w1 & Htxs & Hrun).
  apply lift_ok in Htxs as [Htxs ->]. apply attr_ok in Htxs.
  apply bind_ok in Hrun as (lx & w1 & Hlx & Hrun).
  apply lift_ok in Hlx as [Hlx ->]. apply index_ok in Hlx.
  apply bind_ok in Hrun as (xs & w1 & Hxs & Hrun).
  apply deref_ok in Hxs as [Hxs ->].
  apply bind_ok in Hrun as (L1 & w1 & HL1 & Hrun).
  apply lift_ok in HL1 as [HL1 ->].
  apply bind_ok in Hrun as (L2 & w1 & HL2 & Hrun).
  apply lift_ok in HL2 as [HL2 ->].
  apply bind_ok in Hrun as (regs & w1 & Hregs & Hrun).
  apply lift_ok in Hregs as [Hregs ->].
  destruct regs as [[a b] d]. apply ret_ok in Hrun as [-> ->].
  split; [reflexivity|].
  exists v, txs, lx, xs, L1, L2, (a, b, d). repeat (split; [assumption|]).
  split; [|reflexivity].
  destruct (0 <? Component.K c)%nat; [|exact I].
  apply bindR_ok in Hregs as (a' & Ha & Hregs).
  apply bindR_ok in Hregs as (b' & Hb & Hregs).
  apply bindR_ok in Hregs as (d' & Hd & Hregs).
  injection Hregs as <- <- <-. auto.
Qed.

Lemma setup_loop_ok data r cs : forall w cs' w',
  Model.setup_loop cs data r w = (Ok cs', w') ->
  w' = w
  /\ Forall2 (fun c c' => Component.setup c data r w = (Ok c', w)) cs cs'.
Proof.
  induction cs as [|c cs IH]; intros w cs' w' Hrun; simpl in Hrun.
  - apply ret_ok in Hrun as [-> ->]. split; constructor.
  - apply bind_ok in Hrun as (c1 & w1 & Hc1 & Hrun).
    apply bind_ok in Hrun as (rest & w2 & Hrest & Hrun).
    apply ret_ok in Hrun as [-> ->].
    pose proof (component_setup_ok _ _ _ _ _ _ Hc1) as [-> _].
    apply IH in Hrest as [-> Hall]. split; [reflexivity|].
    constructor; assumption.
Qed.

(** A successful [Model.setup], taken apart. *)
Lemma setup_ok (m : Model.t) w m' w' :
  Model.setup m w = (Ok m', w') ->
  exists m1 cs synths nlls vars lx ly li xs ys ivars,
    Model.initialize_templates m w = (Ok m1, w')
    /\ Data.xs (Model.data m1) !! Model.r m1 = Some lx
    /\ Data.ys (Model.data m1) !! Model.r m1 = Some ly
    /\ Data.ivars (Model.data m1) !! Model.r m1 = Some li
    /\ heap w' !! lx = Some xs /\ heap w' !! ly = Some ys
    /\ heap w' !! li = Some ivars
    /\ Forall2 (fun c c' => Component.setup c (Model.data m1) (Model.r m1) w'
                            = (Ok c', w'))
               (Model.components m1) cs
    /\ mapR (fun c => Component.attr (Component.synth c)) cs = Ok synths
    /\ mapR (fun c => Component.attr (Component.nll c)) cs = Ok nlls
    /\ mapR Component.initial_vars cs = Ok vars
    /\ m' = Model.mk cs (Model.component_names m1) (Model.data m1)
              (Model.results m1) (Model.r m1) (Model.order m1)
              (Some (Model.add_synths synths
                       (np.zeros2 (length xs) (np.ncols xs))))
              (Some (fun vs =>
                 Model.add_nlls nlls
                   (Model.misfit ys ivars
                      (Model.add_synths synths
                         (np.zeros2 (length xs) (np.ncols xs)) vs))
                   vs))
              (Some (concat (imap Model.optimizers cs)))
              vars
              (replicate (length (concat (imap Model.optimizers cs)))
                         slots_init).
Proof.
  unfold Model.setup. intros Hrun.
  apply bind_ok in Hrun as (m1 & w1 & Hinit & Hrun).
  apply bind_ok in Hrun as (lx & w2 & Hlx & Hrun).
  apply lift_ok in Hlx as [Hlx ->]. apply index_ok in Hlx.
  apply bind_ok in Hrun as (xs & w2 & Hxs & Hrun).
  apply deref_ok in Hxs as [Hxs ->].
  apply bind_ok in Hrun as (cs & w2 & Hcs & Hrun).
  apply setup_loop_ok in Hcs as [-> Hcs].
  apply bind_ok in Hrun as (synths & w2 & Hsy & Hrun).
  apply lift_ok in Hsy as [Hsy ->].
  apply bind_ok in Hrun as (ly & w2 & Hly & Hrun).
  apply lift_ok in Hly as [Hly ->]. apply index_ok in Hly.
  apply bind_ok in Hrun as (ys & w2 & Hys & Hrun).
  apply deref_ok in Hys as [Hys ->].
  apply bind_ok in Hrun as (li & w2 & Hli & Hrun).
  apply lift_ok in Hli as [Hli ->]. apply index_ok in Hli.
  apply bind_ok in Hrun as (ivars & w2 & Hiv & Hrun).
  apply deref_ok in Hiv as [Hiv ->].
  apply bind_ok in Hrun as (nlls & w2 & Hnl & Hrun).
  apply lift_ok in Hnl as [Hnl ->].
  apply bind_ok in Hrun as (vars & w2 & Hvars & Hrun).
  apply lift_ok in Hvars as [Hvars ->].
  destruct m1 as [cs1 names d res r o sy nl up se sl]. simpl in *.
  apply ret_ok in Hrun as [-> ->].
  exists (Model.mk cs1 names d res r o sy nl up se sl), cs, synths, nlls,
    vars, lx, ly, li, xs, ys, ivars.
  simpl. repeat (split; [assumption|]). reflexivity.
Qed.

End SettingUp.

(** ** Uncertainties and optimisation *)

Section Optimising.
Context `{Numerics} `{Runtime}.

Lemma set_ivars_rvs_twice iv iv' c :
  Component.set_ivars_rvs iv' (Component.set_ivars_rvs iv c)
  = Component.set_ivars_rvs iv' c.
Proof. destruct c. reflexivity. Qed.

Lemma set_ivars_rvs_fixed iv c :
  Component.rvs_fixed (Component.set_ivars_rvs iv c) = Component.rvs_fixed c.
Proof. destruct c. reflexivity. Qed.

Lemma set_ivars_rvs_read iv c :
  Component.ivars_rvs (Component.set_ivars_rvs iv c) = Some iv.
Proof. destruct c. reflexivity. Qed.

(** What one pass of the loop over components does to a component. *)
Lemma estimate_component_ok nll vars N verbose i c w c' w' :
  Model.estimate_component nll vars N verbose i c w = (Ok c', w') ->
  heap w' = heap w
  /\ exists v, vars !! i = Some v
     /\ if Component.rvs_fixed c
        then c' = Component.set_ivars_rvs (np.zeros (length (Vars.rvs v))) c
        else exists iv,
               c' = Component.set_ivars_rvs iv c
               /\ match N with
                  | O => iv = np.zeros (length (Vars.rvs v))
                  | S _ => exists loss,
                      nll = Some loss
                      /\ Model.epochs_loop loss i vars (Vars.rvs v) (seq 0 N)
                           (np.zeros (length (Vars.rvs v))) = Ok iv
                  end.
Proof.
  unfold Model.estimate_component. intros Hrun.
  apply bind_ok in Hrun as (v & w0 & Hv & Hrun).
  apply lift_ok in Hv as [Hv ->]. apply attr_ok in Hv. rewrite set_ivars_rvs_fixed in Hrun.
  destruct (Component.rvs_fixed c); simpl in Hrun.
  - run_inv Hrun. split; [reflexivity|]. eauto.
  - apply bind_ok in Hrun as (u & w1 & Hprint & Hrun).
    apply bind_ok in Hrun as (iv & w2 & Hiv & Hrun).
    apply lift_ok in Hiv as [Hiv ->]. apply ret_ok in Hrun as [-> ->].
    rewrite set_ivars_rvs_twice.
    assert (Hw : heap w1 = heap w).
    { destruct verbose; [injection Hprint as _ <- | run_inv Hprint];
        reflexivity. }
    split; [assumption|]. exists v. split; [assumption|].
    exists iv. split; [reflexivity|].
    destruct N; [congruence|].
    apply bindR_ok in Hiv as (loss & Hl & Hloop). apply attr_ok in Hl.
    eauto.
Qed.

Lemma estimate_loop_ok nll vars N verbose cs : forall i w cs' w',
  Model.estimate_loop nll vars N verbose i cs w = (Ok cs', w') ->
  heap w' = heap w
  /\ length cs' = length cs
  /\ forall k c, cs !! k = Some c ->
       exists c' w1 w2,
         cs' !! k = Some c'
         /\ Model.estimate_component nll vars N verbose (i + k) c w1
            = (Ok c', w2).
Proof.
  induction cs as [|c cs IH]; intros i w cs' w' Hrun; simpl in Hrun.
  - run_inv Hrun. repeat split; try reflexivity. intros k c [=].
  - apply bind_ok in Hrun as (c1 & w1 & Hc1 & Hrun).
    apply bind_ok in Hrun as (rest & w2 & Hrest & Hrun). run_inv Hrun.
    pose proof (estimate_component_ok _ _ _ _ _ _ _ _ _ Hc1) as [Hw _].
    apply IH in Hrest as (Hw' & Hlen & Hk).
    split; [congruence|]. split; [simpl; congruence|].
    intros [|k] c0 Hc0; simpl in Hc0.
    + injection Hc0 as <-. exists c1, w, w1.
      rewrite Nat.add_0_r. split; [reflexivity | assumption].
    + destruct (Hk k c0 Hc0) as (c' & wa & wb & Hc' & Hrun').
      exists c', wa, wb. split; [assumption|].
      replace (i + S k)%nat with (S i + k)%nat by lia. assumption.
Qed.

(** A successful [optimize], taken apart: the iterations, then the
    uncertainties, then the push to Results. *)
Lemma optimize_ok (m : Model.t) niter save_history basename feed verbose
    w m' w' :
  Model.optimize m niter save_history basename feed verbose w = (Ok m', w') ->
  exists st cs' wa wb,
    match niter with
    | O => st = (Model.session m, Model.slots m)
    | S _ => exists ops loss,
        Model.updates m = Some ops /\ Model.nll m = Some loss
        /\ st = Model.iterations niter loss feed ops
                                 (Model.session m, Model.slots m)
    end
    /\ Model.estimate_loop (Model.nll m) st.1 (Data.N (Model.data m)) verbose
                           0 (Model.components m) wa = (Ok cs', wb)
    /\ heap w' = heap w
    /\ m' = Model.mk cs' (Model.component_names m) (Model.data m)
                     (foldl (fun res c => results_update c st.1 res)
                            (Model.results m) cs')
                     (Model.r m) (Model.order m) (Model.synth m)
                     (Model.nll m) (Model.updates m) st.1 st.2.
Proof.
  unfold Model.optimize. intros Hrun.
  apply bind_ok in Hrun as (u & w1 & Hprint & Hrun).
  assert (Hw1 : heap w1 = heap w).
  { destruct verbose; [injection Hprint as _ <- | run_inv Hprint];
      reflexivity. }
  apply bind_ok in Hrun as (st & w2 & Hst & Hrun).
  apply lift_ok in Hst as [Hst ->].
  destruct m as [cs names d res r o sy nl up se sl]. simpl in *.
  apply bind_ok in Hrun as (m1 & w2 & Hest & Hrun).
  unfold Model.estimate_uncertainties in Hest. simpl in Hest.
  apply bind_ok in Hest as (cs' & w3 & Hloop & Hest).
  apply ret_ok in Hest as [-> ->]. simpl in Hrun.
  apply ret_ok in Hrun as [-> ->].
  exists st, cs', w1, w3. split.
  { destruct niter; [congruence|].
    apply bindR_ok in Hst as (ops & Hops & Hst). apply attr_ok in Hops.
    apply bindR_ok in Hst as (loss & Hloss & Hst). apply attr_ok in Hloss.
    injection Hst as <-. eauto. }
  split; [assumption|]. split; [|reflexivity].
  apply estimate_loop_ok in Hloop as (Hw3 & _). congruence.
Qed.

(** C8. [optimize(0)] returns with every variable of every component
    (rvs, template_ys, basis_vectors, basis_weights) at the value it had,
    and the optimisers' slots too; the uncertainty estimate that still runs
    writes [ivars_rvs] of the components and nothing else of them. *)
Theorem optimize_zero_keeps_parameters (m : Model.t) save_history basename
    feed verbose w m' w' :
  Model.optimize m 0 save_history basename feed verbose w = (Ok m', w') ->
  Model.session m' = Model.session m
  /\ Model.slots m' = Model.slots m
  /\ Forall2 (fun c c' => exists iv, c' = Component.set_ivars_rvs iv c)
             (Model.components m) (Model.components m').
Proof.
  intros Hrun. apply optimize_ok in Hrun as (st & cs' & wa & wb & Hst & Hloop
                                             & _ & ->).
  subst st. simpl. repeat split.
  apply estimate_loop_ok in Hloop as (_ & Hlen & Hk).
  apply Forall2_same_length_lookup_2; [congruence|].
  intros i c c' Hc Hc'.
  destruct (Hk i c Hc) as (c1 & w1 & w2 & Hc1 & Hrun).
  assert (c1 = c') as -> by congruence.
  apply estimate_component_ok in Hrun as (_ & v & _ & Hcase).
  destruct (Component.rvs_fixed c); [eauto|].
  destruct Hcase as (iv & -> & _). eauto.
Qed.

(** *** Components with fixed RVs *)

Lemma initial_vars_rvs c v :
  Component.initial_vars c = Ok v -> Vars.rvs v = Component.starting_rvs c.
Proof.
  unfold Component.initial_vars. intros E.
  apply bindR_ok in E as (tys & _ & E).
  destruct (0 <? Component.K c)%nat.
  - apply bindR_ok in E as (bv & _ & E).
    apply bindR_ok in E as (bw & _ & E). injection E as <-. reflexivity.
  - injection E as <-. reflexivity.
Qed.

Lemma optimizers_component i c op :
  In op (Model.optimizers i c) ->
  op_component op = i
  /\ (Component.rvs_fixed c = true -> op_block op <> Rvs).
Proof.
  unfold Model.optimizers. rewrite !in_app_iff. intros [Hop | [Hop | Hop]].
  - destruct Hop as [<- | []]. split; [reflexivity | discriminate].
  - destruct (Component.rvs_fixed c); simpl in Hop.
    + destruct Hop.
    + destruct Hop as [<- | []]. split; [reflexivity | discriminate].
  - destruct (0 <? Component.K c)%nat; simpl in Hop.
    + destruct Hop as [<- | [<- | []]]; (split; [reflexivity | discriminate]).
    + destruct Hop.
Qed.

Lemma setup_fixed_rvs_kept (m : Model.t) w m' w' :
  Model.setup m w = (Ok m', w') -> fixed_rvs_kept m'.
Proof.
  intros Hrun.
  apply setup_ok in Hrun
    as (m1 & cs & synths & nlls & vars & lx & ly & li & xs & ys & ivars
        & _ & _ & _ & _ & _ & _ & _ & _ & _ & _ & Hvars & ->).
  intros i c Hc Hfixed. simpl in *. split.
  - apply mapR_ok in Hvars.
    destruct (Forall2_lookup_l _ _ _ _ _ Hvars Hc) as (v & Hv & Hinit).
    exists v. split; [assumption|]. apply initial_vars_rvs. assumption.
  - intros ops op [= <-] Hop Hi.
    apply in_concat in Hop as (l & Hl & Hop).
    apply (proj2 (list_elem_of_In _ _)) in Hl.
    apply elem_of_lookup_imap_1 in Hl as (j & c' & -> & Hc').
    apply optimizers_component in Hop as [Hj Hblock].
    assert (j = i) as -> by congruence.
    apply Hblock. congruence.
Qed.

Lemma run_op_keeps_rvs i loss feed vars os :
  (op_component os.1 = i -> op_block os.1 <> Rvs) ->
  Vars.rvs <$> (Model.run_op loss feed vars os).1 !! i
  = Vars.rvs <$> vars !! i.
Proof.
  destruct os as [op s]. simpl. intros Hop. unfold Model.run_op.
  destruct (adam _ _ _ _ _ _ _) as [new s']. simpl.
  rewrite list_lookup_alter. destruct (decide (op_component op = i)) as [E|];
    [|reflexivity].
  rewrite E. destruct (vars !! i) as [v|]; [|reflexivity]. simpl.
  specialize (Hop E). destruct (op_block op); try reflexivity.
  contradiction.
Qed.

Lemma run_updates_keeps_rvs i loss feed ops : forall vars,
  Forall (fun os : minimize_op * Slots =>
            op_component os.1 = i -> op_block os.1 <> Rvs) ops ->
  Vars.rvs <$> (Model.run_updates loss feed ops vars).1 !! i
  = Vars.rvs <$> vars !! i.
Proof.
  induction ops as [|os ops IH]; intros vars Hall; simpl; [reflexivity|].
  apply Forall_cons in Hall as [Hos Hall].
  pose proof (run_op_keeps_rvs i loss feed vars os Hos) as E.
  destruct (Model.run_op loss feed vars os) as [vars1 s1]. simpl in E.
  specialize (IH vars1 Hall).
  destruct (Model.run_updates loss feed ops vars1) as [vars2 ss]. simpl in *.
  congruence.
Qed.

Lemma iterations_keep_rvs i loss feed ops n : forall st,
  Forall (fun op => op_component op = i -> op_block op <> Rvs) ops ->
  Vars.rvs <$> (Model.iterations n loss feed ops st).1 !! i
  = Vars.rvs <$> st.1 !! i.
Proof.
  induction n as [|n IH]; intros st Hall; simpl; [reflexivity|].
  rewrite IH by assumption. apply run_updates_keeps_rvs.
  apply Forall_forall. intros [op s] Hin Hi. simpl in *.
  apply elem_of_zip_l in Hin.
  rewrite Forall_forall in Hall. exact (Hall op Hin Hi).
Qed.

Lemma set_ivars_rvs_starting_rvs iv c :
  Component.starting_rvs (Component.set_ivars_rvs iv c)
  = Component.starting_rvs c.
Proof. destruct c. reflexivity. Qed.

(** One call of [optimize] keeps the invariant and leaves zeros in
    [ivars_rvs] of every component with fixed RVs. *)
Lemma optimize_fixed_rvs (m : Model.t) k w m' w' :
  fixed_rvs_kept m ->
  Model.optimize m (niter k) (save_history k) (basename k) (feed_dict k)
                 (verbose k) w = (Ok m', w') ->
  fixed_rvs_kept m'
  /\ forall i c,
       Model.components m' !! i = Some c -> Component.rvs_fixed c = true ->
       Component.ivars_rvs c
       = Some (np.zeros (length (Component.starting_rvs c))).
Proof.
  intros Hinv Hrun.
  apply optimize_ok in Hrun as (st & cs' & wa & wb & Hst & Hloop & _ & ->).
  apply estimate_loop_ok in Hloop as (_ & Hlen & Hk).
  assert (Hkey : forall i c',
    cs' !! i = Some c' -> Component.rvs_fixed c' = true ->
    exists c v,
      Model.components m !! i = Some c /\ Component.rvs_fixed c = true
      /\ Component.starting_rvs c' = Component.starting_rvs c
      /\ st.1 !! i = Some v /\ Vars.rvs v = Component.starting_rvs c
      /\ Component.ivars_rvs c' = Some (np.zeros (length (Vars.rvs v)))).
  { intros i c' Hc' Hfixed.
    destruct (lookup_lt_is_Some_2 (Model.components m) i) as [c Hc].
    { rewrite <- Hlen. eapply lookup_lt_Some. eassumption. }
    destruct (Hk i c Hc) as (c1 & w1 & w2 & Hc1 & Hrun).
    assert (c1 = c') as -> by congruence.
    apply estimate_component_ok in Hrun as (_ & v & Hv & Hcase).
    simpl in Hv.
    destruct (Component.rvs_fixed c) eqn:Hfc.
    2:{ destruct Hcase as (iv & -> & _).
        rewrite set_ivars_rvs_fixed in Hfixed. congruence. }
    subst c'. exists c, v.
    rewrite set_ivars_rvs_starting_rvs, set_ivars_rvs_read.
    repeat (split; [reflexivity || assumption|]). split; [|reflexivity].
    destruct (Hinv i c Hc Hfc) as [(v0 & Hv0 & Hrvs) Hops].
    assert (E : Vars.rvs <$> st.1 !! i = Vars.rvs <$> Model.session m !! i).
    { destruct (niter k).
      - subst st. reflexivity.
      - destruct Hst as (ops & loss & Hup & _ & ->).
        apply iterations_keep_rvs. apply List.Forall_forall.
        intros op Hop. apply (Hops ops op Hup Hop). }
    rewrite Hv, Hv0 in E. simpl in E. congruence. }
  split.
  - intros i c' Hc' Hfixed. simpl in *.
    destruct (Hkey i c' Hc' Hfixed)
      as (c & v & Hc & Hfc & Hs & Hv & Hrvs & _).
    split; [exists v; split; [assumption | congruence]|].
    exact (proj2 (Hinv i c Hc Hfc)).
  - intros i c' Hc' Hfixed. simpl in *.
    destruct (Hkey i c' Hc' Hfixed)
      as (c & v & Hc & Hfc & Hs & Hv & Hrvs & Hiv).
    rewrite Hiv. do 2 f_equal. congruence.
Qed.

(** C5. Take a model that [setup] has just built and call [optimize] on it
    any number of times, at least once, with any arguments. Then every
    component with [rvs_fixed = True] has its RVs variable equal to its
    [starting_rvs], and its [ivars_rvs] is an array of zeros, one per
    starting RV. *)
Theorem fixed_rvs_keep_starting_values (m0 : Model.t) w0 m w calls m' w' i c :
  Model.setup m0 w0 = (Ok m, w) ->
  calls <> [] ->
  optimize_calls calls m w = (Ok m', w') ->
  Model.components m' !! i = Some c ->
  Component.rvs_fixed c = true ->
  (exists v, Model.session m' !! i = Some v
             /\ Vars.rvs v = Component.starting_rvs c)
  /\ Component.ivars_rvs c
     = Some (np.zeros (length (Component.starting_rvs c))).
Proof.
  intros Hsetup Hcalls Hrun Hc Hfixed.
  apply setup_fixed_rvs_kept in Hsetup.
  destruct calls as [|k calls]; [contradiction|]. clear Hcalls.
  unfold optimize_calls in Hrun. simpl in Hrun.
  apply bind_ok in Hrun as (m1 & w1 & Hfirst & Hrun).
  apply (optimize_fixed_rvs _ _ _ _ _ Hsetup) in Hfirst as [Hinv Hzero].
  clear Hsetup.
  revert m1 w1 Hinv Hzero Hrun.
  induction calls as [|k' calls IH]; intros m1 w1 Hinv Hzero Hrun;
    simpl in Hrun.
  - apply ret_ok in Hrun as [-> ->].
    split; [exact (proj1 (Hinv i c Hc Hfixed)) | exact (Hzero i c Hc Hfixed)].
  - apply bind_ok in Hrun as (m2 & w2 & Hnext & Hrun).
    apply (optimize_fixed_rvs _ _ _ _ _ Hinv) in Hnext as [Hinv' Hzero'].
    exact (IH m2 w2 Hinv' Hzero' Hrun).
Qed.

(** *** The uncertainty of a free RV *)

Lemma mapR_fmap_ok {A B C} (f : B -> result C) (h : A -> B) (k : A -> C) l :
  (forall a, In a l -> f (h a) = Ok (k a)) ->
  mapR f (h <$> l) = Ok (k <$> l).
Proof.
  induction l as [|a l IH]; intros Hf; csimpl; [reflexivity|].
  rewrite (Hf a) by (left; reflexivity).
  rewrite IH by (intros; apply Hf; right; assumption). reflexivity.
Qed.

Lemma zip_replicate_l {A B} (a : A) (l : list B) n :
  (length l <= n)%nat -> zip (replicate n a) l = (fun b => (a, b)) <$> l.
Proof.
  revert n. induction l as [|b l IH]; intros n Hn; simpl.
  - destruct n; reflexivity.
  - destruct n; simpl in *; [lia|]. rewrite IH by lia. reflexivity.
Qed.

Lemma rvs_grid_ok best n g :
  Model.rvs_grid best n = Ok g ->
  exists best_n,
    best !! n = Some best_n
    /\ g = (fun d => <[n := best_n + d]> best) <$> window.
Proof.
  unfold Model.rvs_grid, np.tile.
  change (np.linspace (-50) 50 Model.N_grid) with window.
  rewrite zip_replicate_l by reflexivity. intros Hg.
  destruct (best !! n) as [b|] eqn:Hb.
  - exists b. split; [reflexivity|].
    assert (E : mapR (fun rd : vec * Q =>
                        x ← np.index rd.1 n; Ok (<[n := x + rd.2]> rd.1))
                     ((fun d => (best, d)) <$> window)
                = Ok ((fun d => <[n := b + d]> best) <$> window)).
    { apply mapR_fmap_ok. intros d _. simpl. unfold np.index.
      rewrite Hb. reflexivity. }
    congruence.
  - exfalso. revert Hg. unfold window, np.linspace. simpl.
    unfold np.index. rewrite Hb. discriminate.
Qed.

(** One pass of the loop over epochs: the gradient of [loss] with respect
    to the RVs of component [i], read at epoch [n], at each of the values
    [best_n + d] of that RV, every other variable being as in [vars]. *)
Lemma ivar_rv_ok loss i vars best n x :
  Model.ivar_rv loss i vars best n = Ok x ->
  exists best_n y,
    best !! n = Some best_n
    /\ Forall2 (fun d g =>
                  gradients loss i
                    (Model.feed_rvs i (<[n := best_n + d]> best) vars) !! n
                  = Some g)
               window y
    /\ x = slope_through_origin
             ((fun d => best_n + d - best_n) <$> window) y.
Proof.
  unfold Model.ivar_rv. intros E.
  apply bindR_ok in E as (g & Hg & E).
  apply rvs_grid_ok in Hg as (b & Hb & ->).
  apply bindR_ok in E as (y & Hy & E).
  apply bindR_ok in E as (col & Hcol & E).
  apply bindR_ok in E as (b' & Hb' & E).
  apply index_ok in Hb'. assert (b' = b) as -> by congruence.
  injection E as <-.
  assert (Hcol' : col = (fun d => b + d) <$> window).
  { rewrite (mapR_fmap_ok _ _ (fun d => b + d)) in Hcol; [congruence|].
    intros d _. unfold np.index.
    rewrite list_lookup_insert_eq; [reflexivity|].
    eapply lookup_lt_Some. eassumption. }
  subst col. exists b, y. split; [assumption|]. split.
  - apply mapR_ok in Hy. apply Forall2_fmap_l in Hy.
    eapply Forall2_impl; [exact Hy|]. intros d gr Hd. simpl in Hd.
    apply index_ok in Hd. exact Hd.
  - unfold slope_through_origin. rewrite <- list_fmap_compose. reflexivity.
Qed.

Lemma epochs_loop_ok loss i vars best epochs : forall iv0 iv,
  NoDup epochs ->
  Model.epochs_loop loss i vars best epochs iv0 = Ok iv ->
  (forall n, In n epochs ->
     exists x, Model.ivar_rv loss i vars best n = Ok x /\ iv !! n = Some x)
  /\ (forall n, ~ In n epochs -> iv !! n = iv0 !! n).
Proof.
  induction epochs as [|n epochs IH]; intros iv0 iv Hnd E; simpl in E.
  - injection E as <-. split; [intros n [] | reflexivity].
  - apply NoDup_cons in Hnd as [Hn Hnd].
    apply bindR_ok in E as (x & Hx & E).
    apply bindR_ok in E as (old & Hold & E). apply index_ok in Hold.
    destruct (IH _ _ Hnd E) as [Hin Hout]. split.
    + intros n' [<- | Hn']; [|auto].
      exists x. split; [assumption|]. rewrite Hout.
      * apply list_lookup_insert_eq. eapply lookup_lt_Some. eassumption.
      * rewrite <- list_elem_of_In. assumption.
    + intros n' Hn'. rewrite Hout by (intros ?; apply Hn'; right; assumption).
      apply list_lookup_insert_ne. intros ->. apply Hn'. left. reflexivity.
Qed.

(** The window has 20 points, runs from -50 to 50 and is symmetric about
    0. *)
Lemma window_spans :
  length window = 20%nat
  /\ Forall (fun d => -50 <= d /\ d <= 50) window
  /\ Forall2 (fun d d' => d == - d') window (reverse window)
  /\ (exists lo hi, head window = Some lo /\ last window = Some hi
                    /\ lo == -50 /\ hi == 50).
Proof.
  split; [reflexivity|]. split; [|split].
  - unfold window, np.linspace. simpl.
    repeat (constructor;
            [split; apply Qle_bool_iff; vm_compute; reflexivity|]).
    constructor.
  - unfold window, np.linspace. simpl.
    repeat (constructor; [vm_compute; reflexivity|]). constructor.
  - do 2 eexists. split; [reflexivity|]. split; [reflexivity|].
    split; vm_compute; reflexivity.
Qed.

Lemma sum_Qeq (a b : vec) : Forall2 Qeq a b -> np.sum a == np.sum b.
Proof.
  induction 1 as [|x y a b Hxy _ IH]; simpl; [reflexivity|].
  rewrite Hxy, IH. reflexivity.
Qed.

Lemma dot_Qeq (a a' b : vec) :
  Forall2 Qeq a a' -> np.dot a b == np.dot a' b.
Proof.
  intros Ha. unfold np.dot. apply sum_Qeq.
  revert b. induction Ha as [|x y a a' Hxy _ IH]; intros [|z b]; simpl;
    constructor; [rewrite Hxy; reflexivity | apply IH].
Qed.

Lemma dot_Qeq_r (a b b' : vec) :
  Forall2 Qeq b b' -> np.dot a b == np.dot a b'.
Proof.
  intros Hb. unfold np.dot. apply sum_Qeq.
  revert a. induction Hb as [|x y b b' Hxy _ IH]; intros [|z a]; simpl;
    constructor; [rewrite Hxy; reflexivity | apply IH].
Qed.

(** Perturbing around a value and subtracting it again gives the
    perturbations back. *)
Lemma perturbations_window best_n :
  Forall2 Qeq ((fun d => best_n + d - best_n) <$> window) window.
Proof.
  apply Forall2_fmap_l, Forall_Forall2_diag, List.Forall_forall.
  intros d _. simpl. ring.
Qed.

Lemma window_dot_positive : 0 < np.dot window window.
Proof. apply Qlt_alt. vm_compute. reflexivity. Qed.

(** C3. After [optimize], for a component [c] with free RVs and an epoch
    [n] of the Data: [ivars_rvs[n]] is [ATy/ATA], where [A] holds the 20
    perturbations (grid value minus fitted value) of a symmetric window of
    -50 to 50 around the fitted RV of epoch [n], and [y] the gradient of the
    total objective with respect to that RV at each grid value, the RVs of
    the other epochs and all other variables being held at their fitted
    values. It is the slope of the least-squares line through the origin:
    it solves the normal equation [ATA * slope = ATy]. *)
Theorem ivars_rvs_is_slope_of_gradient (m : Model.t) iters save basename_
    feed vb w m' w' i c n :
  Model.optimize m iters save basename_ feed vb w = (Ok m', w') ->
  Model.components m' !! i = Some c ->
  Component.rvs_fixed c = false ->
  (n < Data.N (Model.data m'))%nat ->
  exists loss v best_n y iv,
    Model.nll m' = Some loss
    /\ Model.session m' !! i = Some v
    /\ Vars.rvs v !! n = Some best_n
    /\ Forall2 (fun d g =>
                  gradients loss i
                    (Model.feed_rvs i (<[n := best_n + d]> (Vars.rvs v))
                                    (Model.session m')) !! n
                  = Some g)
               window y
    /\ Component.ivars_rvs c = Some iv
    /\ (let A := (fun d => best_n + d - best_n) <$> window in
        iv !! n = Some (slope_through_origin A y)
        /\ Forall2 Qeq A window
        /\ np.dot A A * slope_through_origin A y == np.dot A y)
    /\ length window = 20%nat
    /\ Forall (fun d => -50 <= d /\ d <= 50) window
    /\ Forall2 (fun d d' => d == - d') window (reverse window).
Proof.
  intros Hrun Hc Hfree Hn.
  apply optimize_ok in Hrun as (st & cs' & wa & wb & _ & Hloop & _ & ->).
  simpl in *.
  apply estimate_loop_ok in Hloop as (_ & Hlen & Hk).
  destruct (lookup_lt_is_Some_2 (Model.components m) i) as [c0 Hc0].
  { rewrite <- Hlen. eapply lookup_lt_Some. eassumption. }
  destruct (Hk i c0 Hc0) as (c1 & w1 & w2 & Hc1 & Hest).
  assert (c1 = c) as -> by congruence.
  apply estimate_component_ok in Hest as (_ & v & Hv & Hcase). simpl in Hv.
  destruct (Component.rvs_fixed c0) eqn:Hf0.
  { subst c. rewrite set_ivars_rvs_fixed in Hfree. congruence. }
  destruct Hcase as (iv & -> & Hiv).
  destruct (Data.N (Model.data m)) as [|N'] eqn:HN; [lia|].
  destruct Hiv as (loss & Hloss & Hloop).
  apply epochs_loop_ok in Hloop as [Hin _]; [|apply NoDup_seq].
  destruct (Hin n) as (x & Hx & Hivn); [apply in_seq; lia|].
  apply ivar_rv_ok in Hx as (best_n & y & Hbest & Hy & ->).
  exists loss, v, best_n, y, iv.
  repeat (split; [assumption|]).
  split; [apply set_ivars_rvs_read|].
  pose proof (perturbations_window best_n) as HA.
  split; [|exact (conj (proj1 window_spans)
                       (conj (proj1 (proj2 window_spans))
                             (proj1 (proj2 (proj2 window_spans)))))].
  split; [assumption|]. split; [assumption|].
  unfold slope_through_origin. field.
  rewrite (dot_Qeq _ _ _ HA), (dot_Qeq_r _ _ _ HA).
  pose proof window_dot_positive. lra.
Qed.

End Optimising.

(** ** Initialising templates: the store *)

Lemma keeps_ret {A} P (a : A) : keeps P (mret a).
Proof. intros w l b _ Hl. exact Hl. Qed.

Lemma keeps_lift {A} P (x : result A) : keeps P (lift x).
Proof. intros w l b _ Hl. exact Hl. Qed.

Lemma keeps_print P s : keeps P (print s).
Proof. intros w l b _ Hl. exact Hl. Qed.

Lemma keeps_deref P l0 : keeps P (np.deref l0).
Proof.
  intros w l b _ Hl. unfold np.deref. destruct (heap w !! l0); exact Hl.
Qed.

Lemma keeps_bind {A B} P (x : M A) (f : A -> M B) :
  keeps P x -> (forall a, keeps P (f a)) -> keeps P (x ≫= f).
Proof.
  intros Hx Hf w l b HP Hl. unfold mbind, M_bind.
  specialize (Hx w l b HP Hl).
  destruct (x w) as [[a|e] w1]; simpl in *; [|exact Hx].
  apply Hf; assumption.
Qed.

Lemma keeps_store l0 a0 : keeps (fun l => l <> l0) (np.store l0 a0).
Proof.
  intros w l b Hne Hl. unfold np.store.
  destruct (heap w !! l0); simpl; [|exact Hl].
  rewrite lookup_insert_ne by congruence. exact Hl.
Qed.

Lemma keeps_for_each {A} P (l : list A) (body : A -> M unit) :
  (forall a, keeps P (body a)) -> keeps P (for_each l body).
Proof.
  intros Hbody. induction l as [|a l IH]; simpl.
  - apply keeps_ret.
  - apply keeps_bind; [apply Hbody | intros _; exact IH].
Qed.

Lemma keeps_isub_row l0 n v : keeps (fun l => l <> l0) (np.isub_row l0 n v).
Proof.
  unfold np.isub_row.
  apply keeps_bind; [apply keeps_deref | intros a].
  apply keeps_bind; [apply keeps_lift | intros row].
  apply keeps_bind; [apply keeps_lift | intros row'].
  apply keeps_store.
Qed.

(** [np.copy] allocates a new array, and what follows may write to it. *)
Lemma keeps_copy_then {B} l0 (k : nat -> M B) :
  (forall l, keeps (fun l' => l' <> l) (k l)) ->
  keeps (fun _ => True) (np.copy l0 ≫= k).
Proof.
  intros Hk w l b _ Hl. unfold mbind at 1, M_bind, np.copy.
  unfold mbind, M_bind, np.deref.
  destruct (heap w !! l0) as [a|]; simpl; [|exact Hl].
  apply Hk.
  - intros ->. pose proof (is_fresh (dom (heap w))) as Hfresh.
    apply Hfresh, elem_of_dom. eauto.
  - simpl. rewrite lookup_insert_ne; [exact Hl|].
    intros E. pose proof (is_fresh (dom (heap w))) as Hfresh.
    apply Hfresh. rewrite E. apply elem_of_dom. eauto.
Qed.

Lemma keeps_copy l0 : keeps (fun _ => True) (np.copy l0).
Proof.
  intros w l b HP Hl.
  pose proof (keeps_copy_then l0 (fun l => mret l)
                (fun l => keeps_ret _ l) w l b HP Hl) as E.
  unfold mbind, M_bind in *. destruct (np.copy l0 w) as [[a|e] w1]; exact E.
Qed.

Section StoreOfInitialisation.
Context `{Numerics} `{Runtime}.

Lemma initialize_template_keeps c lx ly li :
  keeps (fun _ => True) (Component.initialize_template c lx ly li).
Proof.
  unfold Component.initialize_template.
  apply keeps_bind; [apply keeps_deref | intros xs].
  apply keeps_bind; [apply keeps_deref | intros ys].
  apply keeps_bind; [apply keeps_deref | intros ivars].
  apply keeps_bind; [apply keeps_lift | intros shifted].
  apply keeps_bind; [apply keeps_lift | intros grid].
  destruct (bin_data shifted ys ivars grid) as [txs tys].
  apply keeps_bind; [apply keeps_lift | intros [c' ft]].
  apply keeps_copy_then. intros l.
  apply keeps_bind; [|intros _; apply keeps_ret].
  apply keeps_for_each. intros n.
  apply keeps_bind; [apply keeps_lift | intros sx].
  apply keeps_bind; [apply keeps_lift | intros ftn].
  apply keeps_bind; [apply keeps_lift | intros v].
  apply keeps_isub_row.
Qed.

Lemma init_loop_keeps cs lx li : forall ly,
  keeps (fun _ => True) (Model.init_loop cs lx ly li).
Proof.
  induction cs as [|c cs IH]; intros ly; simpl.
  - apply keeps_ret.
  - apply keeps_bind; [apply initialize_template_keeps | intros cl].
    apply keeps_bind; [apply IH | intros rest]. apply keeps_ret.
Qed.

Lemma initialize_templates_keeps (m : Model.t) :
  keeps (fun _ => True) (Model.initialize_templates m).
Proof.
  unfold Model.initialize_templates.
  apply keeps_bind; [apply keeps_lift | intros lx].
  apply keeps_bind; [apply keeps_lift | intros ly].
  apply keeps_bind; [apply keeps_copy | intros ly'].
  apply keeps_bind; [apply keeps_lift | intros li].
  apply keeps_bind; [apply init_loop_keeps | intros cl]. apply keeps_ret.
Qed.

(** C10. Whatever array is in the store when [initialize_templates] or
    [initialize_template] is called -- the wavelength, flux and
    inverse-variance arrays of the Data among them -- holds the same
    values when the call is over, whether it returned or raised: the
    residuals are written to copies. *)
Theorem initialisation_keeps_data_arrays (m : Model.t) (c : Component.t)
    data_xs data_ys data_ivars w l a :
  heap w !! l = Some a ->
  heap (Model.initialize_templates m w).2 !! l = Some a
  /\ heap (Component.initialize_template c data_xs data_ys data_ivars w).2 !! l
     = Some a.
Proof.
  intros Hl. split.
  - exact (initialize_templates_keeps m w l a I Hl).
  - exact (initialize_template_keeps c data_xs data_ys data_ivars w l a I Hl).
Qed.

End StoreOfInitialisation.

(** ** Initialising templates: the residual chain *)

Section ResidualChain.
Context `{Numerics} `{Runtime}.

Lemma store_ok l a w u w' :
  np.store l a w = (Ok u, w') ->
  w' = mkWorld (<[l := a]> (heap w)) (stdout w).
Proof.
  unfold np.store. destruct (heap w !! l); intros [= <- <-]. reflexivity.
Qed.

Lemma np_interp_checked_ok x xp fp v :
  Component.np_interp_checked x xp fp = Ok v -> v = np_interp x xp fp.
Proof.
  unfold Component.np_interp_checked. destruct (_ && _); congruence.
Qed.

Lemma iop_ok f a b c : np.iop f a b = Ok c -> c = np.bcast f a b.
Proof. unfold np.iop. destruct (_ || _); congruence. Qed.

(** The loop [for n in range(...): data_resids[n] -= np.interp(...)]. *)
Lemma resid_loop_ok l shifted txs ft rows : forall w w' d,
  NoDup rows ->
  for_each rows (fun n =>
      sx ← lift (np.index shifted n);
      ftn ← lift (np.index ft n);
      v ← lift (Component.np_interp_checked sx txs ftn);
      np.isub_row l n v) w = (Ok tt, w') ->
  heap w !! l = Some d ->
  exists d',
    heap w' = <[l := d']> (heap w)
    /\ length d' = length d
    /\ (forall n, In n rows ->
          exists row sx ftn,
            d !! n = Some row /\ shifted !! n = Some sx /\ ft !! n = Some ftn
            /\ d' !! n = Some (np.bcast Qminus row (np_interp sx txs ftn)))
    /\ (forall n, ~ In n rows -> d' !! n = d !! n).
Proof.
  induction rows as [|n rows IH]; intros w w' d Hnd Hrun Hd; simpl in Hrun.
  - apply ret_ok in Hrun as [_ ->]. exists d.
    split; [symmetry; apply insert_id; assumption|].
    split; [reflexivity|]. split; [intros n [] | reflexivity].
  - apply NoDup_cons in Hnd as [Hn Hnd].
    apply bind_ok in Hrun as ([] & w1 & Hbody & Hrun).
    apply bind_ok in Hbody as (sx & w2 & Hsx & Hbody).
    apply lift_ok in Hsx as [Hsx ->]. apply index_ok in Hsx.
    apply bind_ok in Hbody as (ftn & w2 & Hft & Hbody).
    apply lift_ok in Hft as [Hft ->]. apply index_ok in Hft.
    apply bind_ok in Hbody as (v & w2 & Hv & Hbody).
    apply lift_ok in Hv as [Hv ->]. apply np_interp_checked_ok in Hv.
    unfold np.isub_row in Hbody.
    apply bind_ok in Hbody as (d0 & w2 & Hd0 & Hbody).
    apply deref_ok in Hd0 as [Hd0 ->].
    assert (d0 = d) as -> by congruence.
    apply bind_ok in Hbody as (row & w2 & Hrow & Hbody).
    apply lift_ok in Hrow as [Hrow ->]. apply index_ok in Hrow.
    apply bind_ok in Hbody as (row' & w2 & Hrow' & Hbody).
    apply lift_ok in Hrow' as [Hrow' ->]. apply iop_ok in Hrow'.
    apply store_ok in Hbody. subst w1 v row'.
    destruct (IH _ _ (<[n := np.bcast Qminus row (np_interp sx txs ftn)]> d)
                 Hnd Hrun) as (d' & Hheap & Hlen & Hin & Hout).
    { simpl. apply lookup_insert_eq. }
    exists d'. simpl in Hheap. rewrite insert_insert_eq in Hheap.
    split; [assumption|].
    split; [rewrite Hlen; apply length_insert|]. split.
    + intros n' [<- | Hn'].
      * exists row, sx, ftn. do 3 (split; [assumption|]).
        rewrite Hout by (intros Hx; apply Hn, list_elem_of_In; exact Hx).
        apply list_lookup_insert_eq. eapply lookup_lt_Some. eassumption.
      * destruct (Hin n' Hn') as (row1 & sx1 & ftn1 & Hr1 & Hs1 & Hf1 & Hd1).
        exists row1, sx1, ftn1. split; [|auto].
        rewrite list_lookup_insert_ne in Hr1; [assumption|].
        intros ->. apply Hn, list_elem_of_In. assumption.
    + intros n' Hn'.
      rewrite Hout by (intros ?; apply Hn'; right; assumption).
      apply list_lookup_insert_ne. intros ->. apply Hn'. left. reflexivity.
Qed.

Lemma copy_ok l w l' w' :
  np.copy l w = (Ok l', w') ->
  exists a, heap w !! l = Some a /\ heap w !! l' = None
            /\ w' = mkWorld (<[l' := a]> (heap w)) (stdout w).
Proof.
  unfold np.copy. intros Hrun.
  apply bind_ok in Hrun as (a & w1 & Ha & Hrun).
  apply deref_ok in Ha as [Ha ->]. unfold np.alloc in Hrun.
  injection Hrun as <- <-. exists a. split; [assumption|].
  split; [|reflexivity].
  apply not_elem_of_dom, is_fresh.
Qed.

(** The basis step of [initialize_template]: the component it returns has
    [full_template] as its full template. *)
Lemma basis_step_ok (c : Component.t) txs tys shifted ys c2 ft :
  Component.template_xs c = Some txs ->
  Component.template_ys c = Some tys ->
  (if (0 <? Component.K c)%nat then
     resids ← mapR (Component.resids_row txs tys shifted ys)
                   (seq 0 (length (Component.starting_rvs c)));
     let '(u, s, v) := svd resids in
     let basis_vectors := take (Component.K c) v in
     basis_weights ← np.binop2 Qmult (take (Component.K c) <$> u)
                                     [take (Component.K c) s];
     prod ← np.dot2 basis_weights basis_vectors;
     full_template ← np.iop2 Qplus
                       (replicate (length (Component.starting_rvs c)) tys)
                       prod;
     Ok (Component.set_basis basis_vectors basis_weights c, full_template)
   else Ok (c, replicate (length (Component.starting_rvs c)) tys))
  = Ok (c2, ft) ->
  full_template c2 = Ok ft
  /\ Component.template_xs c2 = Some txs
  /\ Component.starting_rvs c2 = Component.starting_rvs c.
Proof.
  intros Htxs Htys E. unfold full_template.
  destruct (0 <? Component.K c)%nat eqn:HK.
  - apply bindR_ok in E as (resids & _ & E).
    destruct (svd resids) as [[u s] v].
    apply bindR_ok in E as (bw & _ & E).
    apply bindR_ok in E as (prod & Hprod & E).
    apply bindR_ok in E as (ft' & Hft & E).
    injection E as <- <-.
    destruct c; simpl in *. subst.
    rewrite HK. simpl. rewrite Hprod. simpl. auto.
  - injection E as <- <-. rewrite Htys, HK. simpl. auto.
Qed.

Lemma set_template_read txs tys c :
  Component.template_xs (Component.set_template txs tys c) = Some txs
  /\ Component.template_ys (Component.set_template txs tys c) = Some tys
  /\ Component.starting_rvs (Component.set_template txs tys c)
     = Component.starting_rvs c
  /\ Component.K (Component.set_template txs tys c) = Component.K c.
Proof. destruct c. repeat split. Qed.

(** A successful [initialize_template], taken apart. *)
Lemma initialize_template_ok c lx ly li w c' l' w' :
  Component.initialize_template c lx ly li w = (Ok (c', l'), w') ->
  exists xs ys ivars shifted grid ft d',
    heap w !! lx = Some xs /\ heap w !! ly = Some ys
    /\ heap w !! li = Some ivars
    /\ np.binop2 Qplus xs (Component.log_doppler (Component.starting_rvs c))
       = Ok shifted
    /\ match Component.template_xs c with
       | None => Component.default_template_xs shifted
       | Some g => Ok g
       end = Ok grid
    /\ Component.template_xs c' = Some (bin_data shifted ys ivars grid).1
    /\ Component.starting_rvs c' = Component.starting_rvs c
    /\ full_template c' = Ok ft
    /\ heap w !! l' = None
    /\ heap w' = <[l' := d']> (heap w)
    /\ length d' = length ys
    /\ (forall n, (n < length (Component.starting_rvs c))%nat ->
          exists row sx ftn,
            ys !! n = Some row /\ shifted !! n = Some sx /\ ft !! n = Some ftn
            /\ d' !! n
               = Some (np.bcast Qminus row
                         (np_interp sx (bin_data shifted ys ivars grid).1 ftn)))
    /\ (forall n, (length (Component.starting_rvs c) <= n)%nat ->
          d' !! n = ys !! n).
Proof.
  unfold Component.initialize_template. intros Hrun.
  apply bind_ok in Hrun as (xs & w1 & Hxs & Hrun).
  apply deref_ok in Hxs as [Hxs ->].
  apply bind_ok in Hrun as (ys & w1 & Hys & Hrun).
  apply deref_ok in Hys as [Hys ->].
  apply bind_ok in Hrun as (ivars & w1 & Hiv & Hrun).
  apply deref_ok in Hiv as [Hiv ->].
  apply bind_ok in Hrun as (shifted & w1 & Hsh & Hrun).
  apply lift_ok in Hsh as [Hsh ->].
  apply bind_ok in Hrun as (grid & w1 & Hgrid & Hrun).
  apply lift_ok in Hgrid as [Hgrid ->].
  destruct (bin_data shifted ys ivars grid) as [txs tys] eqn:Hbin.
  destruct (set_template_read txs tys c) as (Htxs & Htys & Hrvs & HK).
  apply bind_ok in Hrun as ([c2 ft] & w1 & Hcf & Hrun).
  apply lift_ok in Hcf as [Hcf ->].
  apply (basis_step_ok _ _ _ _ _ _ _ Htxs Htys) in Hcf as (Hft & Htxs2 & Hrvs2).
  apply bind_ok in Hrun as (l & w1 & Hcopy & Hrun).
  apply copy_ok in Hcopy as (d & Hd & Hfresh & ->).
  assert (d = ys) as -> by congruence.
  apply bind_ok in Hrun as ([] & w2 & Hloop & Hrun).
  apply ret_ok in Hrun as [[= -> ->] ->].
  apply (resid_loop_ok _ _ _ _ _ _ _ ys) in Hloop
    as (d' & Hheap & Hlen & Hin & Hout);
    [|apply NoDup_seq | simpl; apply lookup_insert_eq].
  simpl in Hheap. rewrite insert_insert_eq in Hheap.
  exists xs, ys, ivars, shifted, grid, ft, d'. rewrite Hbin. simpl.
  do 5 (split; [assumption|]).
  split; [assumption|]. split; [congruence|].
  do 4 (split; [assumption|]). rewrite Hrvs in Hin, Hout. split.
  - intros n Hn. apply Hin, in_seq. lia.
  - intros n Hn. apply Hout. rewrite in_seq. lia.
Qed.

Lemma init_loop_chain lx li xs cs : forall ly w cs' lfin w' d,
  Model.init_loop cs lx ly li w = (Ok (cs', lfin), w') ->
  heap w !! lx = Some xs -> heap w !! ly = Some d ->
  Forall (fun c => length (Component.starting_rvs c) = length d) cs ->
  exists outs,
    length outs = length cs
    /\ forall i c, cs !! i = Some c ->
         exists c' din dout,
           cs' !! i = Some c' /\ (d :: outs) !! i = Some din
           /\ outs !! i = Some dout
           /\ initialises c xs din c' dout /\ is_residual c' xs din dout.
Proof.
  induction cs as [|c cs IH]; intros ly w cs' lfin w' d Hrun Hx Hd Hlen;
    simpl in Hrun.
  - apply ret_ok in Hrun as [_ _]. exists []. split; [reflexivity|].
    intros i c [=].
  - apply Forall_cons in Hlen as [Hc Hlen].
    apply bind_ok in Hrun as ([c1 l1] & w1 & Hfirst & Hrun).
    apply bind_ok in Hrun as ([rest l2] & w2 & Hrest & Hrun).
    apply ret_ok in Hrun as [[= -> ->] ->]. simpl in *.
    pose proof Hfirst as Hok.
    apply initialize_template_ok in Hok
      as (xs0 & ys0 & ivars & shifted & grid & ft & d1 & Hxs0 & Hys0 & _
          & Hsh & _ & Htxs & Hrvs & Hft & Hfresh & Hheap & Hlen1 & Hrows & _).
    assert (xs0 = xs) as -> by congruence.
    assert (ys0 = d) as -> by congruence.
    assert (Hl1 : heap w1 !! l1 = Some d1).
    { rewrite Hheap. apply lookup_insert_eq. }
    assert (Hx1 : heap w1 !! lx = Some xs).
    { rewrite Hheap, lookup_insert_ne by congruence. assumption. }
    destruct (IH l1 w1 rest l2 w2 d1 Hrest Hx1 Hl1) as (outs & Houts & Hchain).
    { eapply Forall_impl; [exact Hlen|]. simpl. intros; congruence. }
    exists (d1 :: outs). split; [simpl; congruence|].
    intros [|i] c0 Hc0; simpl in Hc0.
    + injection Hc0 as <-. exists c1, d, d1.
      do 3 (split; [reflexivity|]). split.
      * exists lx, ly, li, w, l1, w1. auto.
      * exists (bin_data shifted d ivars grid).1, shifted, ft.
        unfold shifted_xs. rewrite Hrvs.
        do 4 (split; [assumption|]).
        intros n row Hrow.
        destruct (Hrows n) as (row' & sx & ftn & Hrow' & Hsx & Hftn & Hd1).
        { rewrite Hc. eapply lookup_lt_Some. eassumption. }
        assert (row' = row) as -> by congruence. eauto.
    + destruct (Hchain i c0 Hc0) as (c' & din & dout & H1 & H2 & H3 & H4).
      exists c', din, dout. auto.
Qed.

(** C6. [initialize_templates] initialises the components in insertion
    order along a chain of residuals: the first component is handed (a copy
    of) the flux of the Data, and the data handed to the next component is
    the data handed to this one minus this component's full template (the
    base template, plus the basis correction when [K > 0]), interpolated
    for each epoch onto that epoch's coordinates. The components are taken
    to have one starting RV per epoch of the Data. *)
Theorem templates_initialised_along_residuals (m : Model.t) w m' w'
    lx ly xs ys :
  Model.initialize_templates m w = (Ok m', w') ->
  Data.xs (Model.data m) !! Model.r m = Some lx -> heap w !! lx = Some xs ->
  Data.ys (Model.data m) !! Model.r m = Some ly -> heap w !! ly = Some ys ->
  Forall (fun c => length (Component.starting_rvs c) = length ys)
         (Model.components m) ->
  exists handed : list mat,
    length handed = S (length (Model.components m))
    /\ handed !! 0%nat = Some ys
    /\ forall i c, Model.components m !! i = Some c ->
         exists c' d d',
           Model.components m' !! i = Some c'
           /\ handed !! i = Some d /\ handed !! S i = Some d'
           /\ initialises c xs d c' d'
           /\ is_residual c' xs d d'.
Proof.
  unfold Model.initialize_templates. intros Hrun Hlx Hxs Hly Hys Hlen.
  apply bind_ok in Hrun as (lx' & w1 & Hlx' & Hrun).
  apply lift_ok in Hlx' as [Hlx' ->]. apply index_ok in Hlx'.
  apply bind_ok in Hrun as (ly' & w1 & Hly' & Hrun).
  apply lift_ok in Hly' as [Hly' ->]. apply index_ok in Hly'.
  assert (lx' = lx) as -> by congruence.
  assert (ly' = ly) as -> by congruence.
  apply bind_ok in Hrun as (l0 & w1 & Hcopy & Hrun).
  apply copy_ok in Hcopy as (a & Ha & Hfresh & ->).
  assert (a = ys) as -> by congruence.
  apply bind_ok in Hrun as (li & w1 & Hli & Hrun).
  apply lift_ok in Hli as [Hli ->].
  apply bind_ok in Hrun as ([cs' lfin] & w2 & Hloop & Hrun).
  apply ret_ok in Hrun as [-> ->].
  apply (init_loop_chain _ _ xs _ _ _ _ _ _ ys) in Hloop
    as (outs & Houts & Hchain); [| | |assumption].
  - exists (ys :: outs). split; [simpl; congruence|].
    split; [reflexivity|].
    intros i c Hc. destruct (Hchain i c Hc) as (c' & d & d' & H1 & H2 & H3).
    exists c', d, d'. destruct m. simpl in *. auto.
  - simpl. rewrite lookup_insert_ne by congruence. assumption.
  - simpl. apply lookup_insert_eq.
Qed.

End ResidualChain.

(** ** The default template grid *)

Lemma fold_min_le l : forall x, fold_left Qmin l x <= x.
Proof.
  induction l as [|a l IH]; intros x; simpl; [lra|].
  pose proof (IH (Qmin x a)). pose proof (Q.le_min_l x a). lra.
Qed.

Lemma fold_max_ge l : forall x, x <= fold_left Qmax l x.
Proof.
  induction l as [|a l IH]; intros x; simpl; [lra|].
  pose proof (IH (Qmax x a)). pose proof (Q.le_max_l x a). lra.
Qed.

Lemma min_le_max a lo hi : np.min a = Ok lo -> np.max a = Ok hi -> lo <= hi.
Proof.
  unfold np.min, np.max. destruct (concat a) as [|x l]; [discriminate|].
  intros [= <-] [= <-].
  pose proof (fold_min_le l x). pose proof (fold_max_ge l x). lra.
Qed.

(** [np.arange] with a positive step over a non-empty range: it has a
    last point, which is the last one below [stop]. *)
Lemma arange_ok start stop step :
  0 < step -> start < stop ->
  exists k : nat,
    np.arange start stop step
    = (fun i => start + inject_Z (Z.of_nat i) * step) <$> seq 0 (S k)
    /\ start + inject_Z (Z.of_nat k) * step < stop
    /\ stop <= start + inject_Z (Z.of_nat (S k)) * step.
Proof.
  intros Hstep Hlt. unfold np.arange.
  set (q := (stop - start) / step).
  assert (Hq : q * step == stop - start) by (unfold q; field; lra).
  assert (Hqpos : 0 < q) by nra.
  pose proof (Qle_ceiling q) as Hup. pose proof (Qceiling_lt q) as Hlow.
  assert (Hc : (0 < Qceiling q)%Z).
  { apply Z.lt_nge. intros Hle.
    assert (inject_Z (Qceiling q) <= 0).
    { change 0 with (inject_Z 0). rewrite <- Zle_Qle. exact Hle. }
    lra. }
  exists (Z.to_nat (Qceiling q - 1)).
  replace (S (Z.to_nat (Qceiling q - 1))) with (Z.to_nat (Qceiling q)) by lia.
  split; [reflexivity|].
  rewrite !Z2Nat.id by lia. split; nra.
Qed.

Section DefaultGrid.
Context `{Numerics}.

Lemma arange_uniform start stop step :
  0 < step -> start < stop ->
  exists last_,
    uniform_grid (np.arange start stop step) step
                 (start + inject_Z 0 * step) last_
    /\ last_ < stop /\ stop <= last_ + step.
Proof.
  intros Hstep Hlt.
  destruct (arange_ok start stop step Hstep Hlt) as (k & -> & Hk & HSk).
  exists (start + inject_Z (Z.of_nat k) * step).
  split; [|split; [assumption|]].
  - split; [reflexivity|]. split; [|split].
    + rewrite seq_S, fmap_app. simpl. apply last_snoc.
    + intros i x y Hx Hy.
      rewrite list_lookup_fmap in Hx, Hy.
      destruct (seq 0 (S k) !! i) as [a|] eqn:Ha; [|discriminate].
      destruct (seq 0 (S k) !! S i) as [b|] eqn:Hb; [|discriminate].
      apply lookup_seq in Ha as [-> _]. apply lookup_seq in Hb as [-> _].
      injection Hx as <-. injection Hy as <-. simpl.
      rewrite Nat2Z.inj_succ, <- Z.add_1_r, inject_Z_plus. ring.
    + apply Forall_fmap, Forall_forall. intros i Hi.
      apply elem_of_seq in Hi. simpl.
      assert (Hi0 : inject_Z 0 <= inject_Z (Z.of_nat i))
        by (rewrite <- Zle_Qle; lia).
      assert (Hik : inject_Z (Z.of_nat i) <= inject_Z (Z.of_nat k))
        by (rewrite <- Zle_Qle; lia).
      split; nra.
  - rewrite Nat2Z.inj_succ, <- Z.add_1_r, inject_Z_plus in HSk.
    change (inject_Z 1) with 1 in HSk. lra.
Qed.

(** C9, as the code has it. When [initialize_template] is given no
    template grid, the grid it builds and hands to [bin_data] is
    [np.arange(lo - 10*dx, hi + 10*dx, dx)], where [lo] and [hi] are the
    minimum and the maximum of the Doppler-shifted data coordinates and
    [dx = 2*(log(6000.01) - log(6000))], taken positive: a grid of uniform
    spacing [dx] that starts exactly [10*dx] below [lo] and ends at its
    last point below [hi + 10*dx], which is at least [9*dx] and less than
    [10*dx] above [hi]. *)
Theorem default_template_grid_extent c lx ly li w c' l' w' :
  log 6000 < log (600001 # 100) ->
  Component.initialize_template c lx ly li w = (Ok (c', l'), w') ->
  Component.template_xs c = None ->
  exists xs ys ivars shifted lo hi first last_,
    let dx := 2 * (log (600001 # 100) - log 6000) in
    let g := np.arange (lo - 10 * dx) (hi + 10 * dx) dx in
    heap w !! lx = Some xs /\ heap w !! ly = Some ys
    /\ heap w !! li = Some ivars
    /\ np.binop2 Qplus xs (Component.log_doppler (Component.starting_rvs c))
       = Ok shifted
    /\ np.min shifted = Ok lo /\ np.max shifted = Ok hi
    /\ Component.template_xs c' = Some (bin_data shifted ys ivars g).1
    /\ uniform_grid g dx first last_
    /\ first == lo - 10 * dx
    /\ hi + 9 * dx <= last_ /\ last_ < hi + 10 * dx
    /\ first < lo /\ hi < last_.
Proof.
  intros Hlog Hrun Hnone.
  apply initialize_template_ok in Hrun
    as (xs & ys & ivars & shifted & grid & ft & d' & Hxs & Hys & Hiv & Hsh
        & Hgrid & Htxs & _).
  rewrite Hnone in Hgrid. unfold Component.default_template_xs in Hgrid.
  apply bindR_ok in Hgrid as (lo & Hlo & Hgrid).
  apply bindR_ok in Hgrid as (hi & Hhi & Hgrid).
  injection Hgrid as <-.
  unfold Component.tiny, Component.dx in *.
  set (dx := 2 * (log (600001 # 100) - log 6000)) in *.
  assert (Hdx : 0 < dx) by (unfold dx; lra).
  pose proof (min_le_max _ _ _ Hlo Hhi) as Hle.
  destruct (arange_uniform (lo - 10 * dx) (hi + 10 * dx) dx Hdx)
    as (last_ & Hgrid & Hlast & Hstop); [lra|].
  exists xs, ys, ivars, shifted, lo, hi,
    (lo - 10 * dx + inject_Z 0 * dx), last_.
  cbv zeta. fold dx.
  do 6 (split; [assumption|]). split; [assumption|]. split; [assumption|].
  change (inject_Z 0) with 0. repeat split; lra.
Qed.

End DefaultGrid.

(** ** The forward model *)

Lemma bcast_same_length {A B C} (f : A -> B -> C) a b :
  length a = length b -> np.bcast f a b = zip_with f a b.
Proof.
  unfold np.bcast. intros Hlen.
  destruct a as [|x [|x' a]], b as [|y [|y' b]]; simpl in *;
    try discriminate; reflexivity.
Qed.

Lemma bcast_scalar_r {A B C} (f : A -> B -> C) a y :
  np.bcast f a [y] = (fun x => f x y) <$> a.
Proof. destruct a as [|x [|x' a]]; reflexivity. Qed.

Lemma bcast_scalar_l {A B C} (f : A -> B -> C) x b :
  np.bcast f [x] b = f x <$> b.
Proof. reflexivity. Qed.

Section ForwardModel.
Context `{Numerics}.

(** Row [n] of [synth] before the airmass is applied. *)
Lemma synth_tensor_row K data_xs airms txs v n xrow rv t :
  length (Vars.rvs v) = length data_xs ->
  data_xs !! n = Some xrow -> Vars.rvs v !! n = Some rv ->
  epoch_template K v n = Some t ->
  Component.synth_tensor K false data_xs airms txs v !! n
  = Some (interp_kernel (shifted_row xrow rv) txs t).
Proof.
  intros Hlen Hx Hrv Ht. unfold Component.synth_tensor.
  set (shifted := np.bcast _ data_xs _).
  assert (Hsh : shifted !! n = Some (shifted_row xrow rv)).
  { unfold shifted, Component.log_doppler, np.column.
    rewrite bcast_same_length by (rewrite !length_fmap; congruence).
    rewrite lookup_zip_with, Hx, !list_lookup_fmap, Hrv. simpl.
    rewrite bcast_scalar_r. reflexivity. }
  assert (Hn : (n < length shifted)%nat)
    by (eapply lookup_lt_Some; eassumption).
  unfold epoch_template in Ht. unfold Component.interp, Component.expand_inner.
  destruct (K =? 0)%nat.
  - injection Ht as <-.
    rewrite lookup_zip_with, Hsh. simpl.
    rewrite lookup_zip_with, !lookup_replicate_2 by assumption. reflexivity.
  - rewrite bcast_scalar_l.
    destruct (np.matmul _ _ !! n) as [wv|] eqn:Hwv; [|discriminate].
    injection Ht as <-.
    rewrite lookup_zip_with, Hsh. simpl.
    rewrite lookup_zip_with, lookup_replicate_2 by assumption. simpl.
    rewrite list_lookup_fmap, Hwv. reflexivity.
Qed.

(** C2, as the code has it. After [Component.setup], for every value [v]
    of the variables with one RV per epoch of the data, and every epoch
    [n]: with [shifted_xs[n] = data_xs[n] + log(doppler(rvs[n]))], row [n]
    of [synth] is the interpolation of [(template_xs, t)] at
    [shifted_xs[n]], where [t] is [template_ys] if [K = 0] and
    [template_ys + (basis_weights . basis_vectors)[n]] if [K > 0] -- and,
    when the component has [scale_by_airmass], that row multiplied by the
    airmass of epoch [n]. *)
Theorem synth_is_interpolated_template c data r w c' w' :
  Component.setup c data r w = (Ok c', w') ->
  exists lx data_xs txs synth,
    Data.xs data !! r = Some lx /\ heap w !! lx = Some data_xs
    /\ Component.template_xs c = Some txs
    /\ Component.synth c' = Some synth
    /\ forall v n xrow rv t,
         length (Vars.rvs v) = length data_xs ->
         data_xs !! n = Some xrow -> Vars.rvs v !! n = Some rv ->
         epoch_template (Component.K c) v n = Some t ->
         if Component.scale_by_airmass c
         then forall a, Data.airms data !! n = Some a ->
                synth v !! n
                = Some (Qmult a <$> interp_kernel (shifted_row xrow rv) txs t)
         else synth v !! n = Some (interp_kernel (shifted_row xrow rv) txs t).
Proof.
  intros Hrun.
  apply component_setup_ok in Hrun
    as (_ & v0 & txs & lx & xs & L1 & L2 & regs & _ & Htxs & Hlx & Hxs & _ & _
        & _ & ->).
  exists lx, xs, txs. eexists.
  do 3 (split; [assumption|]).
  split; [apply set_graph_read|].
  intros v n xrow rv t Hlen Hx Hrv Ht.
  pose proof (synth_tensor_row _ _ (Data.airms data) txs _ _ _ _ _
                Hlen Hx Hrv Ht) as Hrow.
  destruct (Component.scale_by_airmass c); [|exact Hrow].
  intros a Ha.
  change (Component.synth_tensor (Component.K c) true xs (Data.airms data)
                                 txs v)
    with (zip_with (fun a (row : vec) => Qmult a <$> row) (Data.airms data)
            (Component.synth_tensor (Component.K c) false xs
                                    (Data.airms data) txs v)).
  rewrite lookup_zip_with, Ha, Hrow. reflexivity.
Qed.

End ForwardModel.

(** ** The objective *)

Lemma sum_app a b : np.sum (a ++ b) == np.sum a + np.sum b.
Proof. induction a as [|x a IH]; simpl; [ring | rewrite IH; ring]. Qed.

Lemma Sum_ext k f g : (forall i, (i < k)%nat -> f i == g i) -> Sum k f == Sum k g.
Proof.
  intros Hfg. unfold Sum. apply sum_Qeq.
  apply Forall2_fmap, Forall_Forall2_diag, Forall_forall.
  intros i Hi. apply elem_of_seq in Hi. apply Hfg. lia.
Qed.

Lemma sum_indexed (v : vec) : np.sum v == Sum (length v) (fun j => nth j v 0).
Proof.
  induction v as [|x v IH] using rev_ind; [reflexivity|].
  rewrite sum_app, length_app. simpl. rewrite Nat.add_1_r.
  unfold Sum. rewrite seq_S, fmap_app, sum_app. simpl.
  rewrite app_nth2, Nat.sub_diag by lia. simpl.
  rewrite IH. apply Qplus_comp; [|reflexivity].
  apply Sum_ext. intros i Hi. rewrite app_nth1 by lia. reflexivity.
Qed.

Lemma sum2_indexed N M (a : mat) :
  has_shape N M a ->
  np.sum2 a == Sum N (fun n => Sum M (fun j => entry a n j)).
Proof.
  intros [<- Hrows]. unfold np.sum2. rewrite sum_indexed, length_fmap.
  apply Sum_ext. intros n Hn.
  destruct (lookup_lt_is_Some_2 a n Hn) as [row Hrow].
  assert (Hlen : length row = M).
  { rewrite Forall_forall in Hrows. apply Hrows.
    eapply list_elem_of_lookup_2. eassumption. }
  unfold entry.
  rewrite (nth_lookup_Some _ _ _ _ Hrow).
  rewrite (nth_lookup_Some (np.sum <$> a) n 0 (np.sum row))
    by (rewrite list_lookup_fmap, Hrow; reflexivity).
  rewrite sum_indexed, Hlen. reflexivity.
Qed.

Lemma has_shape_lookup R C a n :
  has_shape R C a -> (n < R)%nat -> exists row, a !! n = Some row /\ length row = C.
Proof.
  intros [<- Hrows] Hn. destruct (lookup_lt_is_Some_2 a n Hn) as [row Hrow].
  exists row. split; [assumption|].
  rewrite Forall_forall in Hrows. apply Hrows.
  eapply list_elem_of_lookup_2. eassumption.
Qed.

Lemma entry_lookup a n j row x :
  a !! n = Some row -> row !! j = Some x -> entry a n j = x.
Proof.
  intros Hrow Hx. unfold entry.
  rewrite (nth_lookup_Some _ _ _ _ Hrow). apply nth_lookup_Some. assumption.
Qed.

Lemma bcast2_shape f R C a b :
  has_shape R C a -> has_shape R C b ->
  has_shape R C (np.bcast (np.bcast f) a b)
  /\ forall n j, (n < R)%nat -> (j < C)%nat ->
       entry (np.bcast (np.bcast f) a b) n j = f (entry a n j) (entry b n j).
Proof.
  intros Ha Hb.
  assert (Hlen : length a = length b) by (destruct Ha, Hb; congruence).
  rewrite bcast_same_length by assumption. split.
  - split.
    + rewrite length_zip_with. destruct Ha, Hb. lia.
    + apply Forall_forall. intros row Hrow.
      apply list_elem_of_lookup_1 in Hrow as [n Hn].
      apply lookup_zip_with_Some in Hn as (ra & rb & -> & Hra & Hrb).
      assert (Hn : (n < R)%nat)
        by (destruct Ha as [<- _]; eapply lookup_lt_Some; eassumption).
      destruct (has_shape_lookup _ _ _ _ Ha Hn) as (ra' & Hra' & Hla).
      destruct (has_shape_lookup _ _ _ _ Hb Hn) as (rb' & Hrb' & Hlb).
      assert (ra' = ra) as -> by congruence.
      assert (rb' = rb) as -> by congruence.
      rewrite bcast_same_length by congruence.
      rewrite length_zip_with. lia.
  - intros n j Hn Hj.
    destruct (has_shape_lookup _ _ _ _ Ha Hn) as (ra & Hra & Hla).
    destruct (has_shape_lookup _ _ _ _ Hb Hn) as (rb & Hrb & Hlb).
    destruct (lookup_lt_is_Some_2 ra j) as [x Hx]; [lia|].
    destruct (lookup_lt_is_Some_2 rb j) as [y Hy]; [lia|].
    rewrite (entry_lookup _ _ _ _ _ Hra Hx), (entry_lookup _ _ _ _ _ Hrb Hy).
    apply (entry_lookup _ _ _ (np.bcast f ra rb)).
    + rewrite lookup_zip_with, Hra, Hrb. reflexivity.
    + rewrite bcast_same_length by congruence.
      rewrite lookup_zip_with, Hx, Hy. reflexivity.
Qed.

Lemma map2_shape (g : Q -> Q) R C (a : mat) :
  has_shape R C a ->
  has_shape R C ((fun row : vec => g <$> row) <$> a)
  /\ forall n j, (n < R)%nat -> (j < C)%nat ->
       entry ((fun row : vec => g <$> row) <$> a) n j = g (entry a n j).
Proof.
  intros Ha. split.
  - destruct Ha as [Hl Hrows]. split; [rewrite length_fmap; assumption|].
    apply Forall_fmap. eapply Forall_impl; [exact Hrows|].
    intros row Hrow. simpl. rewrite length_fmap. assumption.
  - intros n j Hn Hj.
    destruct (has_shape_lookup _ _ _ _ Ha Hn) as (ra & Hra & Hla).
    destruct (lookup_lt_is_Some_2 ra j) as [x Hx]; [lia|].
    rewrite (entry_lookup _ _ _ _ _ Hra Hx).
    apply (entry_lookup _ _ _ (g <$> ra)).
    + rewrite list_lookup_fmap, Hra. reflexivity.
    + rewrite list_lookup_fmap, Hx. reflexivity.
Qed.

Section Objective.
Context `{Numerics} `{Runtime}.

Lemma misfit_indexed R C ys ivars synth :
  has_shape R C ys -> has_shape R C ivars -> has_shape R C synth ->
  Model.misfit ys ivars synth
  == (1 # 2) * Sum R (fun n => Sum C (fun j =>
       entry ivars n j * (entry ys n j - entry synth n j) ^ 2)).
Proof.
  intros Hys Hiv Hsy. unfold Model.misfit.
  destruct (bcast2_shape Qminus _ _ _ _ Hys Hsy) as [Hd Hde].
  destruct (map2_shape (fun d => d ^ 2) _ _ _ Hd) as [Hs Hse].
  destruct (bcast2_shape Qmult _ _ _ _ Hs Hiv) as [Hm Hme].
  rewrite (sum2_indexed _ _ _ Hm).
  apply Qmult_comp; [reflexivity|].
  apply Sum_ext. intros n Hn. apply Sum_ext. intros j Hj.
  rewrite Hme, Hse, Hde by assumption. ring.
Qed.

Lemma zeros2_shape R C :
  has_shape R C (np.zeros2 R C)
  /\ forall n j, (n < R)%nat -> (j < C)%nat -> entry (np.zeros2 R C) n j = 0.
Proof.
  unfold np.zeros2, np.zeros. split.
  - split; [apply length_replicate|].
    apply Forall_replicate. apply length_replicate.
  - intros n j Hn Hj. apply (entry_lookup _ _ _ (replicate C 0)).
    + apply lookup_replicate_2. assumption.
    + apply lookup_replicate_2. assumption.
Qed.

Lemma add_synths_indexed R C synths : forall vars zero,
  has_shape R C zero ->
  Forall (fun sv : (Vars.t -> mat) * Vars.t => has_shape R C (sv.1 sv.2))
         (zip synths vars) ->
  has_shape R C (Model.add_synths synths zero vars)
  /\ forall n j, (n < R)%nat -> (j < C)%nat ->
       entry (Model.add_synths synths zero vars) n j
       == entry zero n j
          + np.sum ((fun sv : (Vars.t -> mat) * Vars.t => entry (sv.1 sv.2) n j)
                      <$> zip synths vars).
Proof.
  unfold Model.add_synths.
  intros vars. generalize (zip synths vars). clear synths vars.
  intros l. induction l as [|sv l IH]; intros zero Hz Hall; csimpl.
  - split; [assumption|]. intros n j _ _. simpl. lra.
  - apply Forall_cons in Hall as [Hsv Hall].
    destruct (bcast2_shape Qplus _ _ _ _ Hz Hsv) as [Hacc Hacce].
    destruct (IH _ Hacc Hall) as [Hshape Hentry].
    split; [assumption|]. intros n j Hn Hj.
    rewrite Hentry, Hacce by assumption. ring.
Qed.

Lemma add_nlls_sum nlls : forall vars acc,
  Model.add_nlls nlls acc vars
  == acc + np.sum ((fun sv : (Vars.t -> Q) * Vars.t => sv.1 sv.2)
                     <$> zip nlls vars).
Proof.
  unfold Model.add_nlls.
  intros vars. generalize (zip nlls vars). clear nlls vars.
  intros l. induction l as [|sv l IH]; intros acc; csimpl; [ring|].
  rewrite IH. ring.
Qed.

Lemma getattr_ok c par x :
  Component.getattr c par = Ok x -> default 0 (Component.attrs c !! par) = x.
Proof.
  unfold Component.getattr. destruct (Component.attrs c !! par); simpl; congruence.
Qed.

Lemma set_graph_attrs sy nl c :
  Component.attrs (Component.set_graph sy nl c) = Component.attrs c
  /\ Component.K (Component.set_graph sy nl c) = Component.K c.
Proof. destruct c. split; reflexivity. Qed.

Lemma setup_nll_regularization c data r w c' w' :
  Component.setup c data r w = (Ok c', w') ->
  exists nl, Component.nll c' = Some nl
             /\ forall v, nl v == regularization c' v.
Proof.
  intros Hrun.
  apply component_setup_ok in Hrun
    as (_ & v0 & txs & lx & xs & L1 & L2 & regs & _ & _ & _ & _ & HL1 & HL2
        & Hregs & ->).
  eexists. split; [apply set_graph_read|].
  intros v. unfold regularization.
  destruct (set_graph_attrs
    (Component.synth_tensor (Component.K c) (Component.scale_by_airmass c)
       xs (Data.airms data) txs)
    (Component.nll_tensor (Component.K c) L1 L2 regs.1.1 regs.1.2 regs.2) c)
    as [-> ->].
  unfold Component.nll_tensor.
  rewrite (getattr_ok _ _ _ HL1), (getattr_ok _ _ _ HL2).
  destruct (0 <? Component.K c)%nat.
  - destruct Hregs as (Ha & Hb & Hd).
    rewrite (getattr_ok _ _ _ Ha), (getattr_ok _ _ _ Hb),
      (getattr_ok _ _ _ Hd).
    cbv zeta. ring.
  - cbv zeta. ring.
Qed.

Lemma sum_regularization cs nlls :
  Forall2 (fun (c : Component.t) (nl : Vars.t -> Q) =>
             forall v, nl v == regularization c v) cs nlls ->
  forall vars,
    np.sum ((fun sv : (Vars.t -> Q) * Vars.t => sv.1 sv.2) <$> zip nlls vars)
    == np.sum ((fun cv : Component.t * Vars.t => regularization cv.1 cv.2)
                 <$> zip cs vars).
Proof.
  induction 1 as [|c nl cs nlls Hc _ IH]; intros vars; [reflexivity|].
  destruct vars as [|v vars]; [reflexivity|]. csimpl.
  rewrite Hc, IH. reflexivity.
Qed.

(** C1. After [Model.setup], at any values of the variables for which the
    tensors have the shape [N x M] of the data, the objective [nll] is
    0.5 times the sum over epochs [n] and pixels [j] of
    [ivars[n,j] * (ys[n,j] - sum over components of synth_c[n,j])^2],
    plus, for every component,
    [L1_template*sum(|template_ys|) + L2_template*sum(template_ys^2)] and,
    when its [K > 0],
    [L1_basis_vectors*sum(|basis_vectors|)
     + L2_basis_vectors*sum(basis_vectors^2)
     + L2_basis_weights*sum(basis_weights^2)]. *)
Theorem objective_is_misfit_plus_regularization (m : Model.t) w m' w' :
  Model.setup m w = (Ok m', w') ->
  exists lx ly li xs ys ivars nll synths,
    Data.xs (Model.data m') !! Model.r m' = Some lx
    /\ Data.ys (Model.data m') !! Model.r m' = Some ly
    /\ Data.ivars (Model.data m') !! Model.r m' = Some li
    /\ heap w' !! lx = Some xs /\ heap w' !! ly = Some ys
    /\ heap w' !! li = Some ivars
    /\ Model.nll m' = Some nll
    /\ Forall2 (fun c s => Component.synth c = Some s)
               (Model.components m') synths
    /\ forall vars,
         has_shape (length xs) (np.ncols xs) ys ->
         has_shape (length xs) (np.ncols xs) ivars ->
         Forall (fun sv : (Vars.t -> mat) * Vars.t =>
                   has_shape (length xs) (np.ncols xs) (sv.1 sv.2))
                (zip synths vars) ->
         nll vars
         == (1 # 2)
            * Sum (length xs) (fun n => Sum (np.ncols xs) (fun j =>
                entry ivars n j
                * (entry ys n j
                   - np.sum ((fun sv : (Vars.t -> mat) * Vars.t =>
                                entry (sv.1 sv.2) n j) <$> zip synths vars))
                  ^ 2))
            + np.sum ((fun cv : Component.t * Vars.t =>
                         regularization cv.1 cv.2)
                        <$> zip (Model.components m') vars).
Proof.
  intros Hrun.
  apply setup_ok in Hrun
    as (m1 & cs & synths & nlls & vars0 & lx & ly & li & xs & ys & ivars
        & _ & Hlx & Hly & Hli & Hxs & Hys & Hiv & Hcs & Hsy & Hnl & _ & ->).
  simpl. exists lx, ly, li, xs, ys, ivars. eexists. exists synths.
  do 6 (split; [assumption|]). split; [reflexivity|].
  split.
  { apply mapR_ok in Hsy. eapply Forall2_impl; [exact Hsy|].
    intros c s Hs. apply attr_ok in Hs. exact Hs. }
  intros vars Hshy Hshi Hshs.
  assert (Hreg : Forall2 (fun (c : Component.t) (nl : Vars.t -> Q) =>
                            forall v, nl v == regularization c v) cs nlls).
  { apply mapR_ok in Hnl.
    apply Forall2_same_length_lookup_2;
      [eapply Forall2_length; eassumption|].
    intros i c nl Hc Hnli.
    destruct (Forall2_lookup_r _ _ _ _ _ Hcs Hc) as (c0 & _ & Hsetup).
    apply setup_nll_regularization in Hsetup as (nl' & Hnl' & Heq).
    pose proof (Forall2_lookup_lr _ _ _ _ _ _ Hnl Hc Hnli) as Hattr.
    apply attr_ok in Hattr. assert (nl' = nl) as -> by congruence.
    exact Heq. }
  rewrite add_nlls_sum, (sum_regularization _ _ Hreg).
  apply Qplus_comp; [|reflexivity].
  destruct (zeros2_shape (length xs) (np.ncols xs)) as [Hz Hze].
  destruct (add_synths_indexed _ _ synths vars _ Hz Hshs) as [Hs Hse].
  rewrite (misfit_indexed _ _ _ _ _ Hshy Hshi Hs).
  apply Qmult_comp; [reflexivity|].
  apply Sum_ext. intros n Hn. apply Sum_ext. intros j Hj.
  rewrite Hse, Hze by assumption. ring.
Qed.

End Objective.

(** * Further properties *)

(** ** Constructing components *)

Lemma setattr_attrs par v c :
  Component.attrs (Component.setattr par v c) = <[par := v]> (Component.attrs c)
  /\ config_of (Component.setattr par v c) = config_of c.
Proof. destruct c. split; reflexivity. Qed.

Lemma foldl_setattr_attrs (f : string -> Q) pars : forall c p,
  Component.attrs (foldl (fun c par => Component.setattr par (f par) c) c pars)
    !! p
  = if decide (p ∈ pars) then Some (f p) else Component.attrs c !! p.
Proof.
  induction pars as [|q pars IH]; intros c p; csimpl.
  - destruct (decide (p ∈ [])) as [Hin|_]; [|reflexivity].
    apply elem_of_nil in Hin as [].
  - rewrite IH. rewrite (proj1 (setattr_attrs _ _ _)).
    destruct (decide (p ∈ pars)) as [Hin|Hnin];
      destruct (decide (p ∈ q :: pars)) as [Hin'|Hnin']; try reflexivity.
    + exfalso. apply Hnin'. right. assumption.
    + apply elem_of_cons in Hin' as [->|?]; [|contradiction].
      apply lookup_insert_eq.
    + apply lookup_insert_ne. intros ->. apply Hnin'. left.
Qed.

Lemma foldl_setattr_config (f : string -> Q) pars : forall c,
  config_of (foldl (fun c par => Component.setattr par (f par) c) c pars)
  = config_of c.
Proof.
  induction pars as [|q pars IH]; intros c; simpl; [reflexivity|].
  rewrite IH. apply setattr_attrs.
Qed.

Lemma load_regularization_config f r pars : forall c,
  config_of (Component.load_regularization f r pars c).1 = config_of c.
Proof.
  induction pars as [|p pars IH]; intros c; simpl; [reflexivity|].
  destruct (f !! p) as [ds|]; [|reflexivity].
  destruct (ds !! r); [|reflexivity].
  rewrite IH. apply setattr_attrs.
Qed.

Lemma load_regularization_other f r pars p : forall c,
  p ∉ pars ->
  Component.attrs (Component.load_regularization f r pars c).1 !! p
  = Component.attrs c !! p.
Proof.
  induction pars as [|q pars IH]; intros c Hp; simpl; [reflexivity|].
  apply not_elem_of_cons in Hp as [Hne Hp].
  destruct (f !! q) as [ds|]; [|reflexivity].
  destruct (ds !! r); [|reflexivity].
  rewrite IH by assumption.
  rewrite (proj1 (setattr_attrs _ _ _)). apply lookup_insert_ne. congruence.
Qed.

(** Reading every parameter of [pars] from the file succeeds exactly when
    the file has a value for each at order [r]; the parameters then hold
    the file's values. *)
Lemma load_regularization_all f r pars : forall c,
  (forall p, p ∈ pars -> exists ds v, f !! p = Some ds /\ ds !! r = Some v) ->
  (Component.load_regularization f r pars c).2 = true
  /\ forall p, p ∈ pars ->
       Component.attrs (Component.load_regularization f r pars c).1 !! p
       = f !! p ≫= (.!! r).
Proof.
  induction pars as [|q pars IH]; intros c Hall; simpl.
  - split; [reflexivity|]. intros p Hp. apply elem_of_nil in Hp as [].
  - destruct (Hall q) as (ds & v & Hds & Hv); [left|].
    rewrite Hds, Hv.
    destruct (IH (Component.setattr q v c)) as [Hok Hval].
    { intros p Hp. apply Hall. right. assumption. }
    split; [assumption|]. intros p Hp.
    destruct (decide (p ∈ pars)) as [Hin|Hnin]; [auto|].
    apply elem_of_cons in Hp as [->|Hp]; [|contradiction].
    rewrite load_regularization_other by assumption.
    rewrite (proj1 (setattr_attrs _ _ _)), lookup_insert_eq, Hds. simpl.
    symmetry. assumption.
Qed.

Lemma init_unfold name r rvs kw w :
  Component.init name r rvs kw w
  = match Kwargs.regularization_par_file kw with
    | None => (Ok (from_keywords name r rvs kw), w)
    | Some (file, Some f) =>
        let cl := Component.load_regularization f r
                    (parameter_names (default 0%nat (Kwargs.variable_bases kw)))
                    (from_keywords name r rvs kw) in
        (Ok cl.1,
         if cl.2 then w
         else mkWorld (heap w) (stdout w ++ [MsgRegFileNotRecognized file]))
    | Some (file, None) =>
        (Ok (from_keywords name r rvs kw),
         mkWorld (heap w) (stdout w ++ [MsgRegFileNotRecognized file]))
    end.
Proof.
  unfold Component.init, from_keywords, parameter_names.
  destruct (Kwargs.regularization_par_file kw) as [[file [f|]]|];
    try reflexivity.
  destruct (0 <? default 0%nat (Kwargs.variable_bases kw))%nat; cbn [app];
    match goal with
    | |- context [Component.load_regularization ?a ?b ?c ?d] =>
        destruct (Component.load_regularization a b c d) as [c' []]
    end; reflexivity.
Qed.

Lemma from_keywords_config name r rvs kw :
  config_of (from_keywords name r rvs kw)
  = (default 0%nat (Kwargs.variable_bases kw),
     default false (Kwargs.rvs_fixed kw),
     default false (Kwargs.scale_by_airmass kw),
     (default 10 (Kwargs.learning_rate_rvs kw),
      default (1 # 100) (Kwargs.learning_rate_template kw),
      default (1 # 100) (Kwargs.learning_rate_basis kw)),
     Kwargs.template_xs kw,
     parameter_names (default 0%nat (Kwargs.variable_bases kw))).
Proof. unfold from_keywords. rewrite foldl_setattr_config. reflexivity. Qed.

Lemma from_keywords_getattr name r rvs kw par :
  Component.getattr (from_keywords name r rvs kw) par
  = if decide (par ∈ parameter_names (default 0%nat (Kwargs.variable_bases kw)))
    then Ok (Component.eval kw par) else Raise AttributeError.
Proof.
  unfold Component.getattr, from_keywords.
  rewrite foldl_setattr_attrs. destruct (decide _); reflexivity.
Qed.

Lemma init_config name r rvs kw w c w' :
  Component.init name r rvs kw w = (Ok c, w') ->
  config_of c = config_of (from_keywords name r rvs kw).
Proof.
  rewrite init_unfold.
  destruct (Kwargs.regularization_par_file kw) as [[file [f|]]|].
  - intros [= <- _]. apply load_regularization_config.
  - intros [= <- _]. reflexivity.
  - intros [= <- _]. reflexivity.
Qed.

(** X1. [Component.__init__] without a regularisation file, or with one
    that cannot be opened: the regularisation parameters are the keyword
    values, with defaults 0, 0, 0, 0 and 1; a component with [K = 0] has
    no basis parameters at all, whatever keywords were passed for them.
    An unopenable file costs a printed message and nothing else. *)
Theorem init_parameters_from_keywords name r rvs kw w :
  (Kwargs.regularization_par_file kw = None
   \/ exists file, Kwargs.regularization_par_file kw = Some (file, None)) ->
  exists c,
    Component.init name r rvs kw w
    = (Ok c,
       match Kwargs.regularization_par_file kw with
       | Some (file, _) =>
           mkWorld (heap w) (stdout w ++ [MsgRegFileNotRecognized file])
       | None => w
       end)
    /\ Component.K c = default 0%nat (Kwargs.variable_bases kw)
    /\ Component.getattr c "L1_template"
       = Ok (default 0 (Kwargs.L1_template kw))
    /\ Component.getattr c "L2_template"
       = Ok (default 0 (Kwargs.L2_template kw))
    /\ match Component.K c with
       | O =>
           Component.getattr c "L1_basis_vectors" = Raise AttributeError
           /\ Component.getattr c "L2_basis_vectors" = Raise AttributeError
           /\ Component.getattr c "L2_basis_weights" = Raise AttributeError
       | S _ =>
           Component.getattr c "L1_basis_vectors"
           = Ok (default 0 (Kwargs.L1_basis_vectors kw))
           /\ Component.getattr c "L2_basis_vectors"
              = Ok (default 0 (Kwargs.L2_basis_vectors kw))
           /\ Component.getattr c "L2_basis_weights"
              = Ok (default 1 (Kwargs.L2_basis_weights kw))
       end.
Proof.
  intros Hfile. exists (from_keywords name r rvs kw).
  split.
  { rewrite init_unfold. destruct Hfile as [-> | [file ->]]; reflexivity. }
  pose proof (from_keywords_config name r rvs kw) as Hcfg.
  unfold config_of in Hcfg. injection Hcfg as HK _ _ _ _ _ _ _.
  split; [assumption|].
  rewrite HK, !from_keywords_getattr. unfold parameter_names.
  destruct (default 0%nat (Kwargs.variable_bases kw)); simpl;
    repeat split; reflexivity.
Qed.

(** X2. [Component.__init__] with a regularisation file that has a value
    for every parameter of the component at its order: each parameter
    takes the file's value, overriding the keyword, and nothing is
    printed. *)
Theorem init_parameters_from_file name r rvs kw w file f :
  Kwargs.regularization_par_file kw = Some (file, Some f) ->
  (forall p, p ∈ parameter_names (default 0%nat (Kwargs.variable_bases kw)) ->
     exists ds v, f !! p = Some ds /\ ds !! r = Some v) ->
  exists c,
    Component.init name r rvs kw w = (Ok c, w)
    /\ forall p ds v,
         p ∈ parameter_names (default 0%nat (Kwargs.variable_bases kw)) ->
         f !! p = Some ds -> ds !! r = Some v ->
         Component.getattr c p = Ok v.
Proof.
  intros Hfile Hall. rewrite init_unfold, Hfile.
  destruct (load_regularization_all f r _ (from_keywords name r rvs kw) Hall)
    as [Hok Hval].
  eexists. cbv zeta. rewrite Hok. split; [reflexivity|].
  intros p ds v Hp Hds Hv. unfold Component.getattr.
  rewrite (Hval p Hp), Hds. simpl. rewrite Hv. reflexivity.
Qed.

(** X3. A regularisation file that has [L1_template] for the order but not
    [L2_template]: the [try] block fails at the second parameter, after
    the first was overwritten. The component keeps the file's
    [L1_template], has the keyword value (or default) for [L2_template],
    and the message is printed. *)
Theorem init_keeps_parameters_read_before_failure name r rvs kw w file f ds v :
  Kwargs.regularization_par_file kw = Some (file, Some f) ->
  f !! "L1_template" = Some ds -> ds !! r = Some v ->
  f !! "L2_template" ≫= (.!! r) = None ->
  exists c,
    Component.init name r rvs kw w
    = (Ok c, mkWorld (heap w) (stdout w ++ [MsgRegFileNotRecognized file]))
    /\ Component.getattr c "L1_template" = Ok v
    /\ Component.getattr c "L2_template"
       = Ok (default 0 (Kwargs.L2_template kw)).
Proof.
  intros Hfile Hds Hv Hmissing. rewrite init_unfold, Hfile.
  set (c0 := from_keywords name r rvs kw).
  assert (Hload : Component.load_regularization f r
                    (parameter_names (default 0%nat (Kwargs.variable_bases kw)))
                    c0
                  = (Component.setattr "L1_template" v c0, false)).
  { unfold parameter_names.
    destruct (0 <? _)%nat; simpl; rewrite Hds, Hv;
      destruct (f !! "L2_template") as [ds2|]; simpl in Hmissing;
      try rewrite Hmissing; reflexivity. }
  eexists. cbv zeta. rewrite Hload. simpl. split; [reflexivity|].
  unfold Component.getattr.
  rewrite !(proj1 (setattr_attrs _ _ _)). split.
  - rewrite lookup_insert_eq. reflexivity.
  - rewrite lookup_insert_ne by discriminate.
    pose proof (from_keywords_getattr name r rvs kw "L2_template") as E.
    unfold Component.getattr in E. fold c0 in E. rewrite E.
    unfold parameter_names. destruct (0 <? _)%nat; reflexivity.
Qed.

(** ** Adding components, continued *)

Section Names.
Context `{Numerics} `{Runtime}.

(** [add_component] under a name the model does not have. *)
Lemma add_component_new (m : Model.t) name rvs kw w :
  Model.isin name (Model.component_names m) = false ->
  exists c w',
    Component.init name (Model.r m) rvs kw w = (Ok c, w')
    /\ Model.add_component m name rvs kw w
       = (Ok (Model.mk (Model.components m ++ [c])
                       (Model.component_names m ++ [name]) (Model.data m)
                       (if negb (Model.isin name
                                   (results_component_names (Model.results m)))
                        then results_add_component c (Model.results m)
                        else Model.results m)
                       (Model.r m) (Model.order m) (Model.synth m)
                       (Model.nll m) (Model.updates m) (Model.session m)
                       (Model.slots m)),
          w').
Proof.
  intros Hnew. unfold Model.add_component. rewrite Hnew.
  destruct (init_returns name (Model.r m) rvs kw w) as (c & w' & Hc & _).
  exists c, w'. split; [assumption|].
  unfold mbind, M_bind. rewrite Hc. destruct m. reflexivity.
Qed.

Lemma sum_affine (c : Q) (l : vec) :
  np.sum ((fun b => -1 * b + c) <$> l)
  == - np.sum l + inject_Z (Z.of_nat (length l)) * c.
Proof.
  induction l as [|b l IH]; csimpl.
  - change (inject_Z (Z.of_nat 0)) with 0. ring.
  - rewrite IH, Nat2Z.inj_succ, <- Z.add_1_r, inject_Z_plus.
    change (inject_Z 1) with 1. ring.
Qed.

(** X4. [add_star] without starting RVs gives the new component the
    barycentric corrections with their sign changed and their mean added:
    one RV per correction, and RVs that sum to zero. *)
Theorem add_star_default_rvs_sum_to_zero (m : Model.t) name kw w :
  Model.isin name (Model.component_names m) = false ->
  Data.bervs (Model.data m) <> [] ->
  exists m' w' c,
    Model.add_star m name None kw w = (Ok m', w')
    /\ Model.components m' = Model.components m ++ [c]
    /\ Component.starting_rvs c
       = (fun b => -1 * b + Model.mean (Data.bervs (Model.data m)))
           <$> Data.bervs (Model.data m)
    /\ length (Component.starting_rvs c)
       = length (Data.bervs (Model.data m))
    /\ np.sum (Component.starting_rvs c) == 0.
Proof.
  intros Hnew Hbervs. unfold Model.add_star.
  destruct (add_component_new m name
              ((fun b => -1 * b + Model.mean (Data.bervs (Model.data m)))
                 <$> Data.bervs (Model.data m)) kw w Hnew)
    as (c & w' & Hinit & Hadd).
  destruct (init_returns name (Model.r m)
              ((fun b => -1 * b + Model.mean (Data.bervs (Model.data m)))
                 <$> Data.bervs (Model.data m)) kw w)
    as (c1 & w1 & Hinit1 & _ & Hid).
  assert (c1 = c) as -> by congruence.
  unfold identity_of in Hid. injection Hid as _ _ _ Hrvs.
  eexists _, w', c. split; [exact Hadd|]. split; [reflexivity|].
  split; [assumption|]. rewrite Hrvs. split; [apply length_fmap|].
  rewrite sum_affine. unfold Model.mean.
  set (n := inject_Z (Z.of_nat (length (Data.bervs (Model.data m))))).
  assert (Hn : 0 < n).
  { unfold n. destruct (Data.bervs (Model.data m)) as [|b l];
      [contradiction|].
    change 0 with (inject_Z 0). rewrite <- Zlt_Qlt. simpl length. lia. }
  field. lra.
Qed.

(** X5. [add_telluric] under a new name: unless the caller says otherwise,
    the RVs are zero for each of the [N] epochs of the Data, they are
    fixed, the component is scaled by airmass and its template learning
    rate is 0.1; the other keywords keep the defaults of [Component]. *)
Theorem add_telluric_defaults (m : Model.t) name starting_rvs kw w :
  Model.isin name (Model.component_names m) = false ->
  exists m' w' c,
    Model.add_telluric m name starting_rvs kw w = (Ok m', w')
    /\ Model.components m' = Model.components m ++ [c]
    /\ Component.starting_rvs c
       = default (replicate (Data.N (Model.data m)) 0) starting_rvs
    /\ Component.rvs_fixed c = default true (Kwargs.rvs_fixed kw)
    /\ Component.scale_by_airmass c
       = default true (Kwargs.scale_by_airmass kw)
    /\ Component.learning_rate_template c
       = default (1 # 10) (Kwargs.learning_rate_template kw)
    /\ Component.learning_rate_rvs c
       = default 10 (Kwargs.learning_rate_rvs kw)
    /\ Component.K c = default 0%nat (Kwargs.variable_bases kw).
Proof.
  intros Hnew. unfold Model.add_telluric. destruct kw; simpl.
  match goal with
  | |- context [Model.add_component m name ?rvs ?kw w] =>
      destruct (add_component_new m name rvs kw w Hnew)
        as (c & w' & Hinit & Hadd);
      destruct (init_returns name (Model.r m) rvs kw w)
        as (c1 & w1 & Hinit1 & _ & Hid)
  end.
  assert (c1 = c) as -> by congruence.
  apply init_config in Hinit. rewrite from_keywords_config in Hinit.
  unfold config_of in Hinit. simpl in Hinit.
  injection Hinit as HK Hfixed Hair Hlr Hlt _ _ _.
  unfold identity_of in Hid. injection Hid as _ _ _ Hrvs.
  eexists _, w', c. split; [exact Hadd|]. split; [reflexivity|].
  split; [destruct starting_rvs; exact Hrvs|].
  rewrite Hfixed, Hair, Hlt, Hlr, HK.
  destruct rvs_fixed, scale_by_airmass, learning_rate_template; repeat split.
Qed.

(** X6. The names of a model stay those of its components, without
    repetition, when a component is added; the name is then taken, so
    adding under it again changes nothing. *)
Theorem add_component_keeps_names_unique (m : Model.t) name rvs kw w m' w' :
  names_in_sync m -> NoDup (Model.component_names m) ->
  Model.add_component m name rvs kw w = (Ok m', w') ->
  names_in_sync m' /\ NoDup (Model.component_names m')
  /\ In name (Model.component_names m')
  /\ forall rvs2 kw2 w2,
       Model.add_component m' name rvs2 kw2 w2
       = (Ok m', mkWorld (heap w2) (stdout w2 ++ [MsgDuplicateName name])).
Proof.
  intros Hsync Hnd Hrun.
  assert (Hafter : names_in_sync m' /\ NoDup (Model.component_names m')
                   /\ In name (Model.component_names m')).
  { destruct (Model.isin name (Model.component_names m)) eqn:Hisin.
    - unfold Model.add_component in Hrun. rewrite Hisin in Hrun.
      apply bind_ok in Hrun as (u & w1 & _ & Hrun).
      apply ret_ok in Hrun as [-> _].
      repeat split; try assumption. apply isin_In. assumption.
    - destruct (add_component_new m name rvs kw w Hisin)
        as (c & w1 & Hinit & Hadd).
      destruct (init_returns name (Model.r m) rvs kw w)
        as (c1 & w2 & Hinit1 & _ & Hid).
      assert (c1 = c) as -> by congruence.
      unfold identity_of in Hid. injection Hid as Hname _ _ _.
      rewrite Hadd in Hrun. injection Hrun as <- _.
      unfold names_in_sync in *. simpl. split; [|split].
      + rewrite fmap_app, <- Hsync. csimpl. rewrite Hname. reflexivity.
      + apply NoDup_app. split; [assumption|]. split.
        * intros x Hx Hx'. apply list_elem_of_singleton in Hx' as ->.
          assert (Model.isin name (Model.component_names m) = true)
            by (apply isin_In, list_elem_of_In; assumption).
          congruence.
        * apply NoDup_singleton.
      + apply in_or_app. right. left. reflexivity. }
  destruct Hafter as (Hs & Hn & Hin). repeat split; try assumption.
  intros rvs2 kw2 w2. unfold Model.add_component.
  apply isin_In in Hin. rewrite Hin. reflexivity.
Qed.

End Names.

Section Optimisers.
Context `{Numerics} `{Runtime}.

Lemma optimizers_block i c b :
  (exists lr, In (mkOp lr i b) (Model.optimizers i c)) <-> has_optimizer c b.
Proof.
  unfold Model.optimizers, has_optimizer. split.
  - intros (lr & Hin). rewrite !in_app_iff in Hin.
    destruct Hin as [Hin | [Hin | Hin]].
    + destruct Hin as [[= _ <-] | []]. exact I.
    + destruct (Component.rvs_fixed c); simpl in Hin; [destruct Hin|].
      destruct Hin as [[= _ <-] | []]. reflexivity.
    + destruct (Component.K c) as [|k]; simpl in Hin; [destruct Hin|].
      destruct Hin as [[= _ <-] | [[= _ <-] | []]]; lia.
  - intros Hb. destruct b; simpl in Hb.
    + eexists. apply in_or_app. left. left. reflexivity.
    + eexists. apply in_or_app. right. apply in_or_app. left.
      rewrite Hb. left. reflexivity.
    + eexists. apply in_or_app. right. apply in_or_app. right.
      destruct (Component.K c); [lia|]. left. reflexivity.
    + eexists. apply in_or_app. right. apply in_or_app. right.
      destruct (Component.K c); [lia|]. right. left. reflexivity.
Qed.

Lemma in_updates cs op :
  In op (concat (imap Model.optimizers cs))
  <-> exists c, cs !! op_component op = Some c
                /\ In op (Model.optimizers (op_component op) c).
Proof.
  rewrite in_concat. split.
  - intros (l & Hl & Hop).
    apply (proj2 (list_elem_of_In _ _)) in Hl.
    apply elem_of_lookup_imap_1 in Hl as (j & c & -> & Hc).
    pose proof (optimizers_component _ _ _ Hop) as [Hj _].
    rewrite Hj. eauto.
  - intros (c & Hc & Hop). exists (Model.optimizers (op_component op) c).
    split; [|assumption].
    apply list_elem_of_In. apply elem_of_lookup_imap_2. assumption.
Qed.

(** X7. The optimisers of a model that [setup] has built: every component
    has one for its template, one for its RVs exactly when the RVs are
    not fixed, and one for the basis vectors and one for the basis
    weights exactly when [K > 0]; no operation belongs to anything but a
    component of the model, and there is a set of slots per operation. *)
Theorem setup_creates_optimizers (m : Model.t) w m' w' :
  Model.setup m w = (Ok m', w') ->
  exists ops,
    Model.updates m' = Some ops
    /\ length (Model.slots m') = length ops
    /\ (forall op, In op ops ->
          exists c, Model.components m' !! op_component op = Some c)
    /\ forall i c b,
         Model.components m' !! i = Some c ->
         (exists lr, In (mkOp lr i b) ops) <-> has_optimizer c b.
Proof.
  intros Hrun.
  apply setup_ok in Hrun
    as (m1 & cs & synths & nlls & vars & lx & ly & li & xs & ys & ivars
        & _ & _ & _ & _ & _ & _ & _ & _ & _ & _ & _ & ->).
  simpl. eexists. split; [reflexivity|].
  split; [apply length_replicate|]. split.
  - intros op Hop. apply in_updates in Hop as (c & Hc & _). eauto.
  - intros i c b Hc. rewrite <- optimizers_block. split.
    + intros (lr & Hop). apply in_updates in Hop as (c' & Hc' & Hop).
      simpl in *. assert (c' = c) as -> by congruence. eauto.
    + intros (lr & Hop). exists lr. apply in_updates. simpl. eauto.
Qed.

Lemma initial_vars_ok c v :
  Component.initial_vars c = Ok v ->
  Vars.rvs v = Component.starting_rvs c
  /\ Component.template_ys c = Some (Vars.template_ys v)
  /\ match Component.K c with
     | O => Vars.basis_vectors v = [] /\ Vars.basis_weights v = []
     | S _ => Component.basis_vectors c = Some (Vars.basis_vectors v)
              /\ Component.basis_weights c = Some (Vars.basis_weights v)
     end.
Proof.
  unfold Component.initial_vars. intros E.
  apply bindR_ok in E as (tys & Htys & E). apply attr_ok in Htys.
  destruct (Component.K c) as [|k]; simpl in E.
  - injection E as <-. auto.
  - apply bindR_ok in E as (bv & Hbv & E). apply attr_ok in Hbv.
    apply bindR_ok in E as (bw & Hbw & E). apply attr_ok in Hbw.
    injection E as <-. auto.
Qed.

(** X8. The variables of a model that [setup] has built start from what
    the components hold: the RVs at [starting_rvs], the template at the
    initialised [template_ys] and, when [K > 0], the basis at the
    initialised [basis_vectors] and [basis_weights]; there is one record
    of variables per component. *)
Theorem setup_initialises_variables (m : Model.t) w m' w' :
  Model.setup m w = (Ok m', w') ->
  length (Model.session m') = length (Model.components m')
  /\ forall i c,
       Model.components m' !! i = Some c ->
       exists v,
         Model.session m' !! i = Some v
         /\ Vars.rvs v = Component.starting_rvs c
         /\ Component.template_ys c = Some (Vars.template_ys v)
         /\ match Component.K c with
            | O => Vars.basis_vectors v = [] /\ Vars.basis_weights v = []
            | S _ =>
                Component.basis_vectors c = Some (Vars.basis_vectors v)
                /\ Component.basis_weights c = Some (Vars.basis_weights v)
            end.
Proof.
  intros Hrun.
  apply setup_ok in Hrun
    as (m1 & cs & synths & nlls & vars & lx & ly & li & xs & ys & ivars
        & _ & _ & _ & _ & _ & _ & _ & _ & _ & _ & Hvars & ->).
  simpl. apply mapR_ok in Hvars. split.
  - symmetry. eapply Forall2_length. eassumption.
  - intros i c Hc.
    destruct (Forall2_lookup_l _ _ _ _ _ Hvars Hc) as (v & Hv & Hinit).
    exists v. split; [assumption|]. apply initial_vars_ok. assumption.
Qed.

End Optimisers.

(** ** The store and the life cycle *)

Lemma store_untouched_ret {A} (a : A) : store_untouched (mret a).
Proof. intros w. reflexivity. Qed.

Lemma store_untouched_lift {A} (x : result A) : store_untouched (lift x).
Proof. intros w. reflexivity. Qed.

Lemma store_untouched_print s : store_untouched (print s).
Proof. intros w. reflexivity. Qed.

Lemma store_untouched_bind {A B} (x : M A) (f : A -> M B) :
  store_untouched x -> (forall a, store_untouched (f a)) ->
  store_untouched (x ≫= f).
Proof.
  intros Hx Hf w. unfold mbind, M_bind. specialize (Hx w).
  destruct (x w) as [[a|e] w1]; simpl in *; [|assumption].
  rewrite Hf. assumption.
Qed.

Lemma keeps_of_store_untouched {A} P (x : M A) :
  store_untouched x -> keeps P x.
Proof. intros Hx w l a _ Hl. rewrite Hx. assumption. Qed.

Lemma store_untouched_init name r rvs kw :
  store_untouched (Component.init name r rvs kw).
Proof.
  intros w. unfold Component.init.
  destruct (Kwargs.regularization_par_file kw) as [[file [f|]]|];
    try reflexivity.
  destruct (Component.load_regularization _ _ _ _) as [c' []]; reflexivity.
Qed.

Section LifeCycle.
Context `{Numerics} `{Runtime}.

Lemma store_untouched_add_component (m : Model.t) name rvs kw :
  store_untouched (Model.add_component m name rvs kw).
Proof.
  unfold Model.add_component. destruct (Model.isin _ _).
  - apply store_untouched_bind; [apply store_untouched_print|].
    intros _. apply store_untouched_ret.
  - apply store_untouched_bind; [apply store_untouched_init|].
    intros c. destruct m. apply store_untouched_ret.
Qed.

Lemma store_untouched_estimate_component nll vars N verbose i c :
  store_untouched (Model.estimate_component nll vars N verbose i c).
Proof.
  unfold Model.estimate_component.
  apply store_untouched_bind; [apply store_untouched_lift | intros v].
  destruct (negb _); [|apply store_untouched_ret].
  apply store_untouched_bind.
  { destruct verbose; [apply store_untouched_print | apply store_untouched_ret]. }
  intros _. apply store_untouched_bind; [apply store_untouched_lift|].
  intros iv. apply store_untouched_ret.
Qed.

Lemma store_untouched_estimate_loop nll vars N verbose cs : forall i,
  store_untouched (Model.estimate_loop nll vars N verbose i cs).
Proof.
  induction cs as [|c cs IH]; intros i; simpl.
  - apply store_untouched_ret.
  - apply store_untouched_bind;
      [apply store_untouched_estimate_component | intros c'].
    apply store_untouched_bind; [apply IH | intros rest].
    apply store_untouched_ret.
Qed.

Lemma store_untouched_estimate (m : Model.t) verbose :
  store_untouched (Model.estimate_uncertainties m verbose).
Proof.
  unfold Model.estimate_uncertainties.
  apply store_untouched_bind; [apply store_untouched_estimate_loop|].
  intros cs. apply store_untouched_ret.
Qed.

Lemma store_untouched_optimize (m : Model.t) niter sh bn fd vb :
  store_untouched (Model.optimize m niter sh bn fd vb).
Proof.
  unfold Model.optimize.
  apply store_untouched_bind.
  { destruct vb; [apply store_untouched_print | apply store_untouched_ret]. }
  intros _. apply store_untouched_bind; [apply store_untouched_lift|].
  intros st. destruct m.
  apply store_untouched_bind; [apply store_untouched_estimate|].
  intros [ ]. apply store_untouched_ret.
Qed.

Lemma keeps_component_setup c data r :
  store_untouched (Component.setup c data r).
Proof.
  unfold Component.setup.
  apply store_untouched_bind; [apply store_untouched_lift | intros ?].
  apply store_untouched_bind; [apply store_untouched_lift | intros ?].
  apply store_untouched_bind; [apply store_untouched_lift | intros ?].
  apply store_untouched_bind.
  { intros w. unfold np.deref. destruct (heap w !! _); reflexivity. }
  intros ?.
  apply store_untouched_bind; [apply store_untouched_lift | intros ?].
  apply store_untouched_bind; [apply store_untouched_lift | intros ?].
  apply store_untouched_bind; [apply store_untouched_lift | intros [[? ?] ?]].
  apply store_untouched_ret.
Qed.

Lemma store_untouched_setup_loop data r cs :
  store_untouched (Model.setup_loop cs data r).
Proof.
  induction cs as [|c cs IH]; simpl.
  - apply store_untouched_ret.
  - apply store_untouched_bind; [apply keeps_component_setup | intros ?].
    apply store_untouched_bind; [apply IH | intros ?].
    apply store_untouched_ret.
Qed.

Lemma keeps_setup (m : Model.t) : keeps (fun _ => True) (Model.setup m).
Proof.
  unfold Model.setup.
  apply keeps_bind; [apply initialize_templates_keeps | intros m1].
  apply keeps_bind; [apply keeps_lift | intros ?].
  apply keeps_bind; [apply keeps_deref | intros ?].
  apply keeps_bind;
    [apply keeps_of_store_untouched, store_untouched_setup_loop | intros ?].
  apply keeps_bind; [apply keeps_lift | intros ?].
  apply keeps_bind; [apply keeps_lift | intros ?].
  apply keeps_bind; [apply keeps_deref | intros ?].
  apply keeps_bind; [apply keeps_lift | intros ?].
  apply keeps_bind; [apply keeps_deref | intros ?].
  apply keeps_bind; [apply keeps_lift | intros ?].
  apply keeps_bind; [apply keeps_lift | intros ?].
  destruct m1. apply keeps_ret.
Qed.

(** X9. Which calls write to the arrays of the Data and to the copies
    made of them. [add_component], [add_star], [add_telluric],
    [estimate_uncertainties] and [optimize] (without a History) leave
    the store of arrays exactly as it was; [setup] keeps every array
    that was there. This holds whether the call returns or raises. *)
Theorem only_setup_allocates (m : Model.t) name rvs rvs_opt kw niter bn fd
    vb w :
  heap (Model.add_component m name rvs kw w).2 = heap w
  /\ heap (Model.add_star m name rvs_opt kw w).2 = heap w
  /\ heap (Model.add_telluric m name rvs_opt kw w).2 = heap w
  /\ heap (Model.estimate_uncertainties m vb w).2 = heap w
  /\ heap (Model.optimize m niter false bn fd vb w).2 = heap w
  /\ forall l a, heap w !! l = Some a ->
       heap (Model.setup m w).2 !! l = Some a.
Proof.
  split; [apply store_untouched_add_component|].
  split; [apply store_untouched_add_component|].
  split.
  { unfold Model.add_telluric. destruct kw.
    apply store_untouched_add_component. }
  split; [apply store_untouched_estimate|].
  split; [apply store_untouched_optimize|].
  intros l a Hl. exact (keeps_setup m w l a I Hl).
Qed.

Lemma add_component_not_set_up (m : Model.t) name rvs kw w m' w' :
  Model.add_component m name rvs kw w = (Ok m', w') ->
  Model.updates m' = Model.updates m /\ Model.session m' = Model.session m
  /\ (length (Model.components m) <= length (Model.components m'))%nat.
Proof.
  unfold Model.add_component. destruct (Model.isin _ _).
  - intros Hrun. apply bind_ok in Hrun as (u & w1 & _ & Hrun).
    apply ret_ok in Hrun as [-> _]. auto.
  - intros Hrun. apply bind_ok in Hrun as (c & w1 & _ & Hrun).
    destruct m. apply ret_ok in Hrun as [-> _]. simpl.
    rewrite length_app. repeat split. lia.
Qed.

Lemma add_components_not_set_up adds : forall (m : Model.t) w m' w',
  add_components adds m w = (Ok m', w') ->
  Model.updates m' = Model.updates m /\ Model.session m' = Model.session m
  /\ (length (Model.components m) <= length (Model.components m'))%nat.
Proof.
  unfold add_components.
  induction adds as [|a adds IH]; intros m w m' w' Hrun; simpl in Hrun.
  - apply ret_ok in Hrun as [-> _]. auto.
  - apply bind_ok in Hrun as (m1 & w1 & Hadd & Hrun).
    apply add_component_not_set_up in Hadd as (Hu & Hs & Hl).
    apply IH in Hrun as (Hu' & Hs' & Hl').
    repeat split; try congruence. lia.
Qed.

(** X10. [optimize] (without a History) on a model that was constructed
    and given components but never set up raises AttributeError: with one
    iteration or more because there are no update operations, and with
    any number of iterations, if the model has a component, because the
    component has no RVs variable to read. *)
Theorem optimize_before_setup_raises data res r (m0 : Model.t) adds m w w1
    niter bn fd vb :
  Model.init data res r = Ok m0 ->
  add_components adds m0 w = (Ok m, w1) ->
  niter <> 0%nat \/ Model.components m <> [] ->
  (Model.optimize m niter false bn fd vb w1).1 = Raise AttributeError.
Proof.
  intros Hinit Hadds Hcase.
  apply add_components_not_set_up in Hadds as (Hu & Hs & _).
  unfold Model.init in Hinit. apply bindR_ok in Hinit as (o & _ & Hinit).
  injection Hinit as <-. simpl in *.
  destruct m as [cs names d rs r' o' sy nl up se sl]. simpl in *. subst.
  unfold Model.optimize.
  destruct niter as [|n].
  - destruct Hcase as [? | Hcs]; [congruence|].
    destruct cs as [|c cs]; [congruence|].
    destruct vb; reflexivity.
  - destruct vb; reflexivity.
Qed.

End LifeCycle.

(** ** Failures *)

Lemma mapR_raise {A B} (f : A -> result B) l e :
  mapR f l = Raise e -> exists a, In a l /\ f a = Raise e.
Proof.
  induction l as [|a l IH]; simpl; [discriminate|].
  destruct (f a) as [b|e'] eqn:Ea.
  - destruct (mapR f l) as [bs|e'']; [discriminate|].
    intros [= <-]. destruct IH as (a' & Hin & Ha'); [reflexivity|].
    exists a'. auto.
  - intros [= <-]. exists a. auto.
Qed.

Lemma index_raise {A} (l : list A) n e : np.index l n = Raise e -> e = IndexError.
Proof. unfold np.index. destruct (l !! n); congruence. Qed.

Lemma bindR_raise {A B} (x : result A) (f : A -> result B) e :
  x ≫= f = Raise e -> x = Raise e \/ exists a, x = Ok a /\ f a = Raise e.
Proof. destruct x as [a|e']; simpl; [eauto | intros [= <-]; auto]. Qed.

Section Failures.
Context `{Numerics} `{Runtime}.

(** Every exception of one pass of the loop over epochs is an
    IndexError. *)
Lemma ivar_rv_raise loss i vars best n e :
  Model.ivar_rv loss i vars best n = Raise e -> e = IndexError.
Proof.
  unfold Model.ivar_rv, Model.rvs_grid. intros E.
  apply bindR_raise in E as [E | (g & _ & E)].
  { apply mapR_raise in E as ([row d] & _ & E). simpl in E.
    apply bindR_raise in E as [E | (x & _ & E)]; [|discriminate].
    eapply index_raise. eassumption. }
  apply bindR_raise in E as [E | (y & _ & E)].
  { apply mapR_raise in E as (v & _ & E). eapply index_raise. eassumption. }
  apply bindR_raise in E as [E | (col & _ & E)].
  { apply mapR_raise in E as (v & _ & E). eapply index_raise. eassumption. }
  apply bindR_raise in E as [E | (b & _ & E)]; [|discriminate].
  eapply index_raise. eassumption.
Qed.

Lemma ivar_rv_out_of_range loss i vars best n :
  best !! n = None -> Model.ivar_rv loss i vars best n = Raise IndexError.
Proof.
  intros Hn. destruct (Model.ivar_rv loss i vars best n) as [x|e] eqn:E.
  - apply ivar_rv_ok in E as (b & _ & Hb & _). congruence.
  - apply ivar_rv_raise in E. congruence.
Qed.

Lemma epochs_loop_raise loss i vars best epochs : forall iv e,
  Model.epochs_loop loss i vars best epochs iv = Raise e -> e = IndexError.
Proof.
  induction epochs as [|n epochs IH]; intros iv e E; simpl in E;
    [discriminate|].
  apply bindR_raise in E as [E | (x & _ & E)];
    [eapply ivar_rv_raise; eassumption|].
  apply bindR_raise in E as [E | (o & _ & E)];
    [eapply index_raise; eassumption|].
  eapply IH. eassumption.
Qed.

Lemma epochs_loop_out_of_range loss i vars best epochs n : forall iv,
  In n epochs -> best !! n = None ->
  Model.epochs_loop loss i vars best epochs iv = Raise IndexError.
Proof.
  intros iv Hin Hn.
  destruct (Model.epochs_loop loss i vars best epochs iv) as [iv'|e] eqn:E.
  - exfalso. revert iv E.
    induction epochs as [|n' epochs IH]; intros iv E; [destruct Hin|].
    simpl in E. apply bindR_ok in E as (x & Hx & E).
    apply bindR_ok in E as (o & _ & E).
    destruct Hin as [-> | Hin].
    + rewrite ivar_rv_out_of_range in Hx by assumption. discriminate.
    + eapply IH; eassumption.
  - apply epochs_loop_raise in E. congruence.
Qed.

Lemma bind_raise {A B} (x : M A) (f : A -> M B) w e w' :
  (x ≫= f) w = (Raise e, w') ->
  x w = (Raise e, w') \/ exists a w1, x w = (Ok a, w1) /\ f a w1 = (Raise e, w').
Proof.
  unfold mbind, M_bind. destruct (x w) as [[a|e'] w1]; intros E.
  - right. exists a, w1. split; [reflexivity | exact E].
  - left. injection E as -> ->. reflexivity.
Qed.

Lemma bind_run {A B} (x : M A) (f : A -> M B) w a w1 :
  x w = (Ok a, w1) -> (x ≫= f) w = f a w1.
Proof. unfold mbind, M_bind. intros ->. reflexivity. Qed.

(** What the body of the loop over components can do when the component
    has its variables and the objective exists. *)
Lemma estimate_component_raise loss vars N vb i c w v e w' :
  vars !! i = Some v ->
  Model.estimate_component (Some loss) vars N vb i c w = (Raise e, w') ->
  e = IndexError.
Proof.
  intros Hv. unfold Model.estimate_component.
  rewrite (bind_run _ _ w v w) by (unfold lift; rewrite Hv; reflexivity).
  rewrite set_ivars_rvs_fixed.
  destruct (Component.rvs_fixed c); simpl negb; cbv iota;
    [intros E; unfold mret, M_ret in E; discriminate|].
  intros E. apply bind_raise in E as [E | (u & w1 & _ & E)].
  { destruct vb; unfold print, mret, M_ret in E; discriminate. }
  apply bind_raise in E as [E | (iv & w2 & _ & E)];
    [|unfold mret, M_ret in E; discriminate].
  unfold lift in E. injection E as E _.
  destruct N as [|N']; [discriminate|].
  change (Model.epochs_loop loss i vars (Vars.rvs v) (seq 0 (S N'))
            (np.zeros (length (Vars.rvs v))) = Raise e) in E.
  eapply epochs_loop_raise. eassumption.
Qed.

Lemma estimate_component_short loss vars N vb i c w v :
  vars !! i = Some v -> Component.rvs_fixed c = false ->
  (length (Vars.rvs v) < N)%nat ->
  (Model.estimate_component (Some loss) vars N vb i c w).1 = Raise IndexError.
Proof.
  intros Hv Hfree Hshort.
  destruct (Model.estimate_component (Some loss) vars N vb i c w)
    as [[c'|e] w'] eqn:E; simpl.
  - exfalso. apply estimate_component_ok in E as (_ & v' & Hv' & E).
    rewrite Hfree in E. destruct E as (iv & _ & E).
    destruct N as [|N']; [lia|]. destruct E as (loss' & [= <-] & E).
    assert (v' = v) as -> by congruence.
    rewrite (epochs_loop_out_of_range _ _ _ _ _ (length (Vars.rvs v))) in E.
    + discriminate.
    + apply in_seq. lia.
    + apply lookup_ge_None. lia.
  - f_equal. eapply estimate_component_raise; eassumption.
Qed.

Lemma estimate_loop_raise loss vars N vb cs : forall i0 w e w',
  (forall j, (j < length cs)%nat -> is_Some (vars !! (i0 + j)%nat)) ->
  Model.estimate_loop (Some loss) vars N vb i0 cs w = (Raise e, w') ->
  e = IndexError.
Proof.
  induction cs as [|c0 cs IH]; intros i0 w e w' Hvars E; simpl in E;
    [discriminate|].
  destruct (Hvars 0%nat) as [v0 Hv0]; [simpl; lia|].
  rewrite Nat.add_0_r in Hv0.
  apply bind_raise in E as [E | (c' & w1 & _ & E)].
  { eapply estimate_component_raise; eassumption. }
  apply bind_raise in E as [E | (rest & w2 & _ & E)];
    [|unfold mret, M_ret in E; discriminate].
  eapply IH; [|eassumption].
  intros j Hj. replace (S i0 + j)%nat with (i0 + S j)%nat by lia.
  apply Hvars. simpl. lia.
Qed.

Lemma estimate_loop_short loss vars N vb cs i0 w k c v :
  (forall j, (j < length cs)%nat -> is_Some (vars !! (i0 + j)%nat)) ->
  cs !! k = Some c -> vars !! (i0 + k)%nat = Some v ->
  Component.rvs_fixed c = false -> (length (Vars.rvs v) < N)%nat ->
  (Model.estimate_loop (Some loss) vars N vb i0 cs w).1 = Raise IndexError.
Proof.
  intros Hvars Hc Hv Hfree Hshort.
  destruct (Model.estimate_loop (Some loss) vars N vb i0 cs w)
    as [[cs'|e] w'] eqn:E; simpl.
  - exfalso. apply estimate_loop_ok in E as (_ & _ & Hk).
    destruct (Hk k c Hc) as (c' & w1 & w2 & _ & Hrun).
    pose proof (estimate_component_short loss vars N vb (i0 + k) c w1 v
                  Hv Hfree Hshort) as E.
    rewrite Hrun in E. discriminate.
  - f_equal. eapply estimate_loop_raise; eassumption.
Qed.

(** X11. A mismatch of epoch counts that [add_component] let through
    shows here: when a component with free RVs has fewer RVs than the
    Data has epochs (a single RV broadcasts everywhere before), and the
    model is set up, with variables for every component,
    [estimate_uncertainties] raises IndexError. *)
Theorem estimate_uncertainties_raises_on_short_rvs (m : Model.t) loss vb w
    i c v :
  Model.nll m = Some loss ->
  length (Model.session m) = length (Model.components m) ->
  Model.components m !! i = Some c -> Model.session m !! i = Some v ->
  Component.rvs_fixed c = false ->
  (length (Vars.rvs v) < Data.N (Model.data m))%nat ->
  (Model.estimate_uncertainties m vb w).1 = Raise IndexError.
Proof.
  intros Hnll Hlen Hc Hv Hfree Hshort. unfold Model.estimate_uncertainties.
  rewrite Hnll.
  pose proof (estimate_loop_short loss (Model.session m)
                (Data.N (Model.data m)) vb (Model.components m) 0 w i c v)
    as E.
  unfold mbind, M_bind.
  destruct (Model.estimate_loop _ _ _ _ _ _ _) as [[cs|e] w1]; simpl in E.
  - assert (@Ok (list Component.t) cs = Raise IndexError); [|discriminate].
    apply E; try assumption.
    intros j Hj. apply lookup_lt_is_Some_2. simpl. lia.
  - simpl. f_equal.
    assert (@Raise (list Component.t) e = Raise IndexError) as [= ->];
      [|reflexivity].
    apply E; try assumption.
    intros j Hj. apply lookup_lt_is_Some_2. simpl. lia.
Qed.

End Failures.

Lemma deref_run l w a : heap w !! l = Some a -> np.deref l w = (Ok a, w).
Proof. unfold np.deref. intros ->. reflexivity. Qed.

Section Mismatch.
Context `{Numerics}.

(** X12. [initialize_template] on a component whose number of RVs neither
    equals the number of epochs of the data nor is 1 (the data having
    more than one epoch) raises ValueError from the broadcast of
    [data_xs + log(doppler(starting_rvs[:, None]))], and leaves the store
    and the output as they were. *)
Theorem initialize_template_raises_on_epoch_mismatch c lx ly li w xs ys ivars :
  heap w !! lx = Some xs -> heap w !! ly = Some ys ->
  heap w !! li = Some ivars ->
  length (Component.starting_rvs c) <> length xs ->
  length (Component.starting_rvs c) <> 1%nat -> length xs <> 1%nat ->
  Component.initialize_template c lx ly li w = (Raise ValueError, w).
Proof.
  intros Hxs Hys Hiv Hne Hc1 Hx1. unfold Component.initialize_template.
  rewrite (bind_run _ _ w xs w) by (apply deref_run; assumption).
  rewrite (bind_run _ _ w ys w) by (apply deref_run; assumption).
  rewrite (bind_run _ _ w ivars w) by (apply deref_run; assumption).
  unfold np.binop2, np.compatible, Component.log_doppler, np.column.
  rewrite !length_fmap.
  destruct (Nat.eqb_spec (length xs) (length (Component.starting_rvs c)));
    [congruence|].
  destruct (Nat.eqb_spec (length xs) 1); [congruence|].
  destruct (Nat.eqb_spec (length (Component.starting_rvs c)) 1); [congruence|].
  reflexivity.
Qed.

End Mismatch.

(** ** The objective is bounded below *)

Lemma sum_nonneg (v : vec) : Forall (fun x => 0 <= x) v -> 0 <= np.sum v.
Proof.
  induction 1 as [|x v Hx _ IH]; simpl; [lra|]. lra.
Qed.

Lemma sum2_nonneg (a : mat) : nonnegative a -> 0 <= np.sum2 a.
Proof.
  intros Ha. unfold np.sum2. apply sum_nonneg.
  apply Forall_fmap. eapply Forall_impl; [exact Ha|].
  intros row Hrow. simpl. apply sum_nonneg. assumption.
Qed.

Lemma bcast_Forall {A B C} (f : A -> B -> C) (P : A -> Prop) (Q' : B -> Prop)
    (R : C -> Prop) a b :
  (forall x y, P x -> Q' y -> R (f x y)) ->
  Forall P a -> Forall Q' b -> Forall R (np.bcast f a b).
Proof.
  intros Hf Ha Hb.
  assert (Hzip : Forall R (zip_with f a b)).
  { clear -Hf Ha Hb. revert b Hb.
    induction Ha as [|x a Hx _ IH]; intros b Hb; [constructor|].
    destruct Hb as [|y b Hy Hb]; simpl; constructor; auto. }
  assert (Hl : forall x, P x -> Forall R (f x <$> b)).
  { intros x Hx. apply Forall_fmap. eapply Forall_impl; [exact Hb|].
    intros y Hy. simpl. auto. }
  assert (Hr : forall y, Q' y -> Forall R ((fun x => f x y) <$> a)).
  { intros y Hy. apply Forall_fmap. eapply Forall_impl; [exact Ha|].
    intros x Hx. simpl. auto. }
  unfold np.bcast.
  destruct a as [|x [|x' a]], b as [|y [|y' b]]; try assumption;
    first [ apply Hl; inversion Ha; assumption
          | apply Hr; inversion Hb; assumption ].
Qed.

Lemma square_nonneg (x : Q) : 0 <= x ^ 2.
Proof. simpl. nra. Qed.

Lemma abs_nonnegative (v : vec) : Forall (fun x => 0 <= x) (Qabs <$> v).
Proof.
  apply Forall_fmap, List.Forall_forall. intros x _. apply Qabs_nonneg.
Qed.

Lemma squares_nonnegative (v : vec) :
  Forall (fun x => 0 <= x) ((fun y => y ^ 2) <$> v).
Proof.
  apply Forall_fmap, List.Forall_forall. intros x _. apply square_nonneg.
Qed.

Section BoundedBelow.
Context `{Numerics} `{Runtime}.

Lemma misfit_nonneg ys ivars synth :
  nonnegative ivars -> 0 <= Model.misfit ys ivars synth.
Proof.
  intros Hiv. unfold Model.misfit.
  assert (0 <= np.sum2
    (np.bcast (np.bcast Qmult)
       ((fun row : vec => (fun d => d ^ 2) <$> row)
          <$> np.bcast (np.bcast Qminus) ys synth)
       ivars)); [|lra].
  apply sum2_nonneg.
  apply (bcast_Forall _ (Forall (fun x => 0 <= x)) (Forall (fun x => 0 <= x))).
  - intros r1 r2 H1 H2.
    apply (bcast_Forall _ (fun x => 0 <= x) (fun x => 0 <= x)); try assumption.
    intros x y Hx Hy. nra.
  - apply Forall_fmap, List.Forall_forall. intros row _. simpl.
    apply squares_nonnegative.
  - exact Hiv.
Qed.

Lemma regularization_nonneg c v :
  amplitudes_nonnegative c -> 0 <= regularization c v.
Proof.
  intros Hc. unfold regularization.
  assert (Hpar : forall name, 0 <= default 0 (Component.attrs c !! name)).
  { intros name. destruct (Component.attrs c !! name) as [x|] eqn:E; simpl;
      [eapply Hc; eassumption | lra]. }
  assert (Habs : forall a : mat,
    0 <= np.sum2 ((fun row : vec => Qabs <$> row) <$> a)).
  { intros a. apply sum2_nonneg. apply Forall_fmap, List.Forall_forall.
    intros row _. simpl. apply abs_nonnegative. }
  assert (Hsq : forall a : mat,
    0 <= np.sum2 ((fun row : vec => (fun y => y ^ 2) <$> row) <$> a)).
  { intros a. apply sum2_nonneg. apply Forall_fmap, List.Forall_forall.
    intros row _. simpl. apply squares_nonnegative. }
  pose proof (sum_nonneg _ (abs_nonnegative (Vars.template_ys v))) as H1.
  pose proof (sum_nonneg _ (squares_nonnegative (Vars.template_ys v))) as H2.
  pose proof (Hpar "L1_template") as P1.
  pose proof (Hpar "L2_template") as P2.
  cbv zeta.
  destruct (0 <? Component.K c)%nat.
  - pose proof (Hpar "L1_basis_vectors") as P3.
    pose proof (Hpar "L2_basis_vectors") as P4.
    pose proof (Hpar "L2_basis_weights") as P5.
    pose proof (Habs (Vars.basis_vectors v)) as H3.
    pose proof (Hsq (Vars.basis_vectors v)) as H4.
    pose proof (Hsq (Vars.basis_weights v)) as H5.
    nra.
  - nra.
Qed.

(** X13. The objective [setup] builds is never negative: when no inverse
    variance of the order is negative and no component holds a negative
    regularisation amplitude, [nll] is at least 0 at every value of the
    variables, whatever their shapes. *)
Theorem objective_is_nonnegative (m : Model.t) w m' w' li ivars nll :
  Model.setup m w = (Ok m', w') ->
  Data.ivars (Model.data m') !! Model.r m' = Some li ->
  heap w' !! li = Some ivars -> nonnegative ivars ->
  Forall amplitudes_nonnegative (Model.components m') ->
  Model.nll m' = Some nll ->
  forall vars, 0 <= nll vars.
Proof.
  intros Hrun Hli Hiv Hpos Hamp Hnll vars.
  apply setup_ok in Hrun
    as (m1 & cs & synths & nlls & vars0 & lx & ly & li' & xs & ys & ivars'
        & _ & _ & _ & Hli' & _ & _ & Hiv' & Hsetup & _ & Hnlls & _ & ->).
  simpl in *. assert (li' = li) as -> by congruence.
  assert (ivars' = ivars) as -> by congruence.
  injection Hnll as <-. rewrite add_nlls_sum.
  assert (Hreg : Forall2 (fun (c : Component.t) (nl : Vars.t -> Q) =>
                            forall v, nl v == regularization c v) cs nlls).
  { apply mapR_ok in Hnlls.
    apply Forall2_same_length_lookup. split.
    - eapply Forall2_length. eassumption.
    - intros i c nl Hc Hnl.
      destruct (Forall2_lookup_r _ _ _ _ _ Hsetup Hc) as (c0 & _ & Hc0).
      apply setup_nll_regularization in Hc0 as (nl' & Hnl' & Heq).
      destruct (Forall2_lookup_l _ _ _ _ _ Hnlls Hc) as (nl'' & Hnl'' & Ha).
      apply attr_ok in Ha. assert (nl'' = nl) as -> by congruence.
      assert (nl' = nl) as -> by congruence. exact Heq. }
  rewrite (sum_regularization _ _ Hreg).
  pose proof (misfit_nonneg ys ivars
                (Model.add_synths synths
                   (np.zeros2 (length xs) (np.ncols xs)) vars) Hpos).
  assert (0 <= np.sum ((fun cv : Component.t * Vars.t =>
                          regularization cv.1 cv.2) <$> zip cs vars)); [|lra].
  apply sum_nonneg. apply Forall_fmap, List.Forall_forall.
  intros [c v] Hin. simpl.
  apply regularization_nonneg.
  apply (proj2 (list_elem_of_In _ _)) in Hin. apply elem_of_zip_l in Hin.
  rewrite List.Forall_forall in Hamp. apply Hamp.
  apply list_elem_of_In. assumption.
Qed.

End BoundedBelow.

(** ** What [optimize] changes *)

Section Structure.
Context `{Numerics} `{Runtime}.

Lemma epochs_loop_length loss i vars best epochs : forall iv0 iv,
  Model.epochs_loop loss i vars best epochs iv0 = Ok iv ->
  length iv = length iv0.
Proof.
  induction epochs as [|n epochs IH]; intros iv0 iv E; simpl in E.
  - injection E as <-. reflexivity.
  - apply bindR_ok in E as (x & _ & E). apply bindR_ok in E as (o & _ & E).
    apply IH in E. rewrite E. apply length_insert.
Qed.

(** X14. What a call of [optimize] that returns has changed: of the model,
    the session, the optimisers' slots and the Results; of each
    component, [ivars_rvs] and nothing else. The components, their names
    and their order, the data, the tensors and the update operations are
    as before, and [ivars_rvs] has one entry for each RV of the
    component. *)
Theorem optimize_changes_only_estimates (m : Model.t) niter sh bn fd vb w
    m' w' :
  Model.optimize m niter sh bn fd vb w = (Ok m', w') ->
  Model.component_names m' = Model.component_names m
  /\ Model.data m' = Model.data m
  /\ Model.r m' = Model.r m /\ Model.order m' = Model.order m
  /\ Model.synth m' = Model.synth m /\ Model.nll m' = Model.nll m
  /\ Model.updates m' = Model.updates m
  /\ length (Model.components m') = length (Model.components m)
  /\ forall i c,
       Model.components m !! i = Some c ->
       exists iv v,
         Model.components m' !! i = Some (Component.set_ivars_rvs iv c)
         /\ Model.session m' !! i = Some v
         /\ length iv = length (Vars.rvs v).
Proof.
  intros Hrun.
  apply optimize_ok in Hrun as (st & cs' & wa & wb & _ & Hloop & _ & ->).
  simpl. apply estimate_loop_ok in Hloop as (_ & Hlen & Hk).
  repeat (split; [reflexivity|]). split; [assumption|].
  intros i c Hc. destruct (Hk i c Hc) as (c' & w1 & w2 & Hc' & Hest).
  apply estimate_component_ok in Hest as (_ & v & Hv & Hcase).
  simpl in Hv. destruct (Component.rvs_fixed c).
  - exists (np.zeros (length (Vars.rvs v))), v. subst c'.
    repeat split; try assumption. apply length_replicate.
  - destruct Hcase as (iv & -> & Hiv). exists iv, v.
    repeat split; try assumption.
    destruct (Data.N (Model.data m)).
    + subst iv. apply length_replicate.
    + destruct Hiv as (loss & _ & Hiv). apply epochs_loop_length in Hiv.
      rewrite Hiv. apply length_replicate.
Qed.

End Structure.

(** ** The estimate on an affine gradient *)

Lemma window_sums_to_zero : np.sum window == 0.
Proof. vm_compute. reflexivity. Qed.

Lemma dot_affine g0 s (a y : vec) :
  Forall2 (fun d g => g == g0 + s * d) a y ->
  np.dot a y == g0 * np.sum a + s * np.dot a a.
Proof.
  unfold np.dot. induction 1 as [|d g a y Hg _ IH]; simpl; [ring|].
  rewrite IH, Hg. ring.
Qed.

Section Affine.
Context `{Numerics} `{Runtime}.

(** X15. When the gradient of the objective with respect to the RV of
    epoch [n] is affine in the perturbation over the window, [g0 + s*d],
    the value [optimize] leaves in [ivars_rvs[n]] is the slope [s]: the
    window being symmetric about 0, the gradient [g0] at the fitted RV
    does not enter. *)
Theorem ivars_rvs_of_affine_gradient (m : Model.t) niter sh bn fd vb w m' w'
    i c n loss v best_n g0 s :
  Model.optimize m niter sh bn fd vb w = (Ok m', w') ->
  Model.components m' !! i = Some c ->
  Component.rvs_fixed c = false ->
  (n < Data.N (Model.data m'))%nat ->
  Model.nll m' = Some loss ->
  Model.session m' !! i = Some v ->
  Vars.rvs v !! n = Some best_n ->
  (forall d, In d window ->
     exists g,
       gradients loss i
         (Model.feed_rvs i (<[n := best_n + d]> (Vars.rvs v))
                         (Model.session m')) !! n = Some g
       /\ g == g0 + s * d) ->
  exists iv x,
    Component.ivars_rvs c = Some iv /\ iv !! n = Some x /\ x == s.
Proof.
  intros Hrun Hc Hfree Hn Hloss Hv Hbest Hgrad.
  apply optimize_ok in Hrun as (st & cs' & wa & wb & _ & Hloop & _ & ->).
  cbn [Model.session Model.components Model.nll Model.data] in *.
  apply estimate_loop_ok in Hloop as (_ & Hlen & Hk).
  destruct (lookup_lt_is_Some_2 (Model.components m) i) as [c0 Hc0].
  { rewrite <- Hlen. eapply lookup_lt_Some. eassumption. }
  destruct (Hk i c0 Hc0) as (c1 & w1 & w2 & Hc1 & Hest).
  assert (c1 = c) as -> by congruence.
  change (0 + i)%nat with i in Hest.
  apply estimate_component_ok in Hest as (_ & v' & Hv' & Hcase).
  assert (v' = v) as -> by congruence.
  destruct (Component.rvs_fixed c0) eqn:Hf0.
  { subst c. rewrite set_ivars_rvs_fixed in Hfree. congruence. }
  destruct Hcase as (iv & -> & Hiv).
  destruct (Data.N (Model.data m)) as [|N'] eqn:HN; [lia|].
  destruct Hiv as (loss' & Hloss' & Hloop).
  assert (loss' = loss) as -> by congruence.
  apply epochs_loop_ok in Hloop as [Hin _]; [|apply NoDup_seq].
  destruct (Hin n) as (x & Hx & Hivn); [apply in_seq; lia|].
  apply ivar_rv_ok in Hx as (b & y & Hb & Hy & ->).
  assert (b = best_n) as -> by congruence.
  exists iv, (slope_through_origin
                ((fun d => best_n + d - best_n) <$> window) y).
  split; [apply set_ivars_rvs_read|]. split; [assumption|].
  assert (Hy' : Forall2 (fun d g => g == g0 + s * d) window y).
  { apply Forall2_same_length_lookup. split.
    - eapply Forall2_length. eassumption.
    - intros k d g Hd Hg.
      destruct (Forall2_lookup_l _ _ _ _ _ Hy Hd) as (g' & Hg' & Hgr).
      assert (g' = g) as -> by congruence.
      destruct (Hgrad d) as (g'' & Hg'' & Heq).
      { apply list_elem_of_In. eapply list_elem_of_lookup_2. eassumption. }
      cbv beta in Hgr. rewrite Hgr in Hg''. injection Hg'' as <-.
      exact Heq. }
  unfold slope_through_origin.
  pose proof (perturbations_window best_n) as HA.
  rewrite (dot_Qeq _ _ y HA), (dot_Qeq _ _ _ HA), (dot_Qeq_r _ _ _ HA).
  rewrite (dot_affine g0 s _ _ Hy'), window_sums_to_zero.
  pose proof window_dot_positive as HD.
  set (D := np.dot window window) in *. clearbody D.
  field. lra.
Qed.

End Affine.

Section SetUpObjective.
Context `{Numerics} `{Runtime}.

(** [setup] leaves the model with an objective. *)
Lemma setup_has_nll (m : Model.t) w m' w' :
  Model.setup m w = (Ok m', w') ->
  Model.nll m' = Some (default (fun _ => 0) (Model.nll m')).
Proof.
  intros Hrun.
  apply setup_ok in Hrun
    as (m1 & cs & synths & nlls & vars & lx & ly & li & xs & ys & ivars
        & _ & _ & _ & _ & _ & _ & _ & _ & _ & _ & _ & ->).
  reflexivity.
Qed.

End SetUpObjective.

(** * Runs on the executable instance *)

#[local] Existing Instance Toy.numerics.
#[local] Existing Instance Toy.runtime.

Lemma setup_ready :
  Model.setup Toy.added.1 Toy.added.2 = (Ok Toy.ready.1, Toy.ready.2).
Proof. apply succeeds_returned. vm_compute. reflexivity. Qed.

(** C1 on the star-and-telluric model. *)
Lemma objective_is_misfit_plus_regularization_witness :
  exists nll, Model.nll Toy.ready.1 = Some nll.
Proof.
  destruct (objective_is_misfit_plus_regularization Toy.added.1 Toy.added.2
              Toy.ready.1 Toy.ready.2 setup_ready)
    as (lx & ly & li & xs & ys & ivars & nll & synths & _ & _ & _ & _ & _ & _
        & Hnll & _).
  exists nll. exact Hnll.
Defined.

(** C2 on the telluric component of the telluric-only model: row 0 of
    its synth is the interpolated template times the airmass 2. *)
Lemma synth_is_interpolated_template_witness :
  exists synth,
    Component.synth (returned Toy.blank Toy.sky_setup) = Some synth
    /\ synth Toy.sky_vars !! 0%nat
       = Some (Qmult 2 <$> interp_kernel (shifted_row [0; 2; 4] 0)
                 (default [] (Component.template_xs Toy.sky_telluric))
                 (Vars.template_ys Toy.sky_vars)).
Proof.
  destruct (synth_is_interpolated_template Toy.sky_telluric Toy.data 0
              Toy.sky.2 (returned Toy.blank Toy.sky_setup) Toy.sky_setup.2)
    as (lx & xs & txs & synth & Hlx & Hxs & Htxs & Hsynth & Hrows).
  - apply succeeds_returned. vm_compute. reflexivity.
  - exists synth. split; [exact Hsynth|].
    injection Hlx as <-.
    assert (xs = Toy.data_xs) as ->
      by (vm_compute in Hxs; injection Hxs as <-; reflexivity).
    assert (txs = default [] (Component.template_xs Toy.sky_telluric)) as ->
      by (rewrite Htxs; reflexivity).
    exact (Hrows Toy.sky_vars 0%nat [0; 2; 4] 0 (Vars.template_ys Toy.sky_vars)
             eq_refl eq_refl eq_refl eq_refl 2 eq_refl).
Defined.

(** C2 as stated fails on a component with [scale_by_airmass]: with
    airmasses [2; 3] and a flat template of 2, row 0 of synth is
    [4; 4; 4] while the interpolated template is [2; 2; 2]. *)
Lemma synth_of_airmass_scaled_component_differs :
  Component.scale_by_airmass Toy.sky_telluric = true
  /\ Component.K Toy.sky_telluric = 0%nat
  /\ exists c' w' synth,
       Component.setup Toy.sky_telluric Toy.data 0 Toy.sky.2 = (Ok c', w')
       /\ Component.synth c' = Some synth
       /\ synth Toy.sky_vars !! 0%nat = Some [4; 4; 4]
       /\ interp_kernel (shifted_row [0; 2; 4] 0)
            (default [] (Component.template_xs Toy.sky_telluric))
            (Vars.template_ys Toy.sky_vars) = [2; 2; 2]
       /\ synth Toy.sky_vars !! 0%nat
          <> Some (interp_kernel (shifted_row [0; 2; 4] 0)
                     (default [] (Component.template_xs Toy.sky_telluric))
                     (Vars.template_ys Toy.sky_vars)).
Proof.
  split; [reflexivity|]. split; [reflexivity|].
  exists (returned Toy.blank Toy.sky_setup), Toy.sky_setup.2,
    (default (fun _ => []) (Component.synth (returned Toy.blank Toy.sky_setup))).
  split; [apply succeeds_returned; vm_compute; reflexivity|].
  split; [reflexivity|].
  split; [vm_compute; reflexivity|].
  split; [vm_compute; reflexivity|].
  vm_compute. discriminate.
Qed.

(** C3 on the star of the model, epoch 0, after [optimize(0)]. *)
Lemma ivars_rvs_is_slope_of_gradient_witness :
  exists iv x,
    Component.ivars_rvs
      (default Toy.blank
         (Model.components (returned Toy.ready.1 Toy.zero_iterations) !! 0%nat))
    = Some iv
    /\ iv !! 0%nat = Some x.
Proof.
  destruct (ivars_rvs_is_slope_of_gradient Toy.ready.1 0 false "wobble" None
              true Toy.ready.2 (returned Toy.ready.1 Toy.zero_iterations)
              Toy.zero_iterations.2 0
              (default Toy.blank
                 (Model.components (returned Toy.ready.1 Toy.zero_iterations)
                  !! 0%nat)) 0)
    as (loss & v & best_n & y & iv & _ & _ & _ & _ & Hiv & (Hn & _) & _).
  - apply succeeds_returned. vm_compute. reflexivity.
  - apply lookup_default. vm_compute. lia.
  - vm_compute. reflexivity.
  - vm_compute. lia.
  - exists iv. eexists. split; [exact Hiv | exact Hn].
Defined.

(** C4 as stated fails: one starting RV for a Data of two epochs is
    accepted. *)
Lemma add_component_accepts_epoch_mismatch :
  length [0] <> Data.N (Model.data Toy.model)
  /\ exists m' w' c,
       Model.add_component Toy.model "star" [0] Kwargs.empty Toy.world
       = (Ok m', w')
       /\ Model.components m' = [c] /\ Component.N c = 1%nat.
Proof.
  split; [vm_compute; discriminate|].
  set (x := Model.add_component Toy.model "star" [0] Kwargs.empty Toy.world).
  exists (returned Toy.model x), x.2,
    (default Toy.blank (Model.components (returned Toy.model x) !! 0%nat)).
  split; [apply succeeds_returned; vm_compute; reflexivity|].
  split; vm_compute; reflexivity.
Qed.

(** C5 on the telluric component, after [optimize(1)] and [optimize(0)]. *)
Lemma fixed_rvs_keep_starting_values_witness :
  let c := default Toy.blank
             (Model.components (returned Toy.ready.1 Toy.optimized) !! 1%nat) in
  Component.rvs_fixed c = true
  /\ (exists v, Model.session (returned Toy.ready.1 Toy.optimized) !! 1%nat
                = Some v
                /\ Vars.rvs v = Component.starting_rvs c)
  /\ Component.ivars_rvs c
     = Some (np.zeros (length (Component.starting_rvs c))).
Proof.
  split; [vm_compute; reflexivity|].
  refine (fixed_rvs_keep_starting_values Toy.added.1 Toy.added.2 Toy.ready.1
            Toy.ready.2 Toy.two_calls (returned Toy.ready.1 Toy.optimized)
            Toy.optimized.2 1 _ setup_ready _ _ _ _).
  - discriminate.
  - apply succeeds_returned. vm_compute. reflexivity.
  - apply lookup_default. vm_compute. lia.
  - vm_compute. reflexivity.
Defined.

(** C6 on the star-and-telluric model. *)
Lemma templates_initialised_along_residuals_witness :
  exists handed : list mat,
    length handed = 3%nat /\ handed !! 0%nat = Some Toy.data_ys.
Proof.
  destruct (templates_initialised_along_residuals Toy.added.1 Toy.added.2
              Toy.initialised.1 Toy.initialised.2 0 1 Toy.data_xs Toy.data_ys)
    as (handed & Hlen & H0 & _).
  - vm_compute. reflexivity.
  - reflexivity.
  - reflexivity.
  - reflexivity.
  - reflexivity.
  - repeat constructor.
  - exists handed. split; [exact Hlen | exact H0].
Defined.

(** C7: adding "star" a second time. *)
Lemma add_component_duplicate_is_noop_witness :
  In "star" (Model.component_names Toy.added.1)
  /\ Model.add_component Toy.added.1 "star" [0] Kwargs.empty Toy.added.2
     = (Ok Toy.added.1,
        mkWorld (heap Toy.added.2)
                (stdout Toy.added.2 ++ [MsgDuplicateName "star"])).
Proof.
  split; [left; reflexivity|].
  apply add_component_duplicate_is_noop. left. reflexivity.
Defined.

(** C8 on the model that [setup] built. *)
Lemma optimize_zero_keeps_parameters_witness :
  Model.session (returned Toy.ready.1 Toy.zero_iterations)
  = Model.session Toy.ready.1.
Proof.
  refine (proj1 (optimize_zero_keeps_parameters Toy.ready.1 false "wobble" None
                   true Toy.ready.2 (returned Toy.ready.1 Toy.zero_iterations)
                   Toy.zero_iterations.2 _)).
  apply succeeds_returned. vm_compute. reflexivity.
Defined.

(** C9 on the star. *)
Lemma default_template_grid_extent_witness :
  exists lo hi first last_,
    first == lo - 10 * (2 * (log (600001 # 100) - log 6000))
    /\ last_ < hi + 10 * (2 * (log (600001 # 100) - log 6000)).
Proof.
  destruct (default_template_grid_extent Toy.star 0%nat 1%nat 2%nat Toy.added.2
              (returned (Toy.star, 0%nat) Toy.star_run).1
              (returned (Toy.star, 0%nat) Toy.star_run).2 Toy.star_run.2)
    as (xs & ys & ivars & shifted & lo & hi & first & last_ & _ & _ & _ & _ & _
        & _ & _ & _ & Hfirst & _ & Hlast & _).
  - vm_compute. reflexivity.
  - rewrite <- surjective_pairing. apply succeeds_returned.
    vm_compute. reflexivity.
  - reflexivity.
  - exists lo, hi, first, last_. split; [exact Hfirst | exact Hlast].
Defined.

(** C9 as stated fails at the upper end: with shifted coordinates from 0
    to 4 and a spacing of 2, the grid ends at 22, not at
    [4 + 10 * 2 = 24]. *)
Lemma default_grid_ends_below_the_padded_maximum :
  Component.template_xs Toy.sky_telluric0 = None
  /\ exists c' l' w' shifted g last_,
       Component.initialize_template Toy.sky_telluric0 0%nat 1%nat 2%nat
                                     Toy.world
       = (Ok (c', l'), w')
       /\ shifted_xs Toy.sky_telluric0 Toy.data_xs = Ok shifted
       /\ np.max shifted = Ok 4
       /\ Component.template_xs c' = Some g
       /\ last g = Some last_
       /\ last_ == 22
       /\ Component.dx == 2
       /\ ~ last_ == 4 + Component.tiny * Component.dx.
Proof.
  split; [reflexivity|].
  set (x := Component.initialize_template Toy.sky_telluric0 0%nat 1%nat 2%nat
                                          Toy.world).
  exists (returned (Toy.blank, 0%nat) x).1, (returned (Toy.blank, 0%nat) x).2,
    x.2.
  exists Toy.data_xs. do 2 eexists.
  split; [rewrite <- surjective_pairing; apply succeeds_returned;
          vm_compute; reflexivity|].
  split; [vm_compute; reflexivity|].
  split; [vm_compute; reflexivity|].
  split; [vm_compute; reflexivity|].
  split; [vm_compute; reflexivity|].
  split; [vm_compute; reflexivity|].
  split; [vm_compute; reflexivity|].
  vm_compute. discriminate.
Qed.

(** C10 on the flux array of the Data. *)
Lemma initialisation_keeps_data_arrays_witness :
  heap Toy.added.2 !! 1%nat = Some Toy.data_ys
  /\ heap (Model.initialize_templates Toy.added.1 Toy.added.2).2 !! 1%nat
     = Some Toy.data_ys
  /\ heap (Component.initialize_template Toy.star 0%nat 1%nat 2%nat
                                         Toy.added.2).2 !! 1%nat
     = Some Toy.data_ys.
Proof.
  split; [reflexivity|].
  exact (initialisation_keeps_data_arrays Toy.added.1 Toy.star 0%nat 1%nat
           2%nat Toy.added.2 1%nat Toy.data_ys eq_refl).
Defined.

Lemma setup_lone :
  Model.setup Toy.lone_added.1 Toy.lone_added.2 = (Ok Toy.lone.1, Toy.lone.2).
Proof. apply succeeds_returned. vm_compute. reflexivity. Qed.

Lemma zero_le_Q (x : Q) : Qle_bool 0 x = true -> 0 <= x.
Proof. apply Qle_bool_imp_le. Qed.

(** X1 on the keywords of the star. *)
Lemma init_parameters_from_keywords_witness :
  exists c,
    Component.init "star" 0 [10; -10] Kwargs.empty Toy.world = (Ok c, Toy.world)
    /\ Component.getattr c "L1_template" = Ok 0
    /\ Component.getattr c "L1_basis_vectors" = Raise AttributeError.
Proof.
  destruct (init_parameters_from_keywords "star" 0 [10; -10] Kwargs.empty
              Toy.world (or_introl eq_refl))
    as (c & Hrun & HK & H1 & _ & Hb).
  exists c. split; [exact Hrun|]. split; [exact H1|].
  rewrite HK in Hb. exact (proj1 Hb).
Defined.

(** X2 on a file that has both template parameters. *)
Lemma init_parameters_from_file_witness :
  exists c,
    Component.init "star" 0 [10; -10] (Toy.from_file Toy.reg_file) Toy.world
    = (Ok c, Toy.world)
    /\ Component.getattr c "L2_template" = Ok 4.
Proof.
  destruct (init_parameters_from_file "star" 0 [10; -10]
              (Toy.from_file Toy.reg_file) Toy.world "reg.hdf5" Toy.reg_file
              eq_refl)
    as (c & Hrun & Hval).
  - intros p Hp. apply (proj1 (list_elem_of_In _ _)) in Hp.
    destruct Hp as [<- | [<- | []]].
    + exists [3], 3. split; vm_compute; reflexivity.
    + exists [4], 4. split; vm_compute; reflexivity.
  - exists c. split; [exact Hrun|].
    apply (Hval "L2_template" [4] 4).
    + apply list_elem_of_In. right. left. reflexivity.
    + vm_compute. reflexivity.
    + reflexivity.
Defined.

(** X3 on a file that has [L1_template] only. *)
Lemma init_keeps_parameters_read_before_failure_witness :
  exists c,
    (Component.init "star" 0 [10; -10] (Toy.from_file Toy.reg_file_short)
                    Toy.world).1 = Ok c
    /\ Component.getattr c "L1_template" = Ok 3
    /\ Component.getattr c "L2_template" = Ok 0.
Proof.
  destruct (init_keeps_parameters_read_before_failure "star" 0 [10; -10]
              (Toy.from_file Toy.reg_file_short) Toy.world "reg.hdf5"
              Toy.reg_file_short [3] 3 eq_refl)
    as (c & Hrun & H1 & H2).
  - vm_compute. reflexivity.
  - reflexivity.
  - vm_compute. reflexivity.
  - exists c. rewrite Hrun. split; [reflexivity|]. split; [exact H1 | exact H2].
Defined.

(** X4 on the barycentric corrections [10; -10]. *)
Lemma add_star_default_rvs_sum_to_zero_witness :
  exists m' w' c,
    Model.add_star Toy.model "star" None Kwargs.empty Toy.world = (Ok m', w')
    /\ Model.components m' = [c]
    /\ np.sum (Component.starting_rvs c) == 0.
Proof.
  destruct (add_star_default_rvs_sum_to_zero Toy.model "star" Kwargs.empty
              Toy.world)
    as (m' & w' & c & Hrun & Hcs & _ & _ & Hsum).
  - reflexivity.
  - discriminate.
  - exists m', w', c. split; [exact Hrun|]. split; [exact Hcs | exact Hsum].
Defined.

(** X5 on the telluric component of the model. *)
Lemma add_telluric_defaults_witness :
  exists m' w' c,
    Model.add_telluric Toy.model "tellurics" None Kwargs.empty Toy.world
    = (Ok m', w')
    /\ Model.components m' = [c]
    /\ Component.starting_rvs c = [0; 0]
    /\ Component.rvs_fixed c = true
    /\ Component.scale_by_airmass c = true.
Proof.
  destruct (add_telluric_defaults Toy.model "tellurics" None Kwargs.empty
              Toy.world eq_refl)
    as (m' & w' & c & Hrun & Hcs & Hrvs & Hfixed & Hair & _).
  exists m', w', c. split; [exact Hrun|]. split; [exact Hcs|].
  split; [exact Hrvs|]. split; [exact Hfixed | exact Hair].
Defined.

(** X6 on the first component of the model. *)
Lemma add_component_keeps_names_unique_witness :
  let x := Model.add_component Toy.model "star" [10; -10] Kwargs.empty
                               Toy.world in
  names_in_sync (returned Toy.model x)
  /\ NoDup (Model.component_names (returned Toy.model x)).
Proof.
  intros x.
  destruct (add_component_keeps_names_unique Toy.model "star" [10; -10]
              Kwargs.empty Toy.world (returned Toy.model x) x.2)
    as (Hsync & Hnd & _).
  - reflexivity.
  - constructor.
  - apply succeeds_returned. vm_compute. reflexivity.
  - split; [exact Hsync | exact Hnd].
Defined.

(** X7 on the star-and-telluric model. *)
Lemma setup_creates_optimizers_witness :
  exists ops,
    Model.updates Toy.ready.1 = Some ops
    /\ length (Model.slots Toy.ready.1) = length ops.
Proof.
  destruct (setup_creates_optimizers Toy.added.1 Toy.added.2 Toy.ready.1
              Toy.ready.2 setup_ready)
    as (ops & Hops & Hlen & _).
  exists ops. split; [exact Hops | exact Hlen].
Defined.

(** X8 on the star-and-telluric model. *)
Lemma setup_initialises_variables_witness :
  length (Model.session Toy.ready.1) = length (Model.components Toy.ready.1).
Proof.
  exact (proj1 (setup_initialises_variables Toy.added.1 Toy.added.2
                  Toy.ready.1 Toy.ready.2 setup_ready)).
Defined.

(** X10: one iteration on the model with a star, not set up. *)
Lemma optimize_before_setup_raises_witness :
  let x := add_components Toy.one_star Toy.model Toy.world in
  (Model.optimize (returned Toy.model x) 1 false "wobble" None true x.2).1
  = Raise AttributeError.
Proof.
  intros x.
  refine (optimize_before_setup_raises Toy.data ([], []) 0 Toy.model
            Toy.one_star (returned Toy.model x) Toy.world x.2 1 "wobble" None
            true _ _ _).
  - reflexivity.
  - apply succeeds_returned. vm_compute. reflexivity.
  - left. discriminate.
Defined.

(** X11 on the star with one RV for two epochs. *)
Lemma estimate_uncertainties_raises_on_short_rvs_witness :
  (Model.estimate_uncertainties Toy.lone.1 true Toy.lone.2).1
  = Raise IndexError.
Proof.
  refine (estimate_uncertainties_raises_on_short_rvs Toy.lone.1
            (default (fun _ => 0) (Model.nll Toy.lone.1)) true Toy.lone.2 0
            (default Toy.blank (Model.components Toy.lone.1 !! 0%nat))
            (default (Vars.mk [] [] [] []) (Model.session Toy.lone.1 !! 0%nat))
            _ _ _ _ _ _).
  - exact (setup_has_nll _ _ _ _ setup_lone).
  - vm_compute. reflexivity.
  - apply lookup_default. vm_compute. lia.
  - apply lookup_default. vm_compute. lia.
  - vm_compute. reflexivity.
  - vm_compute. lia.
Defined.

(** X12 on a component with three RVs and data of two epochs. *)
Lemma initialize_template_raises_on_epoch_mismatch_witness :
  Component.initialize_template Toy.crowded 0%nat 1%nat 2%nat Toy.world
  = (Raise ValueError, Toy.world).
Proof.
  refine (initialize_template_raises_on_epoch_mismatch Toy.crowded 0%nat 1%nat
            2%nat Toy.world Toy.data_xs Toy.data_ys Toy.data_ivars
            eq_refl eq_refl eq_refl _ _ _); vm_compute; discriminate.
Defined.

(** X13 on the star-and-telluric model. *)
Lemma objective_is_nonnegative_witness :
  exists nll, Model.nll Toy.ready.1 = Some nll /\ forall vars, 0 <= nll vars.
Proof.
  exists (default (fun _ => 0) (Model.nll Toy.ready.1)).
  pose proof (setup_has_nll _ _ _ _ setup_ready) as Hnll.
  split; [exact Hnll|].
  refine (objective_is_nonnegative Toy.added.1 Toy.added.2 Toy.ready.1
            Toy.ready.2 2%nat Toy.data_ivars
            (default (fun _ => 0) (Model.nll Toy.ready.1))
            setup_ready _ _ _ _ Hnll).
  - vm_compute. reflexivity.
  - vm_compute. reflexivity.
  - repeat (constructor; try (apply zero_le_Q; reflexivity)).
  - apply (Forall_fmap Component.attrs (map_Forall (fun _ x => 0 <= x))).
    set (l := Component.attrs <$> Model.components Toy.ready.1).
    vm_compute in l. subst l.
    repeat (constructor;
            try (apply map_Forall_to_list;
                 match goal with
                 | |- Forall _ ?kv =>
                     let kv' := eval vm_compute in kv in
                     change kv with kv'
                 end;
                 repeat (constructor; try (apply zero_le_Q; reflexivity)))).
Defined.

(** X14 on the model that [setup] built. *)
Lemma optimize_changes_only_estimates_witness :
  Model.component_names (returned Toy.ready.1 Toy.zero_iterations)
  = Model.component_names Toy.ready.1.
Proof.
  refine (proj1 (optimize_changes_only_estimates Toy.ready.1 0 false "wobble"
                   None true Toy.ready.2
                   (returned Toy.ready.1 Toy.zero_iterations)
                   Toy.zero_iterations.2 _)).
  apply succeeds_returned. vm_compute. reflexivity.
Defined.

(** X15 on the parabola [(rv0 - 1)^2]: the gradient at the perturbation
    [d] of the fitted value 0 is [-2 + 2*d], and the estimate is 2. *)
Lemma ivars_rvs_of_affine_gradient_witness :
  exists iv x,
    Component.ivars_rvs
      (default Toy.blank
         (Model.components (returned Toy.bowl Toy.bowl_run) !! 0%nat))
    = Some iv
    /\ iv !! 0%nat = Some x /\ x == 2.
Proof.
  refine (ivars_rvs_of_affine_gradient Toy.bowl 0 false "wobble" None false
            Toy.world (returned Toy.bowl Toy.bowl_run) Toy.bowl_run.2 0
            (default Toy.blank
               (Model.components (returned Toy.bowl Toy.bowl_run) !! 0%nat))
            0 Toy.parabola (Vars.mk [0; 0] [] [] []) 0 (-2) 2
            _ _ _ _ _ _ _ _).
  - apply succeeds_returned. vm_compute. reflexivity.
  - apply lookup_default. vm_compute. lia.
  - vm_compute. reflexivity.
  - vm_compute. lia.
  - vm_compute. reflexivity.
  - vm_compute. reflexivity.
  - reflexivity.
  - intros d Hd. vm_compute in Hd.
    repeat (destruct Hd as [<- | Hd];
            [eexists; split; vm_compute; reflexivity|]).
    destruct Hd.
Defined.
